(** * Text faces of ebiten's text/v2 package: StdFace and MultiFace

    A shallow embedding of [StdFace] (a face over a golang.org/x/image
    [font.Face], with a glyph image cache) and of [MultiFace] (an ordered
    list of faces with fallback), followed by the properties of the text
    splitter, the glyph positioner and the metrics aggregation.

    Conventions.
    - A Go [string] is the list of its bytes; [rune] and [int] are [Z]
      (string lengths stay far below 2^63, so [int] index arithmetic is
      written without wrap-around).
    - [fixed.Int26_6] is a 32-bit signed integer: a [Z] with the wrap-around
      of every addition and subtraction written out ([wrap32]).
    - [float64] is kept abstract (class [Platform]). *)

From Stdlib Require Import ZArith Lia List Bool.
From Stdlib Require Import Strings.String Strings.Byte.
From stdpp Require Import base option list gmap.

Local Open Scope Z_scope.

(** ** Go values *)

Abbreviation rune := Z.
Abbreviation gostring := (list byte).

Definition byteZ (b : byte) : Z := Z.of_N (Byte.to_N b).

(** [len(s)] *)
Definition len (s : gostring) : Z := Z.of_nat (length s).

(** A computation that either returns or panics with a message. *)
Inductive Res (A : Type) : Type :=
| Ok (a : A)
| Panic (msg : string).
Arguments Ok {A} a.
Arguments Panic {A} msg.

Definition Res_bind {A B} (x : Res A) (k : A -> Res B) : Res B :=
  match x with
  | Ok a => k a
  | Panic msg => Panic msg
  end.

(** [s[lo:hi]]: panics when the bounds are out of range. *)
Definition slice (s : gostring) (lo hi : Z) : Res gostring :=
  if (0 <=? lo) && (lo <=? hi) && (hi <=? len s)
  then Ok (take (Z.to_nat (hi - lo)) (drop (Z.to_nat lo) s))
  else Panic "slice bounds out of range".

(** [m[i]] on a slice: panics when the index is out of range. *)
Definition index {A} (m : list A) (i : Z) : Res A :=
  if 0 <=? i then
    match m !! Z.to_nat i with
    | Some a => Ok a
    | None => Panic "index out of range"
    end
  else Panic "index out of range".

(** ** golang.org/x/image/math/fixed *)

Module fixed.

(** Reduction of an integer to the signed 32-bit range. *)
Definition wrap32 (z : Z) : Z := (z + 2 ^ 31) mod 2 ^ 32 - 2 ^ 31.

Definition add (x y : Z) : Z := wrap32 (x + y).
Definition sub (x y : Z) : Z := wrap32 (x - y).
Definition neg (x : Z) : Z := wrap32 (- x).

(** [x.Floor()] is [int((x + 0x00) >> 6)]. *)
Definition Floor (x : Z) : Z := Z.shiftr (add x 0) 6.

(** [x.Ceil()] is [int((x + 0x3f) >> 6)]. *)
Definition Ceil (x : Z) : Z := Z.shiftr (add x 63) 6.

Record Point26_6 := { X : Z; Y : Z }.

Record Rectangle26_6 := { Min : Point26_6; Max : Point26_6 }.

End fixed.

(** ** unicode/utf8 *)

Module utf8.

Definition RuneError : rune := 65533.

Definition locb : Z := 128.
Definition hicb : Z := 191.

Definition xx : Z := 241.
Definition as_ : Z := 240.
Definition s1 : Z := 2.
Definition s2 : Z := 19.
Definition s3 : Z := 3.
Definition s4 : Z := 35.
Definition s5 : Z := 52.
Definition s6 : Z := 4.
Definition s7 : Z := 68.

(** The table [first]: information about the first byte of an encoding,
    given by the ranges of the table's rows. *)
Definition first (b : Z) : Z :=
  if b <? 128 then as_
  else if b <? 194 then xx
  else if b <? 224 then s1
  else if b =? 224 then s2
  else if b <? 237 then s3
  else if b =? 237 then s4
  else if b <? 240 then s3
  else if b =? 240 then s5
  else if b <? 244 then s6
  else if b =? 244 then s7
  else xx.

(** The table [acceptRanges], as (lo, hi). *)
Definition acceptRanges (i : Z) : Z * Z :=
  if i =? 0 then (locb, hicb)
  else if i =? 1 then (160, hicb)
  else if i =? 2 then (locb, 159)
  else if i =? 3 then (144, hicb)
  else if i =? 4 then (locb, 143)
  else (0, 0).

(** [s[i]] for an index the caller has checked. *)
Definition at_ (s : gostring) (i : nat) : Z :=
  match s !! i with
  | Some b => byteZ b
  | None => 0
  end.

Definition DecodeRuneInString (s : gostring) : rune * Z :=
  let n := len s in
  if n <? 1 then (RuneError, 0) else
  let s0 := at_ s 0 in
  let x := first s0 in
  if as_ <=? x then
    (if x =? xx then RuneError else s0, 1)
  else
  let sz := Z.land x 7 in
  let accept := acceptRanges (Z.shiftr x 4) in
  if n <? sz then (RuneError, 1) else
  let s1 := at_ s 1 in
  if (s1 <? fst accept) || (snd accept <? s1) then (RuneError, 1) else
  if sz <=? 2 then
    (Z.lor (Z.shiftl (Z.land s0 31) 6) (Z.land s1 63), 2)
  else
  let s2 := at_ s 2 in
  if (s2 <? locb) || (hicb <? s2) then (RuneError, 1) else
  if sz <=? 3 then
    (Z.lor (Z.lor (Z.shiftl (Z.land s0 15) 12) (Z.shiftl (Z.land s1 63) 6))
           (Z.land s2 63), 3)
  else
  let s3 := at_ s 3 in
  if (s3 <? locb) || (hicb <? s3) then (RuneError, 1) else
  (Z.lor (Z.lor (Z.lor (Z.shiftl (Z.land s0 7) 18) (Z.shiftl (Z.land s1 63) 12))
                (Z.shiftl (Z.land s2 63) 6))
         (Z.land s3 63), 4).

(** The iteration [for i, r := range s]: the pairs (byte index, rune) in
    order. Every step decodes one rune at the current position and moves on
    by its width (one byte at an invalid encoding). [i] is the index of the
    first byte of [s] in the whole string. *)
Fixpoint rangeFrom (fuel : nat) (i : Z) (s : gostring) : list (Z * rune) :=
  match fuel, s with
  | S fuel', _ :: _ =>
      let '(r, size) := DecodeRuneInString s in
      (i, r) :: rangeFrom fuel' (i + size) (drop (Z.to_nat size) s)
  | _, _ => []
  end.

Definition rangeString (s : gostring) : list (Z * rune) :=
  rangeFrom (length s) 0 s.

End utf8.


(** ** Platform types kept abstract

    [float64] with the operations the code uses on it, the two conversion
    helpers of the package between [float64] and [fixed.Int26_6] (declared
    outside the files embedded here), and the contents of a [vector.Path]. *)

Class Platform := {
  float64 : Type;
  f64_zero : float64;
  f64_add : float64 -> float64 -> float64;
  f64_gt : float64 -> float64 -> bool;
  f64_of_int : Z -> float64;
  fixed26_6ToFloat64 : Z -> float64;
  float64ToFixed26_6 : float64 -> Z;
  vector_Path : Type
}.

(** The laws of [>] on the numbers of [float64] (a strict order in which any
    two numbers compare); the metrics aggregation is stated for values that
    are numbers. *)
Class PlatformOrder `{Platform} : Prop := {
  f64_gt_irrefl : forall x, f64_gt x x = false;
  f64_gt_trans : forall x y z,
      f64_gt x y = true -> f64_gt y z = true -> f64_gt x z = true;
  f64_gt_cotrans : forall x y z,
      f64_gt x y = true -> f64_gt x z = true \/ f64_gt z y = true
}.

(** ** Data model *)

Record Metrics `{Platform} := {
  Height : float64;
  HAscent : float64;
  HDescent : float64;
  Width : float64;
  VAscent : float64;
  VDescent : float64
}.

(** Modelled from the spec: the enumeration Direction and its method
    isHorizontal are declared outside src; the left-to-right and
    right-to-left directions are the horizontal ones. *)
Inductive Direction :=
| DirectionLeftToRight
| DirectionRightToLeft
| DirectionTopToBottomAndLeftToRight
| DirectionTopToBottomAndRightToLeft.

Definition isHorizontal (d : Direction) : bool :=
  match d with
  | DirectionLeftToRight | DirectionRightToLeft => true
  | _ => false
  end.

(** ** image and ebiten

    Declared outside src, and modelled by their documentation.
    [image.Rect(x0, y0, x1, y1)] is the rectangle of these corners, "with
    minimum and maximum coordinates swapped if necessary so that it is
    well-formed". [image.NewRGBA] allocates a buffer of that rectangle; the
    type int is taken to be 64 bits wide, so that the length of the buffer
    is representable, and the allocation is taken to succeed. *)
Record image_Rectangle := {
  rect_Min : Z * Z;
  rect_Max : Z * Z
}.

Definition image_Rect (x0 y0 x1 y1 : Z) : image_Rectangle :=
  {| rect_Min := (Z.min x0 x1, Z.min y0 y1);
     rect_Max := (Z.max x0 x1, Z.max y0 y1) |}.

Definition Dx (r : image_Rectangle) : Z := fst (rect_Max r) - fst (rect_Min r).
Definition Dy (r : image_Rectangle) : Z := snd (rect_Max r) - snd (rect_Min r).

(** An [*ebiten.Image] made by [glyphImageImpl], described by what
    determines its pixels: the rectangle of the RGBA buffer it is made
    from, the dot of the drawer and the rune drawn. Its size is the size of
    the buffer. A nil image is [None]. *)
Record ebiten_Image := {
  img_bounds : image_Rectangle;
  img_dot : fixed.Point26_6;
  img_rune : rune
}.

Definition img_w (img : ebiten_Image) : Z := Dx (img_bounds img).
Definition img_h (img : ebiten_Image) : Z := Dy (img_bounds img).

(** [ebiten.NewImageFromImage] makes an image of the size of the bounds of
    its source; like [ebiten.NewImage] it panics unless the width and the
    height are positive. *)
Definition ebiten_NewImageFromImage (rgba : image_Rectangle)
    (dot : fixed.Point26_6) (r : rune) : Res ebiten_Image :=
  if Dx rgba <=? 0 then Panic "ebiten: width at NewImage must be positive"
  else if Dy rgba <=? 0 then Panic "ebiten: height at NewImage must be positive"
  else Ok {| img_bounds := rgba; img_dot := dot; img_rune := r |}.

(** The fields of [Glyph] that the faces set. *)
Record Glyph `{Platform} := {
  StartIndexInBytes : Z;
  EndIndexInBytes : Z;
  Image : option ebiten_Image;
  X : float64;
  Y : float64
}.

Record stdFaceGlyphImageCacheKey := {
  key_rune : rune;
  key_xoffset : Z
}.

#[global] Instance stdFaceGlyphImageCacheKey_eq_dec :
  EqDecision stdFaceGlyphImageCacheKey.
Proof. solve_decision. Defined.

#[global] Instance stdFaceGlyphImageCacheKey_countable :
  Countable stdFaceGlyphImageCacheKey.
Proof.
  refine (inj_countable' (fun k => (key_rune k, key_xoffset k))
                         (fun p => {| key_rune := fst p; key_xoffset := snd p |}) _).
  intros []; reflexivity.
Defined.

(** The map of a [glyphImageCache]: a key that is present holds the image
    made for it, which may be nil. *)
Abbreviation glyphImageCache := (gmap stdFaceGlyphImageCacheKey (option ebiten_Image)).

(** Modelled from the spec: glyphImageCache.getOrCreate is declared outside
    src. It returns the cached image for the key if present; otherwise it
    invokes the creation function once, stores the result under the key and
    returns it. The cache never evicts on its own. A panic of the creation
    function passes through the call, and nothing is stored. *)
Definition getOrCreate (cache : glyphImageCache) (key : stdFaceGlyphImageCacheKey)
    (create : unit -> Res (option ebiten_Image))
    : Res (option ebiten_Image) * glyphImageCache :=
  match cache !! key with
  | Some img => (Ok img, cache)
  | None =>
      match create tt with
      | Ok img => (Ok img, <[key := img]> cache)
      | Panic msg => (Panic msg, cache)
      end
  end.

(** ** golang.org/x/image/font

    A [font.Face] as the functions the code calls on it. [s.f] is a
    [faceWithCache], which memoises these calls: a call through it returns
    what the face returns. [font.MeasureString] is a function of the font
    library and is carried along with the face. *)

Record font_Metrics := {
  fm_Height : Z;
  fm_Ascent : Z;
  fm_Descent : Z
}.

Record font_Face := {
  GlyphBounds : rune -> fixed.Rectangle26_6 * Z * bool;
  GlyphAdvance : rune -> Z * bool;
  Kern : rune -> rune -> Z;
  font_Face_Metrics : font_Metrics;
  MeasureString : gostring -> Z
}.

(** ** The store

    A [*StdFace] is its address together with the fields of the struct it
    points to that never change after construction ([f] and [addr]). The one
    field that is mutated, [glyphImageCache], lives in the store under the
    address, so that two uses of one pointer share it. *)

Definition loc := positive.

Record StdFace := {
  self : loc;
  f : font_Face;
  addr : loc
}.

Abbreviation Store := (gmap loc glyphImageCache).

(** The cache of the struct at [l]; a struct starts with the empty cache. *)
Definition cacheOf (st : Store) (l : loc) : glyphImageCache :=
  default ∅ (st !! l).

(** Computations on the store that return or panic; the store that is
    returned is the store at the return or at the panic. *)
Definition M (A : Type) : Type := Store -> Res A * Store.

Definition M_ret {A} (a : A) : M A := fun st => (Ok a, st).

Definition M_bind {A B} (x : M A) (k : A -> M B) : M B :=
  fun st =>
    match x st with
    | (Ok a, st') => k a st'
    | (Panic msg, st') => (Panic msg, st')
    end.

Definition M_lift {A} (x : Res A) : M A := fun st => (x, st).

#[global] Instance Res_mret : MRet Res := fun A a => Ok a.
#[global] Instance Res_mbind : MBind Res := fun A B k x => Res_bind x k.
#[global] Instance M_mret : MRet M := fun A a => M_ret a.
#[global] Instance M_mbind : MBind M := fun A B k x => M_bind x k.

(** A loop over a slice whose body may panic. *)
Fixpoint Res_foldl {A B} (body : A -> B -> Res A) (l : list B) (a : A) : Res A :=
  match l with
  | [] => Ok a
  | b :: l' => Res_bind (body a b) (Res_foldl body l')
  end.

Fixpoint M_foldl {A B} (body : A -> B -> M A) (l : list B) (a : A) : M A :=
  match l with
  | [] => M_ret a
  | b :: l' => M_bind (body a b) (M_foldl body l')
  end.

(** ** The interface Face

    A value of the interface is the record of its methods, closed over the
    receiver. A method has the effects that an implementation in these files
    has: [Metrics], [advance] and [appendVectorPathForLine] may panic,
    [appendGlyphsForLine] may panic and changes the store, [hasGlyph] and
    [direction] only return. The path behind the pointer [path] is passed in
    and returned. *)

Record Face `{Platform} := {
  Face_Metrics : Res Metrics;
  advance : gostring -> Res float64;
  hasGlyph : rune -> bool;
  appendGlyphsForLine :
    list Glyph -> gostring -> Z -> float64 -> float64 -> M (list Glyph);
  appendVectorPathForLine :
    vector_Path -> gostring -> float64 -> float64 -> Res vector_Path;
  direction : Direction
}.

(** Declared outside src: [adjustGranularity] rounds a horizontal position to
    the grid of glyph variations of the face. *)
Class Granularity := {
  adjustGranularity : Z -> StdFace -> Z
}.

Record textChunk := {
  textStartIndex : Z;
  textEndIndex : Z;
  faceIndex : Z
}.

(** ** StdFace *)

Section StdFace_methods.
Context `{Platform} `{Granularity}.

(** [NewStdFace]: the struct is allocated at a fresh address, which it
    records in [addr]; its cache is empty. *)
Definition NewStdFace (face : font_Face) : M StdFace :=
  fun st =>
    let l := fresh (dom st) in
    (Ok {| self := l; f := face; addr := l |}, <[l := ∅]> st).

Definition copyCheck (s : StdFace) : Res unit :=
  if decide (addr s = self s) then Ok tt
  else Panic "text: illegal use of non-zero StdFace copied by value".

Definition StdFace_Metrics (s : StdFace) : Res Metrics :=
  _ ← copyCheck s;
  let m := font_Face_Metrics (f s) in
  Ok {| Height := fixed26_6ToFloat64 (fm_Height m);
        HAscent := fixed26_6ToFloat64 (fm_Ascent m);
        HDescent := fixed26_6ToFloat64 (fm_Descent m);
        Width := f64_zero;
        VAscent := f64_zero;
        VDescent := f64_zero |}.

Definition UnsafeInternal (s : StdFace) : Res font_Face :=
  _ ← copyCheck s;
  Ok (f s).

Definition StdFace_advance (s : StdFace) (text : gostring) : Res float64 :=
  Ok (fixed26_6ToFloat64 (MeasureString (f s) text)).

Definition StdFace_hasGlyph (s : StdFace) (r : rune) : bool :=
  let '(_, ok) := GlyphAdvance (f s) r in
  ok.

(** [glyphImageImpl] returns nil, or the image that
    [ebiten.NewImageFromImage] makes of the RGBA buffer after the rune is
    drawn at the dot; it panics where that function does. *)
Definition glyphImageImpl (s : StdFace) (r : rune)
    (subpixelOffset : fixed.Point26_6) (glyphBounds : fixed.Rectangle26_6)
    : Res (option ebiten_Image) :=
  let w := fixed.Ceil (fixed.sub (fixed.X (fixed.Max glyphBounds))
                                 (fixed.X (fixed.Min glyphBounds))) in
  let h := fixed.Ceil (fixed.sub (fixed.Y (fixed.Max glyphBounds))
                                 (fixed.Y (fixed.Min glyphBounds))) in
  if (w =? 0) || (h =? 0) then Ok None
  else
    let w := w + 1 in
    let h := h + 1 in
    let rgba := image_Rect 0 0 w h in
    let dot :=
      {| fixed.X := fixed.add (fixed.neg (fixed.X (fixed.Min glyphBounds)))
                              (fixed.X subpixelOffset);
         fixed.Y := fixed.add (fixed.neg (fixed.Y (fixed.Min glyphBounds)))
                              (fixed.Y subpixelOffset) |} in
    img ← ebiten_NewImageFromImage rgba dot r;
    Ok (Some img).

(** The origin as [glyphImage] uses it after its first two statements:
    [origin.X = adjustGranularity(origin.X, s)] and
    [origin.Y &^= ((1 << 6) - 1)]. *)
Definition quantize (s : StdFace) (origin : fixed.Point26_6) : fixed.Point26_6 :=
  {| fixed.X := adjustGranularity (fixed.X origin) s;
     fixed.Y := Z.ldiff (fixed.Y origin) (Z.shiftl 1 6 - 1) |}.

Definition subpixelOffsetOf (origin : fixed.Point26_6) (b : fixed.Rectangle26_6)
    : fixed.Point26_6 :=
  {| fixed.X := Z.land (fixed.add (fixed.X origin) (fixed.X (fixed.Min b)))
                       (Z.shiftl 1 6 - 1);
     fixed.Y := Z.land (fixed.add (fixed.Y origin) (fixed.Y (fixed.Min b)))
                       (Z.shiftl 1 6 - 1) |}.

Definition glyphImage (s : StdFace) (r : rune) (origin : fixed.Point26_6)
    : M (option ebiten_Image * Z * Z * Z) :=
  fun st =>
    let origin := quantize s origin in
    let '(b, a, _) := GlyphBounds (f s) r in
    let subpixelOffset := subpixelOffsetOf origin b in
    let key := {| key_rune := r; key_xoffset := fixed.X subpixelOffset |} in
    match getOrCreate (cacheOf st (self s)) key
                      (fun _ => glyphImageImpl s r subpixelOffset b) with
    | (Ok img, cache) =>
        let imgX := fixed.Floor (fixed.add (fixed.X origin) (fixed.X (fixed.Min b))) in
        let imgY := fixed.Floor (fixed.add (fixed.Y origin) (fixed.Y (fixed.Min b))) in
        (Ok (img, imgX, imgY, a), <[self s := cache]> st)
    | (Panic msg, _) => (Panic msg, st)
    end.

(** The variables of the loop of [appendGlyphsForLine]. *)
Record lineLoop := {
  ll_glyphs : list Glyph;
  ll_origin : fixed.Point26_6;
  ll_prevR : rune
}.

(** The origin on which [glyphImage] is called for [r]: the kerning with
    the previous rune is added first. *)
Definition kerned (s : StdFace) (ll : lineLoop) (r : rune) : fixed.Point26_6 :=
  if 0 <=? ll_prevR ll
  then {| fixed.X := fixed.add (fixed.X (ll_origin ll)) (Kern (f s) (ll_prevR ll) r);
          fixed.Y := fixed.Y (ll_origin ll) |}
  else ll_origin ll.

(** One iteration of [for i, r := range line]. *)
Definition appendGlyphsForLine_body (s : StdFace) (line : gostring)
    (indexOffset : Z) (ll : lineLoop) (ir : Z * rune) : M lineLoop :=
  let '(i, r) := ir in
  let origin := kerned s ll r in
  '(img, imgX, imgY, a) ← glyphImage s r origin;
  let glyphs :=
    match img with
    | Some _ =>
        let '(_, size) := utf8.DecodeRuneInString (drop (Z.to_nat i) line) in
        ll_glyphs ll ++ [ {| StartIndexInBytes := indexOffset + i;
                             EndIndexInBytes := indexOffset + i + size;
                             Image := img;
                             X := f64_of_int imgX;
                             Y := f64_of_int imgY |} ]
    | None => ll_glyphs ll
    end in
  mret {| ll_glyphs := glyphs;
          ll_origin := {| fixed.X := fixed.add (fixed.X origin) a;
                          fixed.Y := fixed.Y origin |};
          ll_prevR := r |}.

Definition StdFace_appendGlyphsForLine (s : StdFace) (glyphs : list Glyph)
    (line : gostring) (indexOffset : Z) (originX originY : float64)
    : M (list Glyph) :=
  _ ← M_lift (copyCheck s);
  let origin := {| fixed.X := float64ToFixed26_6 originX;
                   fixed.Y := float64ToFixed26_6 originY |} in
  ll ← M_foldl (appendGlyphsForLine_body s line indexOffset)
               (utf8.rangeString line)
               {| ll_glyphs := glyphs; ll_origin := origin; ll_prevR := -1 |};
  mret (ll_glyphs ll).

Definition StdFace_direction (s : StdFace) : Direction := DirectionLeftToRight.

Definition StdFace_appendVectorPathForLine (s : StdFace) (path : vector_Path)
    (line : gostring) (originX originY : float64) : Res vector_Path :=
  Ok path.

(** A [*StdFace] as a [Face]. *)
Definition StdFace_Face (s : StdFace) : Face :=
  {| Face_Metrics := StdFace_Metrics s;
     advance := StdFace_advance s;
     hasGlyph := StdFace_hasGlyph s;
     appendGlyphsForLine := StdFace_appendGlyphsForLine s;
     appendVectorPathForLine := StdFace_appendVectorPathForLine s;
     direction := StdFace_direction s |}.

End StdFace_methods.

(** ** MultiFace *)

(** [type MultiFace []Face] *)
Abbreviation MultiFace := (list Face).

Section MultiFace_methods.
Context `{Platform}.

Definition zeroMetrics : Metrics :=
  {| Height := f64_zero; HAscent := f64_zero; HDescent := f64_zero;
     Width := f64_zero; VAscent := f64_zero; VDescent := f64_zero |}.

(** [if x > y { y = x }] *)
Definition raise (x y : float64) : float64 := if f64_gt x y then x else y.

Definition MultiFace_Metrics_body (mt : Metrics) (f : Face) : Res Metrics :=
  mt1 ← Face_Metrics f;
  Ok {| Height := raise (Height mt1) (Height mt);
        HAscent := raise (HAscent mt1) (HAscent mt);
        HDescent := raise (HDescent mt1) (HDescent mt);
        Width := raise (Width mt1) (Width mt);
        VAscent := raise (VAscent mt1) (VAscent mt);
        VDescent := raise (VDescent mt1) (VDescent mt) |}.

Definition MultiFace_Metrics (m : MultiFace) : Res Metrics :=
  Res_foldl MultiFace_Metrics_body m zeroMetrics.

Fixpoint MultiFace_hasGlyph (m : MultiFace) (r : rune) : bool :=
  match m with
  | [] => false
  | f :: m' => if hasGlyph f r then true else MultiFace_hasGlyph m' r
  end.

Definition MultiFace_direction (m : MultiFace) : Direction :=
  match m with
  | [] => DirectionLeftToRight
  | f :: _ => direction f
  end.

(** The inner loop of [splitText]: the index of the first face that has a
    glyph for [r], counting from [i]; -1 when there is none. *)
Fixpoint firstFace (m : MultiFace) (i : Z) (r : rune) : Z :=
  match m with
  | [] => -1
  | f :: m' => if negb (hasGlyph f r) then firstFace m' (i + 1) r else i
  end.

(** One iteration of [for ri, r := range text] in [splitText]. The lookup
    of the last chunk finds none exactly when [len(chunks) == 0]; then, and
    when the last chunk has another face index, a chunk is appended that
    starts at [s], the end of the last chunk or 0. *)
Definition splitText_body (m : MultiFace) (text : gostring)
    (chunks : list textChunk) (rr : Z * rune) : list textChunk :=
  let '(ri, r) := rr in
  let '(_, l) := utf8.DecodeRuneInString (drop (Z.to_nat ri) text) in
  let fi := firstFace m 0 r in
  match chunks !! (length chunks - 1)%nat with
  | Some c =>
      if faceIndex c =? fi
      then <[(length chunks - 1)%nat :=
               {| textStartIndex := textStartIndex c;
                  textEndIndex := textEndIndex c + l;
                  faceIndex := faceIndex c |}]> chunks
      else chunks ++ [ {| textStartIndex := textEndIndex c;
                          textEndIndex := textEndIndex c + l;
                          faceIndex := fi |} ]
  | None => chunks ++ [ {| textStartIndex := 0;
                           textEndIndex := 0 + l;
                           faceIndex := fi |} ]
  end.

Definition splitText (m : MultiFace) (text : gostring) : list textChunk :=
  fold_left (splitText_body m text) (utf8.rangeString text) [].

(** [text[c.textStartIndex:c.textEndIndex]] *)
Definition chunkText (text : gostring) (c : textChunk) : Res gostring :=
  slice text (textStartIndex c) (textEndIndex c).

Definition MultiFace_advance_body (m : MultiFace) (text : gostring)
    (a : float64) (c : textChunk) : Res float64 :=
  if faceIndex c =? -1 then Ok a
  else
    f ← index m (faceIndex c);
    t ← chunkText text c;
    x ← advance f t;
    Ok (f64_add a x).

Definition MultiFace_advance (m : MultiFace) (text : gostring) : Res float64 :=
  Res_foldl (MultiFace_advance_body m text) (splitText m text) f64_zero.

(** The variables of the loop of [appendGlyphsForLine]. *)
Record chunkLoop := {
  cl_glyphs : list Glyph;
  cl_indexOffset : Z;
  cl_originX : float64;
  cl_originY : float64
}.

Definition MultiFace_appendGlyphsForLine_body (m : MultiFace) (line : gostring)
    (cl : chunkLoop) (c : textChunk) : M chunkLoop :=
  if faceIndex c =? -1 then mret cl
  else
    f ← M_lift (index m (faceIndex c));
    t ← M_lift (chunkText line c);
    glyphs ← appendGlyphsForLine f (cl_glyphs cl) t (cl_indexOffset cl)
                                 (cl_originX cl) (cl_originY cl);
    a ← M_lift (advance f t);
    let originX := if isHorizontal (direction f)
                   then f64_add (cl_originX cl) a else cl_originX cl in
    let originY := if isHorizontal (direction f)
                   then cl_originY cl else f64_add (cl_originY cl) a in
    mret {| cl_glyphs := glyphs;
            cl_indexOffset := cl_indexOffset cl + len t;
            cl_originX := originX;
            cl_originY := originY |}.

Definition MultiFace_appendGlyphsForLine (m : MultiFace) (glyphs : list Glyph)
    (line : gostring) (indexOffset : Z) (originX originY : float64)
    : M (list Glyph) :=
  cl ← M_foldl (MultiFace_appendGlyphsForLine_body m line) (splitText m line)
               {| cl_glyphs := glyphs; cl_indexOffset := indexOffset;
                  cl_originX := originX; cl_originY := originY |};
  mret (cl_glyphs cl).

(** The variables of the loop of [appendVectorPathForLine]; the path is
    the value behind the pointer [path]. *)
Record pathLoop := {
  pl_path : vector_Path;
  pl_originX : float64;
  pl_originY : float64
}.

Definition MultiFace_appendVectorPathForLine_body (m : MultiFace)
    (line : gostring) (pl : pathLoop) (c : textChunk) : Res pathLoop :=
  if faceIndex c =? -1 then Ok pl
  else
    f ← index m (faceIndex c);
    t ← chunkText line c;
    path ← appendVectorPathForLine f (pl_path pl) t (pl_originX pl) (pl_originY pl);
    a ← advance f t;
    let originX := if isHorizontal (direction f)
                   then f64_add (pl_originX pl) a else pl_originX pl in
    let originY := if isHorizontal (direction f)
                   then pl_originY pl else f64_add (pl_originY pl) a in
    Ok {| pl_path := path; pl_originX := originX; pl_originY := originY |}.

Definition MultiFace_appendVectorPathForLine (m : MultiFace)
    (path : vector_Path) (line : gostring) (originX originY : float64)
    : Res vector_Path :=
  pl ← Res_foldl (MultiFace_appendVectorPathForLine_body m line)
                 (splitText m line)
                 {| pl_path := path; pl_originX := originX; pl_originY := originY |};
  Ok (pl_path pl).

(** A [MultiFace] as a [Face]. *)
Definition MultiFace_Face (m : MultiFace) : Face :=
  {| Face_Metrics := MultiFace_Metrics m;
     advance := MultiFace_advance m;
     hasGlyph := MultiFace_hasGlyph m;
     appendGlyphsForLine := MultiFace_appendGlyphsForLine m;
     appendVectorPathForLine := MultiFace_appendVectorPathForLine m;
     direction := MultiFace_direction m |}.

End MultiFace_methods.

(** ** Vocabulary of the properties *)

Section Vocabulary.
Context `{Platform} `{Granularity}.

(** The positions at which [for i, r := range text] decodes a rune, and the
    end of the string: 0, and the position after the rune decoded at a
    position before the end. *)
Inductive runeBoundary (text : gostring) : Z -> Prop :=
| runeBoundary_start : runeBoundary text 0
| runeBoundary_next (i : Z) :
    runeBoundary text i -> i < len text ->
    runeBoundary text
      (i + snd (utf8.DecodeRuneInString (drop (Z.to_nat i) text))).

Definition extendChunk (c : textChunk) (l : Z) : textChunk :=
  {| textStartIndex := textStartIndex c;
     textEndIndex := textEndIndex c + l;
     faceIndex := faceIndex c |}.

(** The chunks in [cs] lie end to start from [a] to [b], none empty. *)
Fixpoint contiguous (a : Z) (cs : list textChunk) (b : Z) : Prop :=
  match cs with
  | [] => a = b
  | c :: cs' =>
      textStartIndex c = a /\ a < textEndIndex c /\
      contiguous (textEndIndex c) cs' b
  end.

(** No two neighbours in [cs] have the same face index. *)
Definition adjacentDistinct (cs : list textChunk) : Prop :=
  forall (i : nat) (c1 c2 : textChunk),
    cs !! i = Some c1 -> cs !! S i = Some c2 -> faceIndex c1 <> faceIndex c2.

(** The six fields of [Metrics]. *)
Inductive metricsField :=
| FHeight | FHAscent | FHDescent | FWidth | FVAscent | FVDescent.

Definition getField (fld : metricsField) (mt : Metrics) : float64 :=
  match fld with
  | FHeight => Height mt
  | FHAscent => HAscent mt
  | FHDescent => HDescent mt
  | FWidth => Width mt
  | FVAscent => VAscent mt
  | FVDescent => VDescent mt
  end.

(** [r] is a maximum of the values [vs]: none of them is greater than [r],
    and [r] is not greater than all of them (one of them is as great). *)
Definition isMaxOf (vs : list float64) (r : float64) : Prop :=
  (forall v, In v vs -> f64_gt v r = false) /\
  (exists v, In v vs /\ f64_gt r v = false).

(** Every field of [mt] is a non-negative number. *)
Definition nonNegative (mt : Metrics) : Prop :=
  forall fld, f64_gt f64_zero (getField fld mt) = false.

(** A chunk that names a face. *)
Definition isSourced (c : textChunk) : Prop := faceIndex c <> -1.

#[global] Instance isSourced_dec (c : textChunk) : Decision (isSourced c).
Proof. unfold isSourced. apply _. Defined.

(** The face and the substring of a sourced chunk. *)
Definition chunkPart (m : MultiFace) (text : gostring) (c : textChunk)
    (ft : Face * gostring) : Prop :=
  index m (faceIndex c) = Ok (fst ft) /\ chunkText text c = Ok (snd ft).

(** The sum, from left to right, of the advances that the faces report for
    their substrings. *)
Definition sumAdvances (parts : list (Face * gostring)) : Res float64 :=
  Res_foldl (fun a ft => x ← advance (fst ft) (snd ft); Ok (f64_add a x))
            parts f64_zero.

(** The face index of a chunk is the sentinel or an index of [m]. *)
Definition faceIndexOk (m : MultiFace) (c : textChunk) : Prop :=
  faceIndex c = -1 \/ exists f, index m (faceIndex c) = Ok f.

(** The ink bounds and the advance that the font reports for a rune. *)
Definition boundsOf (s : StdFace) (r : rune) : fixed.Rectangle26_6 :=
  (GlyphBounds (f s) r).1.1.

Definition advanceOf (s : StdFace) (r : rune) : Z :=
  (GlyphBounds (f s) r).1.2.

(** Ink bounds of zero width or of zero height. *)
Definition degenerate (b : fixed.Rectangle26_6) : Prop :=
  fixed.X (fixed.Max b) = fixed.X (fixed.Min b) \/
  fixed.Y (fixed.Max b) = fixed.Y (fixed.Min b).

(** The cache key that [glyphImage] builds for a rune at an origin. *)
Definition glyphKey (s : StdFace) (r : rune) (origin : fixed.Point26_6)
    : stdFaceGlyphImageCacheKey :=
  {| key_rune := r;
     key_xoffset :=
       fixed.X (subpixelOffsetOf (quantize s origin) (boundsOf s r)) |}.

(** Every entry of the cache is an image that [glyphImageImpl] makes for the
    rune of its key. *)
Definition cacheSound (s : StdFace) (cache : glyphImageCache) : Prop :=
  forall key img,
    cache !! key = Some img ->
    exists sub,
      glyphImageImpl s (key_rune key) sub (boundsOf s (key_rune key)) = Ok img.

(** The image of the rune can be made: [glyphImageImpl] returns on the ink
    bounds of the rune, nil or an image. *)
Definition drawable (s : StdFace) (r : rune) : Prop :=
  forall sub, exists img, glyphImageImpl s r sub (boundsOf s r) = Ok img.

(** Ink bounds whose minimum is not beyond their maximum, of a width and a
    height, in 64ths of a pixel, that the fixed-point type holds with room
    for the rounding up. *)
Definition wellFormed (b : fixed.Rectangle26_6) : Prop :=
  0 <= fixed.X (fixed.Max b) - fixed.X (fixed.Min b) <= 2 ^ 31 - 64 /\
  0 <= fixed.Y (fixed.Max b) - fixed.Y (fixed.Min b) <= 2 ^ 31 - 64.

(** The glyph that an iteration appends when the image is not nil. *)
Definition glyphAt (s : StdFace) (line : gostring) (indexOffset : Z)
    (i : Z) (r : rune) (origin : fixed.Point26_6) (img : option ebiten_Image)
    : Glyph :=
  let q := quantize s origin in
  let b := boundsOf s r in
  {| StartIndexInBytes := indexOffset + i;
     EndIndexInBytes :=
       indexOffset + i + snd (utf8.DecodeRuneInString (drop (Z.to_nat i) line));
     Image := img;
     X := f64_of_int (fixed.Floor (fixed.add (fixed.X q) (fixed.X (fixed.Min b))));
     Y := f64_of_int (fixed.Floor (fixed.add (fixed.Y q) (fixed.Y (fixed.Min b)))) |}.

(** A glyph of the rune of [line] at a rune boundary [j]: its byte range,
    less [indexOffset], is the range of that rune in [line]; it has an image,
    and the ink bounds of the rune are not degenerate. *)
Definition glyphOfRune (s : StdFace) (line : gostring)
    (indexOffset : Z) (g : Glyph) : Prop :=
  exists j : Z,
    let d := utf8.DecodeRuneInString (drop (Z.to_nat j) line) in
    runeBoundary line j /\ 0 <= j < len line /\ 1 <= snd d /\
    j + snd d <= len line /\
    StartIndexInBytes g = indexOffset + j /\
    EndIndexInBytes g = indexOffset + j + snd d /\
    is_Some (Image g) /\
    ~ degenerate (boundsOf s (fst d)).

(** The position [e] is reached from the position [a] by decoding runes of
    [text] one after the other. *)
Inductive runeChain (text : gostring) : Z -> Z -> Prop :=
| runeChain_here (a : Z) : runeChain text a a
| runeChain_step (a e : Z) :
    a < len text ->
    runeChain text (a + snd (utf8.DecodeRuneInString (drop (Z.to_nat a) text))) e ->
    runeChain text a e.

(** A chunk that starts at a rune of [text] and consists of whole runes. *)
Definition wholeRunes (text : gostring) (c : textChunk) : Prop :=
  runeBoundary text (textStartIndex c) /\
  runeChain text (textStartIndex c) (textEndIndex c).

(** Byte-range fidelity of a glyph: less [indexOffset], its byte range lies
    within [line] and is the range of the one rune decoded at its start. *)
Definition rangeOk (line : gostring) (indexOffset : Z) (g : Glyph) : Prop :=
  exists j : Z,
    let d := utf8.DecodeRuneInString (drop (Z.to_nat j) line) in
    runeBoundary line j /\ 0 <= j < len line /\ j + snd d <= len line /\
    StartIndexInBytes g = indexOffset + j /\
    EndIndexInBytes g = indexOffset + j + snd d.

(** A face that keeps the byte-range fidelity, on stores that satisfy
    [Inv]: its advance returns, and [appendGlyphsForLine] returns the glyphs
    it was given followed by glyphs with byte-range fidelity for its line
    and offset. *)
Definition faithful (Inv : Store -> Prop) (f : Face) : Prop :=
  forall t : gostring,
    (exists a, advance f t = Ok a) /\
    forall glyphs indexOffset originX originY st,
      Inv st ->
      exists new st',
        appendGlyphsForLine f glyphs t indexOffset originX originY st
          = (Ok (glyphs ++ new), st') /\
        Inv st' /\
        Forall (rangeOk t indexOffset) new.

(** The caches of the faces [ss] hold only images made by
    [glyphImageImpl]. *)
Definition cachesSound (ss : list StdFace) (st : Store) : Prop :=
  Forall (fun s => cacheSound s (cacheOf st (self s))) ss.

End Vocabulary.

(** ** A concrete platform and font

    Values on which the definitions above are evaluated. The numbers of this
    platform are the multiples of 1/64 pixel, written as their count of
    64ths: on them the conversions from and to [fixed.Int26_6] are exact. The
    grid of [adjustGranularity] is the whole pixel. The font has an 'A' with
    ink, a space with an advance and empty ink bounds, and no other glyph. *)

Module Sample.

#[export] Instance platform : Platform :=
  {| float64 := Z;
     f64_zero := 0;
     f64_add := Z.add;
     f64_gt := Z.gtb;
     f64_of_int := fun i => 64 * i;
     fixed26_6ToFloat64 := fun x => x;
     float64ToFixed26_6 := fun x => x;
     vector_Path := list Z |}.

#[export] Instance granularity : Granularity :=
  {| adjustGranularity := fun x _ => Z.ldiff x 63 |}.

Definition emptyBounds : fixed.Rectangle26_6 :=
  {| fixed.Min := {| fixed.X := 0; fixed.Y := 0 |};
     fixed.Max := {| fixed.X := 0; fixed.Y := 0 |} |}.

Definition latin : font_Face :=
  {| GlyphBounds := fun r =>
       if r =? 65 then
         ({| fixed.Min := {| fixed.X := 32; fixed.Y := -608 |};
             fixed.Max := {| fixed.X := 544; fixed.Y := 0 |} |}, 640, true)
       else if r =? 32 then (emptyBounds, 320, true)
       else (emptyBounds, 0, false);
     GlyphAdvance := fun r =>
       if r =? 65 then (640, true)
       else if r =? 32 then (320, true)
       else (0, false);
     Kern := fun _ _ => 0;
     font_Face_Metrics := {| fm_Height := 1024; fm_Ascent := 768; fm_Descent := 256 |};
     MeasureString := fun s =>
       fold_left (fun a b => if byteZ b =? 65 then a + 640
                             else if byteZ b =? 32 then a + 320 else a) s 0 |}.

(** A font with the same glyphs and other metrics. *)
Definition tall : font_Face :=
  {| GlyphBounds := GlyphBounds latin;
     GlyphAdvance := GlyphAdvance latin;
     Kern := Kern latin;
     font_Face_Metrics := {| fm_Height := 1280; fm_Ascent := 640; fm_Descent := 512 |};
     MeasureString := MeasureString latin |}.

(** Two faces made by [NewStdFace], and a copy by value of the first at
    another address. *)
Definition face1 : StdFace := {| self := 1%positive; f := latin; addr := 1%positive |}.
Definition face2 : StdFace := {| self := 2%positive; f := tall; addr := 2%positive |}.
Definition copied : StdFace := {| self := 3%positive; f := latin; addr := 1%positive |}.

(** The line "éA": é is the two bytes C3 A9, A is the byte 41. *)
Definition line : gostring := [Byte.xc3; Byte.xa9; Byte.x41].

(** The line "AB". *)
Definition lineAB : gostring := [Byte.x41; Byte.x42].

(** A font with a glyph for every ASCII rune and one with a glyph for
    every rune, as faces; and the UTF-8 bytes of the line
    "Hello" + five hiragana + "World" + two kanji. *)
Definition fontOf (has : rune -> bool) : font_Face :=
  {| GlyphBounds := fun r =>
       if has r then
         ({| fixed.Min := {| fixed.X := 0; fixed.Y := -640 |};
             fixed.Max := {| fixed.X := 512; fixed.Y := 0 |} |}, 640, true)
       else (emptyBounds, 0, false);
     GlyphAdvance := fun r => if has r then (640, true) else (0, false);
     Kern := fun _ _ => 0;
     font_Face_Metrics := {| fm_Height := 1024; fm_Ascent := 768; fm_Descent := 256 |};
     MeasureString := fun s => 0 |}.

Definition asciiFace : StdFace :=
  {| self := 4%positive; f := fontOf (fun r => r <? 128); addr := 4%positive |}.

Definition anyFace : StdFace :=
  {| self := 5%positive; f := fontOf (fun _ => true); addr := 5%positive |}.

(** A font whose ink bounds are not well-formed: the maximum x of every
    glyph lies one pixel before its minimum x. *)
Definition inverted : font_Face :=
  {| GlyphBounds := fun _ =>
       ({| fixed.Min := {| fixed.X := 64; fixed.Y := -640 |};
           fixed.Max := {| fixed.X := 0; fixed.Y := 0 |} |}, 640, true);
     GlyphAdvance := fun _ => (640, true);
     Kern := fun _ _ => 0;
     font_Face_Metrics := {| fm_Height := 1024; fm_Ascent := 768; fm_Descent := 256 |};
     MeasureString := fun s => 0 |}.

Definition invertedFace : StdFace :=
  {| self := 6%positive; f := inverted; addr := 6%positive |}.

Definition lineMixed : gostring :=
  [ Byte.x48; Byte.x65; Byte.x6c; Byte.x6c; Byte.x6f;
    Byte.xe3; Byte.x81; Byte.x93;  Byte.xe3; Byte.x82; Byte.x93;
    Byte.xe3; Byte.x81; Byte.xab;  Byte.xe3; Byte.x81; Byte.xa1;
    Byte.xe3; Byte.x81; Byte.xaf;
    Byte.x57; Byte.x6f; Byte.x72; Byte.x6c; Byte.x64;
    Byte.xe4; Byte.xb8; Byte.x96;  Byte.xe7; Byte.x95; Byte.x8c ].

(** A MultiFace of the two faces, and the metrics that they report. *)
Definition faces : MultiFace := [StdFace_Face face1; StdFace_Face face2].

Definition metrics : list Metrics :=
  [ {| Height := 1024; HAscent := 768; HDescent := 256;
       Width := 0; VAscent := 0; VDescent := 0 |};
    {| Height := 1280; HAscent := 640; HDescent := 512;
       Width := 0; VAscent := 0; VDescent := 0 |} ].

(** The variables of the loop of [StdFace.appendGlyphsForLine] at its
    start, for no glyphs and the origin (0, 0). *)
Definition start : lineLoop :=
  {| ll_glyphs := []; ll_origin := {| fixed.X := 0; fixed.Y := 0 |};
     ll_prevR := -1 |}.

End Sample.

(** ** Vocabulary of the further properties *)

Section Vocabulary_more.
Context `{Platform} `{Granularity}.

(** [fi] is the face index that [splitText] gives to the rune [r]: -1 when
    no face of [m] has a glyph for [r], otherwise the index of a face that
    has one while no face before it has. *)
Definition firstOf (m : MultiFace) (r : rune) (fi : Z) : Prop :=
  (fi = -1 /\ forall f, f ∈ m -> hasGlyph f r = false) \/
  (0 <= fi /\
   exists f, m !! Z.to_nat fi = Some f /\ hasGlyph f r = true /\
             forall (j : nat) (f' : Face),
               (j < Z.to_nat fi)%nat -> m !! j = Some f' -> hasGlyph f' r = false).

(** The chunk that holds the rune at [j], with the face index of the
    rune. *)
Definition runeChunk (m : MultiFace) (text : gostring) (j : Z)
    (cs : list textChunk) : Prop :=
  exists c, c ∈ cs /\
    textStartIndex c <= j /\
    j + snd (utf8.DecodeRuneInString (drop (Z.to_nat j) text)) <= textEndIndex c /\
    faceIndex c = firstFace m 0 (fst (utf8.DecodeRuneInString (drop (Z.to_nat j) text))).

(** The byte ranges of the glyphs [gs] are in increasing order without
    overlap, none empty, from [lo] on and up to [hi]. *)
Fixpoint ascending (lo : Z) (gs : list Glyph) (hi : Z) : Prop :=
  match gs with
  | [] => lo <= hi
  | g :: gs' =>
      lo <= StartIndexInBytes g /\
      StartIndexInBytes g < EndIndexInBytes g /\
      ascending (EndIndexInBytes g) gs' hi
  end.

(** A glyph that [StdFace.appendGlyphsForLine] makes for a rune of [line]
    met by its loop: the byte range of the rune moved by [indexOffset], an
    image, and the y coordinate that the origin's y, cleared of its
    fractional bits, gives with the ink bounds of the rune. *)
Definition lineGlyph (s : StdFace) (line : gostring) (indexOffset : Z)
    (originY : float64) (g : Glyph) : Prop :=
  exists (j : Z) (r : rune),
    (j, r) ∈ utf8.rangeString line /\
    StartIndexInBytes g = indexOffset + j /\
    EndIndexInBytes g =
      indexOffset + j + snd (utf8.DecodeRuneInString (drop (Z.to_nat j) line)) /\
    is_Some (Image g) /\
    Y g = f64_of_int
            (fixed.Floor
               (fixed.add (Z.ldiff (float64ToFixed26_6 originY) 63)
                          (fixed.Y (fixed.Min (boundsOf s r))))).

(** The image of every rune that the loop over [line] meets can be
    made. *)
Definition lineDrawable (s : StdFace) (line : gostring) : Prop :=
  forall j r, (j, r) ∈ utf8.rangeString line -> drawable s r.

(** The test [w == 0 || h == 0] of [glyphImageImpl] on the ink bounds of a
    rune. *)
Definition inkless (s : StdFace) (r : rune) : bool :=
  let b := boundsOf s r in
  (fixed.Ceil (fixed.sub (fixed.X (fixed.Max b)) (fixed.X (fixed.Min b))) =? 0)
  || (fixed.Ceil (fixed.sub (fixed.Y (fixed.Max b)) (fixed.Y (fixed.Min b))) =? 0).

(** The byte range that a glyph of the rune at [j] gets. *)
Definition runeRange (line : gostring) (indexOffset : Z) (j : Z) : Z * Z :=
  (indexOffset + j,
   indexOffset + j + snd (utf8.DecodeRuneInString (drop (Z.to_nat j) line))).

(** Every entry of the cache is the image that [glyphImageImpl] makes for
    the rune of its key at the sub-pixel offset of the key: the x offset in
    the key, and the y offset that the ink bounds of the rune give. *)
Definition cacheExact (s : StdFace) (cache : glyphImageCache) : Prop :=
  forall key img,
    cache !! key = Some img ->
    glyphImageImpl s (key_rune key)
      {| fixed.X := key_xoffset key;
         fixed.Y := Z.land (fixed.Y (fixed.Min (boundsOf s (key_rune key)))) 63 |}
      (boundsOf s (key_rune key)) = Ok img.

(** A face whose glyphs are in order and keep the byte-range fidelity: its
    advance returns, and [appendGlyphsForLine] returns the glyphs it was
    given followed by glyphs with byte-range fidelity for its line and
    offset, in increasing order without overlap. *)
Definition orderly (f : Face) : Prop :=
  forall t : gostring,
    (exists a, advance f t = Ok a) /\
    forall glyphs indexOffset originX originY st,
      exists new st',
        appendGlyphsForLine f glyphs t indexOffset originX originY st
          = (Ok (glyphs ++ new), st') /\
        ascending indexOffset new (indexOffset + len t) /\
        Forall (rangeOk t indexOffset) new.

(** A face that adds nothing to a path and whose advance returns. *)
Definition pathInert (f : Face) : Prop :=
  forall t : gostring,
    (exists a, advance f t = Ok a) /\
    forall (path : vector_Path) (originX originY : float64),
      appendVectorPathForLine f path t originX originY = Ok path.

(** The variables of the loop of [StdFace.appendGlyphsForLine] after an
    iteration in which [glyphImage] returned the image [img]. *)
Definition lineNext (s : StdFace) (line : gostring) (indexOffset : Z)
    (ll : lineLoop) (ir : Z * rune) (img : option ebiten_Image) : lineLoop :=
  let origin := kerned s ll ir.2 in
  {| ll_glyphs :=
       match img with
       | Some _ => ll_glyphs ll ++ [glyphAt s line indexOffset ir.1 ir.2 origin img]
       | None => ll_glyphs ll
       end;
     ll_origin := {| fixed.X := fixed.add (fixed.X origin) (advanceOf s ir.2);
                     fixed.Y := fixed.Y origin |};
     ll_prevR := ir.2 |}.

(** One iteration of the loop of [StdFace.appendGlyphsForLine] with the
    image taken from [glyphImageImpl] and not from the cache, and the loop
    over a line from the start: what a StdFace without a cache would
    return, glyphs or the panic of [glyphImageImpl]. *)
Definition lineStep (s : StdFace) (line : gostring) (indexOffset : Z)
    (ll : lineLoop) (ir : Z * rune) : Res lineLoop :=
  let origin := kerned s ll ir.2 in
  let b := boundsOf s ir.2 in
  img ← glyphImageImpl s ir.2 (subpixelOffsetOf (quantize s origin) b) b;
  Ok (lineNext s line indexOffset ll ir img).

Definition layout (s : StdFace) (glyphs : list Glyph) (line : gostring)
    (indexOffset : Z) (originX originY : float64) : Res (list Glyph) :=
  ll ← Res_foldl (lineStep s line indexOffset) (utf8.rangeString line)
                 {| ll_glyphs := glyphs;
                    ll_origin := {| fixed.X := float64ToFixed26_6 originX;
                                    fixed.Y := float64ToFixed26_6 originY |};
                    ll_prevR := -1 |};
  Ok (ll_glyphs ll).

End Vocabulary_more.

(** * Properties *)

(** ** Decoding *)

Lemma DecodeRuneInString_size (s : gostring) :
  s <> [] ->
  1 <= snd (utf8.DecodeRuneInString s) <= len s.
Proof.
  intros Hs.
  assert (Hn : 1 <= len s) by (destruct s; [congruence | unfold len; simpl; lia]).
  unfold utf8.DecodeRuneInString.
  destruct (len s <? 1) eqn:E0; [apply Z.ltb_lt in E0; lia |].
  set (s0 := utf8.at_ s 0).
  destruct (utf8.as_ <=? utf8.first s0) eqn:E1; [simpl; lia |].
  destruct (len s <? Z.land (utf8.first s0) 7) eqn:E2; [simpl; lia |].
  apply Z.ltb_ge in E2.
  assert (Hsz : Z.land (utf8.first s0) 7 = 2 \/ Z.land (utf8.first s0) 7 = 3
                \/ Z.land (utf8.first s0) 7 = 4).
  { clear -E1. unfold utf8.first in *.
    repeat match goal with
           | |- context [if ?c then _ else _] => destruct c
           end; vm_compute in E1; try discriminate; vm_compute; auto. }
  repeat match goal with
         | |- context [if ?c then _ else _] => destruct c eqn:?
         end; simpl; try lia.
  all: repeat match goal with
         | H : (_ <=? _) = false |- _ => apply Z.leb_gt in H
         | H : (_ <=? _) = true |- _ => apply Z.leb_le in H
         end; lia.
Qed.

(** ** The iteration over the runes of a string *)

Lemma drop_nil_len (text : gostring) (i : Z) :
  0 <= i <= len text -> drop (Z.to_nat i) text = [] -> i = len text.
Proof.
  intros Hi Hd. apply (f_equal length) in Hd.
  rewrite length_drop in Hd. simpl in Hd. unfold len in *. lia.
Qed.

Lemma len_drop (text : gostring) (i : Z) :
  0 <= i <= len text -> len (drop (Z.to_nat i) text) = len text - i.
Proof. intros Hi. unfold len in *. rewrite length_drop. lia. Qed.

(** Induction along [for i, r := range text]: a property of the position
    and of the iterations that remain holds at the start if it holds at the
    end of the string and is carried backwards over one decoded rune. *)
Lemma rangeString_ind (text : gostring) (Q : Z -> list (Z * rune) -> Prop) :
  Q (len text) [] ->
  (forall i l,
      runeBoundary text i ->
      0 <= i < len text ->
      let d := utf8.DecodeRuneInString (drop (Z.to_nat i) text) in
      1 <= snd d -> i + snd d <= len text ->
      Q (i + snd d) l -> Q i ((i, fst d) :: l)) ->
  Q 0 (utf8.rangeString text).
Proof.
  intros Hend Hstep.
  assert (G : forall fuel i,
             runeBoundary text i ->
             0 <= i <= len text ->
             (length text - Z.to_nat i <= fuel)%nat ->
             Q i (utf8.rangeFrom fuel i (drop (Z.to_nat i) text))).
  { induction fuel as [|fuel IH]; intros i Hb Hi Hfuel.
    - assert (i = len text) by (unfold len in *; lia). subst i.
      simpl. exact Hend.
    - simpl. destruct (drop (Z.to_nat i) text) as [|b s'] eqn:Ed.
      + apply drop_nil_len in Ed; [subst i; exact Hend | exact Hi].
      + rewrite <- Ed.
        assert (Hne : drop (Z.to_nat i) text <> []) by (rewrite Ed; discriminate).
        pose proof (DecodeRuneInString_size _ Hne) as Hsz.
        rewrite len_drop in Hsz by exact Hi.
        assert (Hlt : i < len text) by lia.
        pose proof (runeBoundary_next text i Hb Hlt) as Hb'.
        destruct (utf8.DecodeRuneInString (drop (Z.to_nat i) text)) as [r size] eqn:Ed'.
        simpl in Hsz, Hb'.
        rewrite drop_drop.
        replace (Z.to_nat i + Z.to_nat size)%nat with (Z.to_nat (i + size)) by lia.
        specialize (Hstep i (utf8.rangeFrom fuel (i + size)
                                            (drop (Z.to_nat (i + size)) text))).
        rewrite Ed' in Hstep. simpl in Hstep.
        apply Hstep; try lia; try assumption.
        apply IH; [assumption | lia | unfold len in *; lia]. }
  unfold utf8.rangeString.
  specialize (G (length text) 0). simpl in G. rewrite drop_0 in G.
  apply G; [constructor | unfold len; lia | lia].
Qed.

(** The same for a loop that threads a state [st] through its iterations
    ([fold_left]) with an invariant [P] indexed by the position. *)
Lemma rangeString_fold_ind {S : Type} (text : gostring) (P : Z -> S -> Prop)
    (step : S -> Z * rune -> S) (st0 : S) :
  P 0 st0 ->
  (forall i st,
      runeBoundary text i ->
      0 <= i < len text -> P i st ->
      let d := utf8.DecodeRuneInString (drop (Z.to_nat i) text) in
      1 <= snd d -> i + snd d <= len text ->
      P (i + snd d) (step st (i, fst d))) ->
  P (len text) (fold_left step (utf8.rangeString text) st0).
Proof.
  intros H0 Hstep. revert st0 H0.
  apply (rangeString_ind text
           (fun i l => forall st, P i st -> P (len text) (fold_left step l st))).
  - intros st Hst. exact Hst.
  - intros i l Hb Hi d Hd1 Hd2 IH st Hst. simpl. apply IH. apply Hstep; assumption.
Qed.

(** The same for a loop on the store whose body returns: the loop returns,
    and the invariant [P] holds at the end of the string. *)
Lemma rangeString_M_foldl_ind {A : Type} (text : gostring)
    (P : Z -> A -> Store -> Prop) (body : A -> Z * rune -> M A)
    (a0 : A) (st0 : Store) :
  P 0 a0 st0 ->
  (forall i a st,
      runeBoundary text i ->
      0 <= i < len text -> P i a st ->
      let d := utf8.DecodeRuneInString (drop (Z.to_nat i) text) in
      1 <= snd d -> i + snd d <= len text ->
      exists a' st', body a (i, fst d) st = (Ok a', st') /\ P (i + snd d) a' st') ->
  exists a' st',
    M_foldl body (utf8.rangeString text) a0 st0 = (Ok a', st') /\
    P (len text) a' st'.
Proof.
  intros H0 Hstep. revert a0 st0 H0.
  apply (rangeString_ind text
           (fun i l => forall a st, P i a st ->
              exists a' st', M_foldl body l a st = (Ok a', st') /\ P (len text) a' st')).
  - intros a st Hp. exists a, st. split; [reflexivity | exact Hp].
  - intros i l Hb Hi d Hd1 Hd2 IH a st Hp.
    destruct (Hstep i a st Hb Hi Hp Hd1 Hd2) as (a1 & st1 & Hbody & Hp1).
    destruct (IH a1 st1 Hp1) as (a' & st' & Hloop & Hp').
    exists a', st'. split; [| exact Hp'].
    subst d. cbn [M_foldl]. unfold M_bind. rewrite Hbody. exact Hloop.
Qed.

(** ** The chunks of [splitText] *)

Section splitText_facts.
Context `{Platform}.

Lemma lookup_last_snoc {A} (cs : list A) (c : A) :
  (cs ++ [c]) !! (length (cs ++ [c]) - 1)%nat = Some c.
Proof.
  rewrite length_app. simpl.
  replace (length cs + 1 - 1)%nat with (length cs + 0)%nat by lia.
  rewrite lookup_app_r by lia.
  replace (length cs + 0 - length cs)%nat with 0%nat by lia. reflexivity.
Qed.

Lemma insert_last_snoc {A} (cs : list A) (c c' : A) :
  <[(length (cs ++ [c]) - 1)%nat := c']> (cs ++ [c]) = cs ++ [c'].
Proof.
  rewrite length_app. simpl.
  replace (length cs + 1 - 1)%nat with (length cs + 0)%nat by lia.
  rewrite insert_app_r. reflexivity.
Qed.

Lemma splitText_body_nil (m : MultiFace) (text : gostring) (ri : Z) (r : rune) :
  splitText_body m text [] (ri, r) =
  [ {| textStartIndex := 0;
       textEndIndex := 0 + snd (utf8.DecodeRuneInString (drop (Z.to_nat ri) text));
       faceIndex := firstFace m 0 r |} ].
Proof.
  unfold splitText_body.
  destruct (utf8.DecodeRuneInString (drop (Z.to_nat ri) text)); reflexivity.
Qed.

Lemma splitText_body_snoc (m : MultiFace) (text : gostring)
    (cs : list textChunk) (c : textChunk) (ri : Z) (r : rune) :
  splitText_body m text (cs ++ [c]) (ri, r) =
  let l := snd (utf8.DecodeRuneInString (drop (Z.to_nat ri) text)) in
  if faceIndex c =? firstFace m 0 r
  then cs ++ [extendChunk c l]
  else cs ++ [c; {| textStartIndex := textEndIndex c;
                    textEndIndex := textEndIndex c + l;
                    faceIndex := firstFace m 0 r |}].
Proof.
  unfold splitText_body.
  destruct (utf8.DecodeRuneInString (drop (Z.to_nat ri) text)) as [r0 l]. simpl.
  rewrite lookup_last_snoc.
  destruct (faceIndex c =? firstFace m 0 r).
  - rewrite insert_last_snoc. reflexivity.
  - rewrite <- app_assoc. reflexivity.
Qed.

Lemma contiguous_snoc (a b : Z) (cs : list textChunk) (c : textChunk) :
  contiguous a (cs ++ [c]) b <->
  contiguous a cs (textStartIndex c) /\ textStartIndex c < textEndIndex c /\
  textEndIndex c = b.
Proof.
  revert a. induction cs as [|c0 cs IH]; intros a; simpl.
  - split; [intros (-> & ? & ?) | intros (-> & ? & ?)]; auto.
  - rewrite IH. tauto.
Qed.

Lemma splitText_body_contiguous (m : MultiFace) (text : gostring)
    (cs : list textChunk) (ri : Z) (r : rune) :
  contiguous 0 cs ri ->
  1 <= snd (utf8.DecodeRuneInString (drop (Z.to_nat ri) text)) ->
  contiguous 0 (splitText_body m text cs (ri, r))
             (ri + snd (utf8.DecodeRuneInString (drop (Z.to_nat ri) text))).
Proof.
  intros Hc Hl.
  destruct cs as [|c cs' _] using rev_ind.
  - rewrite splitText_body_nil. simpl in *. subst ri. lia.
  - rewrite splitText_body_snoc. cbv zeta.
    apply contiguous_snoc in Hc. destruct Hc as (Hc & Hlt & He).
    destruct (faceIndex c =? firstFace m 0 r).
    + apply contiguous_snoc. simpl. repeat split; [assumption | lia | lia].
    + replace (cs' ++ [c; {| textStartIndex := textEndIndex c;
                             textEndIndex := textEndIndex c +
                               snd (utf8.DecodeRuneInString (drop (Z.to_nat ri) text));
                             faceIndex := firstFace m 0 r |}])
        with ((cs' ++ [c]) ++ [{| textStartIndex := textEndIndex c;
                             textEndIndex := textEndIndex c +
                               snd (utf8.DecodeRuneInString (drop (Z.to_nat ri) text));
                             faceIndex := firstFace m 0 r |}])
        by (rewrite <- app_assoc; reflexivity).
      apply contiguous_snoc. simpl. repeat split; [| lia | lia].
      apply contiguous_snoc. auto.
Qed.

Lemma adjacentDistinct_extend (cs : list textChunk) (c : textChunk) (l : Z) :
  adjacentDistinct (cs ++ [c]) -> adjacentDistinct (cs ++ [extendChunk c l]).
Proof.
  intros Hd i c1 c2 H1 H2.
  assert (Hlt : (S i < length (cs ++ [extendChunk c l]))%nat)
    by (eapply lookup_lt_Some; eassumption).
  rewrite length_app in Hlt. simpl in Hlt.
  rewrite lookup_app_l in H1 by lia.
  destruct (decide (S i < length cs)%nat) as [Hin | Hout].
  - rewrite lookup_app_l in H2 by lia.
    apply (Hd i c1 c2); rewrite lookup_app_l by lia; assumption.
  - assert (S i = length cs) as Hi by lia.
    rewrite lookup_app_r in H2 by lia.
    replace (S i - length cs)%nat with 0%nat in H2 by lia.
    simpl in H2. injection H2 as <-. simpl.
    apply (Hd i c1 c).
    + rewrite lookup_app_l by lia. assumption.
    + rewrite lookup_app_r by lia.
      replace (S i - length cs)%nat with 0%nat by lia. reflexivity.
Qed.

Lemma adjacentDistinct_snoc (cs : list textChunk) (c c' : textChunk) :
  adjacentDistinct (cs ++ [c]) -> faceIndex c <> faceIndex c' ->
  adjacentDistinct (cs ++ [c; c']).
Proof.
  intros Hd Hne i c1 c2 H1 H2.
  assert (Hlt : (S i < length (cs ++ [c; c']))%nat)
    by (eapply lookup_lt_Some; eassumption).
  rewrite length_app in Hlt. simpl in Hlt.
  destruct (decide (S i < length cs + 1)%nat) as [Hin | Hout].
  - apply (Hd i c1 c2).
    + destruct (decide (i < length cs)%nat).
      * rewrite lookup_app_l in H1 by lia. rewrite lookup_app_l by lia. assumption.
      * lia.
    + destruct (decide (S i < length cs)%nat).
      * rewrite lookup_app_l in H2 by lia. rewrite lookup_app_l by lia. assumption.
      * rewrite lookup_app_r in H2 by lia. rewrite lookup_app_r by lia.
        replace (S i - length cs)%nat with 0%nat in * by lia. exact H2.
  - assert (i = length cs) as Hi by lia.
    rewrite lookup_app_r in H1 by lia. rewrite lookup_app_r in H2 by lia.
    replace (i - length cs)%nat with 0%nat in H1 by lia.
    replace (S i - length cs)%nat with 1%nat in H2 by lia.
    simpl in H1, H2. injection H1 as <-. injection H2 as <-. exact Hne.
Qed.

Lemma splitText_body_adjacentDistinct (m : MultiFace) (text : gostring)
    (cs : list textChunk) (rr : Z * rune) :
  adjacentDistinct cs -> adjacentDistinct (splitText_body m text cs rr).
Proof.
  intros Hd. destruct rr as [ri r].
  destruct cs as [|c cs' _] using rev_ind.
  - rewrite splitText_body_nil. intros i c1 c2 H1 H2.
    destruct i; discriminate.
  - rewrite splitText_body_snoc. cbv zeta.
    destruct (faceIndex c =? firstFace m 0 r) eqn:E.
    + apply adjacentDistinct_extend. exact Hd.
    + apply adjacentDistinct_snoc; [exact Hd |]. simpl.
      apply Z.eqb_neq. exact E.
Qed.

End splitText_facts.

Lemma fold_left_inv {A B : Type} (P : A -> Prop) (step : A -> B -> A)
    (l : list B) (a : A) :
  P a -> (forall a b, P a -> P (step a b)) -> P (fold_left step l a).
Proof.
  intros Ha Hstep. revert a Ha.
  induction l as [|b l IH]; intros a Ha; simpl; [exact Ha |].
  apply IH. apply Hstep. exact Ha.
Qed.

Section splitText_theorems.
Context `{Platform}.

Lemma splitText_contiguous (m : MultiFace) (text : gostring) :
  contiguous 0 (splitText m text) (len text).
Proof.
  unfold splitText.
  apply (rangeString_fold_ind text (fun i cs => contiguous 0 cs i)).
  - reflexivity.
  - intros i cs Hb Hi Hc d Hd1 Hd2. subst d.
    apply splitText_body_contiguous; assumption.
Qed.

Lemma contiguous_lower (a b : Z) (cs : list textChunk) :
  contiguous a cs b ->
  a <= b /\
  forall (k : nat) (c : textChunk),
    cs !! k = Some c ->
    a <= textStartIndex c /\ textStartIndex c < textEndIndex c /\ textEndIndex c <= b.
Proof.
  revert a. induction cs as [|c0 cs IH]; intros a; simpl.
  - intros ->. split; [lia | intros k c Hk; destruct k; discriminate].
  - intros (Hs & Hlt & Hc). destruct (IH _ Hc) as [Hle Hall].
    split; [lia |]. intros [|k] c Hk; simpl in Hk.
    + injection Hk as <-. lia.
    + specialize (Hall k c Hk). lia.
Qed.

(** In chunks that lie end to start from [a] to [b], every byte index from
    [a] up to [b] is in one chunk and in no other. *)
Lemma contiguous_unique_cover (a b : Z) (cs : list textChunk) :
  contiguous a cs b ->
  forall j, a <= j < b ->
    exists (k : nat) (c : textChunk),
      cs !! k = Some c /\ textStartIndex c <= j < textEndIndex c /\
      forall (k' : nat) (c' : textChunk),
        cs !! k' = Some c' -> textStartIndex c' <= j < textEndIndex c' -> k' = k.
Proof.
  revert a. induction cs as [|c0 cs IH]; intros a; simpl.
  - intros -> j Hj. lia.
  - intros (Hs & Hlt & Hc) j Hj.
    destruct (contiguous_lower _ _ _ Hc) as [Hle Hlow].
    destruct (decide (j < textEndIndex c0)) as [Hin | Hout].
    + exists 0%nat, c0. split; [reflexivity |]. split; [lia |].
      intros [|k'] c' Hk' Hj'; [reflexivity |]. simpl in Hk'.
      specialize (Hlow k' c' Hk'). lia.
    + destruct (IH _ Hc j) as (k & c & Hk & Hjc & Huniq); [lia |].
      exists (S k), c. split; [exact Hk |]. split; [exact Hjc |].
      intros [|k'] c' Hk' Hj'; simpl in Hk'.
      * injection Hk' as <-. lia.
      * f_equal. apply (Huniq k' c' Hk' Hj').
Qed.

(** C4. For every line, the byte ranges of the chunks of [splitText] are
    contiguous and non-overlapping and cover the line exactly: the first
    chunk starts at 0, every chunk is non-empty and starts where the one
    before it ends, and the last chunk ends at [len(line)]; so every byte
    index of the line is in one chunk and in no other, and every chunk lies
    within the line. Chunks with the sentinel index -1 are chunks like the
    others. *)
Theorem splitText_chunk_coverage (m : MultiFace) (text : gostring) :
  contiguous 0 (splitText m text) (len text) /\
  (forall j, 0 <= j < len text ->
     exists (k : nat) (c : textChunk),
       splitText m text !! k = Some c /\
       textStartIndex c <= j < textEndIndex c /\
       forall (k' : nat) (c' : textChunk),
         splitText m text !! k' = Some c' ->
         textStartIndex c' <= j < textEndIndex c' -> k' = k) /\
  (forall (k : nat) (c : textChunk),
     splitText m text !! k = Some c ->
     0 <= textStartIndex c /\ textStartIndex c < textEndIndex c /\
     textEndIndex c <= len text).
Proof.
  pose proof (splitText_contiguous m text) as Hc.
  split; [exact Hc |]. split.
  - apply (contiguous_unique_cover _ _ _ Hc).
  - apply (contiguous_lower _ _ _ Hc).
Qed.

(** C5. For every line, no two adjacent chunks of [splitText] carry the
    same face index, the sentinel -1 included; and a rune whose first
    available face is the face of the last chunk extends that chunk, so that
    the number of chunks stays the same. *)
Theorem splitText_chunk_maximality (m : MultiFace) (text : gostring) :
  adjacentDistinct (splitText m text) /\
  (forall (cs : list textChunk) (c : textChunk) (ri : Z) (r : rune),
      faceIndex c = firstFace m 0 r ->
      splitText_body m text (cs ++ [c]) (ri, r) =
      cs ++ [extendChunk c (snd (utf8.DecodeRuneInString (drop (Z.to_nat ri) text)))]).
Proof.
  split.
  - unfold splitText. apply fold_left_inv.
    + intros i c1 c2 H1. discriminate.
    + intros cs rr Hd. apply splitText_body_adjacentDistinct. exact Hd.
  - intros cs c ri r Hfi. rewrite splitText_body_snoc. cbv zeta.
    rewrite Hfi, Z.eqb_refl. reflexivity.
Qed.

End splitText_theorems.

(** ** Metrics of a MultiFace *)

Section Metrics_facts.
Context `{PlatformOrder}.

Lemma raise_fold_upper (vs : list float64) (a : float64) :
  let r := fold_left (fun acc v => raise v acc) vs a in
  f64_gt a r = false /\ (forall v, In v vs -> f64_gt v r = false).
Proof.
  revert a. induction vs as [|v vs IH]; intros a; simpl.
  - split; [apply f64_gt_irrefl | tauto].
  - destruct (IH (raise v a)) as [Ha' Hvs]. unfold raise in *.
    set (r := fold_left (fun acc v0 => if f64_gt v0 acc then v0 else acc) vs
                        (if f64_gt v a then v else a)) in *.
    destruct (f64_gt v a) eqn:Eva.
    + split.
      * destruct (f64_gt a r) eqn:Ear; [| reflexivity].
        rewrite (f64_gt_trans v a r Eva Ear) in Ha'. discriminate.
      * intros v' [<- | Hin]; [exact Ha' | apply Hvs; exact Hin].
    + split; [exact Ha' |].
      intros v' [<- | Hin]; [| apply Hvs; exact Hin].
      destruct (f64_gt v r) eqn:Evr; [| reflexivity].
      destruct (f64_gt_cotrans v r a Evr) as [E | E]; congruence.
Qed.

Lemma raise_fold_mem (vs : list float64) (a : float64) :
  let r := fold_left (fun acc v => raise v acc) vs a in
  r = a \/ In r vs.
Proof.
  revert a. induction vs as [|v vs IH]; intros a; simpl; [left; reflexivity |].
  destruct (IH (raise v a)) as [E | Hin]; [| right; right; exact Hin].
  rewrite E. unfold raise. destruct (f64_gt v a); [right; left | left]; reflexivity.
Qed.

Lemma raise_fold_isMaxOf (vs : list float64) :
  vs <> [] ->
  (forall v, In v vs -> f64_gt f64_zero v = false) ->
  isMaxOf vs (fold_left (fun acc v => raise v acc) vs f64_zero).
Proof.
  intros Hne Hnn. split.
  - apply (raise_fold_upper vs f64_zero).
  - destruct (raise_fold_mem vs f64_zero) as [E | Hin].
    + rewrite E. destruct vs as [|v vs]; [congruence |].
      exists v. split; [left; reflexivity | apply Hnn; left; reflexivity].
    + eexists. split; [exact Hin | apply f64_gt_irrefl].
Qed.

(** Field by field, the loop of [Metrics] folds [raise] over the values of
    the field. *)
Lemma MultiFace_Metrics_loop (m : MultiFace) (mts : list Metrics) (mt0 : Metrics) :
  Forall2 (fun f mt => Face_Metrics f = Ok mt) m mts ->
  exists mt,
    Res_foldl MultiFace_Metrics_body m mt0 = Ok mt /\
    forall fld,
      getField fld mt =
      fold_left (fun acc v => raise v acc) (map (getField fld) mts) (getField fld mt0).
Proof.
  intros Hall. revert mt0.
  induction Hall as [|f mt1 m mts Hf Hall IH]; intros mt0; simpl.
  - exists mt0. split; [reflexivity | intros fld; reflexivity].
  - unfold MultiFace_Metrics_body at 1. rewrite Hf. simpl.
    match goal with
    | |- context [Res_foldl _ m ?x] => destruct (IH x) as (mt & Hmt & Hfld)
    end.
    exists mt. split; [exact Hmt |].
    intros fld. rewrite Hfld. destruct fld; reflexivity.
Qed.

End Metrics_facts.

(** ** Advance of a MultiFace *)

Section advance_facts.
Context `{Platform}.

Lemma firstFace_found (m : MultiFace) (i : Z) (r : rune) :
  0 <= i ->
  firstFace m i r = -1 \/
  exists (k : nat) (f : Face),
    firstFace m i r = i + Z.of_nat k /\ m !! k = Some f /\ hasGlyph f r = true.
Proof.
  revert i. induction m as [|f m IH]; intros i Hi; simpl; [left; reflexivity |].
  destruct (hasGlyph f r) eqn:E; simpl.
  - right. exists 0%nat, f. repeat split; [lia | assumption].
  - destruct (IH (i + 1)) as [E1 | (k & f' & E1 & Hk & Hg)]; [lia | left; exact E1 |].
    right. exists (S k), f'. repeat split; [lia | exact Hk | exact Hg].
Qed.

Lemma index_firstFace (m : MultiFace) (r : rune) :
  firstFace m 0 r = -1 \/ exists f, index m (firstFace m 0 r) = Ok f.
Proof.
  destruct (firstFace_found m 0 r) as [E | (k & f & E & Hk & _)]; [lia | left; exact E |].
  right. exists f. unfold index. rewrite E, Z.add_0_l.
  destruct (0 <=? Z.of_nat k) eqn:E0; [| apply Z.leb_gt in E0; lia].
  rewrite Nat2Z.id, Hk. reflexivity.
Qed.

Lemma splitText_faceIndexOk (m : MultiFace) (text : gostring) :
  Forall (faceIndexOk m) (splitText m text).
Proof.
  unfold splitText. apply fold_left_inv; [constructor |].
  intros cs [ri r] Hcs.
  destruct cs as [|c cs' _] using rev_ind.
  - rewrite splitText_body_nil. apply Forall_singleton.
    unfold faceIndexOk. simpl. apply index_firstFace.
  - rewrite splitText_body_snoc. cbv zeta.
    apply Forall_app in Hcs. destruct Hcs as [Hcs' Hc].
    rewrite Forall_singleton in Hc.
    destruct (faceIndex c =? firstFace m 0 r).
    + apply Forall_app. split; [exact Hcs' |].
      apply Forall_singleton. exact Hc.
    + apply Forall_app. split; [exact Hcs' |].
      apply Forall_cons. split; [exact Hc |].
      apply Forall_singleton. unfold faceIndexOk. simpl. apply index_firstFace.
Qed.

Lemma contiguous_bounds (a b : Z) (cs : list textChunk) :
  contiguous a cs b ->
  a <= b /\
  Forall (fun c => a <= textStartIndex c /\ textStartIndex c < textEndIndex c /\
                   textEndIndex c <= b) cs.
Proof.
  revert a. induction cs as [|c cs IH]; intros a; simpl.
  - intros ->. split; [lia | constructor].
  - intros (Hs & Hlt & Hc). destruct (IH _ Hc) as [Hle Hall].
    split; [lia |]. constructor; [lia |].
    eapply Forall_impl; [exact Hall |]. simpl. intros c' ?. lia.
Qed.

Lemma splitText_chunkText (m : MultiFace) (text : gostring) :
  Forall (fun c => exists t, chunkText text c = Ok t /\
                             len t = textEndIndex c - textStartIndex c)
         (splitText m text).
Proof.
  destruct (contiguous_bounds _ _ _ (splitText_contiguous m text)) as [_ Hall].
  eapply Forall_impl; [exact Hall |]. simpl.
  intros c (H0 & Hlt & Hle). unfold chunkText, slice.
  destruct (0 <=? textStartIndex c) eqn:E1; [| apply Z.leb_gt in E1; lia].
  destruct (textStartIndex c <=? textEndIndex c) eqn:E2; [| apply Z.leb_gt in E2; lia].
  destruct (textEndIndex c <=? len text) eqn:E3; [| apply Z.leb_gt in E3; lia].
  simpl. eexists. split; [reflexivity |].
  unfold len in *. rewrite length_take, length_drop. lia.
Qed.

End advance_facts.

Section advance_theorems.
Context `{Platform}.

Lemma MultiFace_advance_loop (m : MultiFace) (text : gostring) (cs : list textChunk) :
  Forall (faceIndexOk m) cs ->
  Forall (fun c => exists t, chunkText text c = Ok t /\
                             len t = textEndIndex c - textStartIndex c) cs ->
  exists parts,
    Forall2 (chunkPart m text) (filter isSourced cs) parts /\
    forall a,
      Res_foldl (MultiFace_advance_body m text) cs a =
      Res_foldl (fun a ft => x ← advance (fst ft) (snd ft); Ok (f64_add a x)) parts a.
Proof.
  induction cs as [|c cs IH]; intros Hfi Hct.
  - exists []. split; [constructor | reflexivity].
  - apply Forall_cons in Hfi. destruct Hfi as [Hc Hfi].
    apply Forall_cons in Hct. destruct Hct as [(t & Ht & _) Hct].
    destruct (IH Hfi Hct) as (parts & Hparts & Hloop).
    rewrite filter_cons.
    destruct (decide (isSourced c)) as [Hs | Hs].
    + destruct Hc as [E | (f & Hf)]; [contradiction |].
      exists ((f, t) :: parts). split.
      * constructor; [split; assumption | exact Hparts].
      * intros a. simpl. unfold MultiFace_advance_body at 1.
        destruct (faceIndex c =? -1) eqn:E; [apply Z.eqb_eq in E; contradiction |].
        rewrite Hf, Ht. simpl.
        destruct (advance f t) as [x | msg]; simpl; [apply Hloop | reflexivity].
    + exists parts. split; [exact Hparts |].
      intros a. simpl. unfold MultiFace_advance_body at 1.
      destruct (faceIndex c =? -1) eqn:E.
      * simpl. apply Hloop.
      * apply Z.eqb_neq in E. contradiction.
Qed.

(** C7. For every text, [MultiFace.advance] is the sum, in chunk order and
    from zero, of the advances that the chunks' faces report for the chunks'
    substrings, over the chunks that name a face: every such chunk has its
    face in the list and its substring in the text, and a chunk with the
    sentinel index -1 adds nothing. *)
Theorem MultiFace_advance_additive (m : MultiFace) (text : gostring) :
  exists parts : list (Face * gostring),
    Forall2 (chunkPart m text) (filter isSourced (splitText m text)) parts /\
    MultiFace_advance m text = sumAdvances parts.
Proof.
  destruct (MultiFace_advance_loop m text (splitText m text)
              (splitText_faceIndexOk m text) (splitText_chunkText m text))
    as (parts & Hparts & Hloop).
  exists parts. split; [exact Hparts |].
  unfold MultiFace_advance, sumAdvances. apply Hloop.
Qed.

End advance_theorems.

Section Metrics_theorems.
Context `{PlatformOrder}.

(** C6. For every list of faces whose [Metrics] return, [MultiFace.Metrics]
    returns, for each of the six fields independently, a value that no face
    exceeds and that is zero or the value of a face; when the metrics of the
    faces are non-negative numbers, this is the maximum of the field over the
    faces. For the empty list it returns the all-zero metrics, and
    [MultiFace.direction] returns left-to-right. *)
Theorem MultiFace_Metrics_max (m : MultiFace) (mts : list Metrics) :
  (Forall2 (fun f mt => Face_Metrics f = Ok mt) m mts ->
   exists mt,
     MultiFace_Metrics m = Ok mt /\
     forall fld,
       let vs := map (getField fld) mts in
       let r := getField fld mt in
       (forall v, In v vs -> f64_gt v r = false) /\
       (r = f64_zero \/ In r vs) /\
       (m <> [] -> Forall nonNegative mts -> isMaxOf vs r)) /\
  MultiFace_Metrics [] = Ok zeroMetrics /\
  MultiFace_direction [] = DirectionLeftToRight.
Proof.
  split; [| split; reflexivity].
  intros Hall.
  destruct (MultiFace_Metrics_loop m mts zeroMetrics Hall) as (mt & Hmt & Hfld).
  exists mt. split; [exact Hmt |].
  intros fld. cbv zeta. rewrite Hfld.
  replace (getField fld zeroMetrics) with f64_zero by (destruct fld; reflexivity).
  split; [apply (raise_fold_upper (map (getField fld) mts) f64_zero) |].
  split; [apply (raise_fold_mem (map (getField fld) mts) f64_zero) |].
  intros Hne Hnn. apply raise_fold_isMaxOf.
  - destruct Hall; [congruence | discriminate].
  - intros v Hin. apply in_map_iff in Hin. destruct Hin as (mt1 & <- & Hin).
    rewrite Forall_forall in Hnn. apply Hnn. apply list_elem_of_In. exact Hin.
Qed.

End Metrics_theorems.

(** ** The glyphs of a StdFace *)

Section StdFace_facts.
Context `{Platform} `{Granularity}.

Lemma cacheSound_empty (s : StdFace) : cacheSound s ∅.
Proof. intros key img Hk. rewrite lookup_empty in Hk. discriminate. Qed.

Lemma cacheOf_insert (st : Store) (l : loc) (cache : glyphImageCache) :
  cacheOf (<[l := cache]> st) l = cache.
Proof. unfold cacheOf. rewrite lookup_insert_eq. reflexivity. Qed.

Lemma glyphImageImpl_degenerate (s : StdFace) (r : rune)
    (sub : fixed.Point26_6) (b : fixed.Rectangle26_6) :
  degenerate b -> glyphImageImpl s r sub b = Ok None.
Proof.
  intros [E | E]; unfold glyphImageImpl, fixed.sub; rewrite E, Z.sub_diag.
  - reflexivity.
  - change (fixed.Ceil (fixed.wrap32 0)) with 0. rewrite orb_true_r. reflexivity.
Qed.

Lemma wrap32_small (z : Z) : - 2 ^ 31 <= z < 2 ^ 31 -> fixed.wrap32 z = z.
Proof.
  intros Hz. unfold fixed.wrap32. rewrite Z.mod_small by lia. lia.
Qed.

(** The ceiling of a width that the fixed-point type holds with room for
    the rounding up. *)
Lemma Ceil_sub (x y : Z) :
  - 2 ^ 31 <= x - y <= 2 ^ 31 - 64 ->
  fixed.Ceil (fixed.sub x y) = (x - y + 63) / 64.
Proof.
  intros Hw. unfold fixed.Ceil, fixed.sub, fixed.add.
  rewrite (wrap32_small (x - y)) by lia.
  rewrite wrap32_small by lia.
  rewrite Z.shiftr_div_pow2 by lia. reflexivity.
Qed.

(** [ebiten.NewImageFromImage] on the buffer of [glyphImageImpl] panics
    exactly when the width or the height, after the increment, is zero. *)
Lemma NewImageFromImage_Rect (w h : Z) (dot : fixed.Point26_6) (r : rune) :
  (w <> 0 -> h <> 0 ->
   ebiten_NewImageFromImage (image_Rect 0 0 w h) dot r =
     Ok {| img_bounds := image_Rect 0 0 w h; img_dot := dot; img_rune := r |}) /\
  (w = 0 \/ h = 0 ->
   exists msg, ebiten_NewImageFromImage (image_Rect 0 0 w h) dot r = Panic msg).
Proof.
  unfold ebiten_NewImageFromImage, image_Rect, Dx, Dy. simpl. split.
  - intros Hw Hh.
    destruct (Z.leb_spec (Z.max 0 w - Z.min 0 w) 0); [lia |].
    destruct (Z.leb_spec (Z.max 0 h - Z.min 0 h) 0); [lia |]. reflexivity.
  - intros Hz.
    destruct (Z.leb_spec (Z.max 0 w - Z.min 0 w) 0); [eexists; reflexivity |].
    destruct (Z.leb_spec (Z.max 0 h - Z.min 0 h) 0); [eexists; reflexivity | lia].
Qed.

(** On well-formed ink bounds [glyphImageImpl] returns. *)
Lemma wellFormed_returns (s : StdFace) (r : rune)
    (sub : fixed.Point26_6) (b : fixed.Rectangle26_6) :
  wellFormed b -> exists img, glyphImageImpl s r sub b = Ok img.
Proof.
  intros [Hw Hh]. unfold glyphImageImpl. cbv zeta.
  rewrite !Ceil_sub by lia.
  destruct (_ || _); [eexists; reflexivity |].
  assert (Hcw : 0 <= (fixed.X (fixed.Max b) - fixed.X (fixed.Min b) + 63) / 64)
    by (apply Z.div_pos; lia).
  assert (Hch : 0 <= (fixed.Y (fixed.Max b) - fixed.Y (fixed.Min b) + 63) / 64)
    by (apply Z.div_pos; lia).
  cbv [mbind Res_mbind].
  rewrite (proj1 (NewImageFromImage_Rect _ _ _ _)) by lia.
  eexists. reflexivity.
Qed.

Lemma wellFormed_drawable (s : StdFace) (r : rune) :
  wellFormed (boundsOf s r) -> drawable s r.
Proof. intros Hwf sub. apply wellFormed_returns. exact Hwf. Qed.

(** Whether [glyphImageImpl] returns does not depend on the sub-pixel
    offset. *)
Lemma drawable_at (s : StdFace) (r : rune) (sub : fixed.Point26_6) (img : option ebiten_Image) :
  glyphImageImpl s r sub (boundsOf s r) = Ok img -> drawable s r.
Proof.
  intros Himg sub'. unfold glyphImageImpl in *. cbv zeta in *.
  destruct (_ || _); [eexists; reflexivity |].
  cbv [mbind Res_mbind] in *.
  unfold ebiten_NewImageFromImage in *.
  destruct (Dx _ <=? 0); [discriminate |].
  destruct (Dy _ <=? 0); [discriminate |].
  eexists. reflexivity.
Qed.

Lemma getOrCreate_lookup (cache : glyphImageCache) (key : stdFaceGlyphImageCacheKey)
    (create : unit -> Res (option ebiten_Image)) (img : option ebiten_Image) :
  (getOrCreate cache key create).1 = Ok img ->
  (getOrCreate cache key create).2 !! key = Some img.
Proof.
  unfold getOrCreate. destruct (cache !! key) as [img0 |] eqn:E; simpl.
  - intros [= <-]. exact E.
  - destruct (create tt) as [img0 | msg]; simpl; [| discriminate].
    intros [= <-]. apply lookup_insert_eq.
Qed.

(** A second request for a key returns the image of the first and leaves
    the cache as it is, whatever creation function it brings. *)
Lemma getOrCreate_again (cache : glyphImageCache) (key : stdFaceGlyphImageCacheKey)
    (create create' : unit -> Res (option ebiten_Image)) (img : option ebiten_Image) :
  let first := getOrCreate cache key create in
  first.1 = Ok img ->
  getOrCreate first.2 key create' = (Ok img, first.2).
Proof.
  cbv zeta. intros Himg. unfold getOrCreate at 1.
  rewrite (getOrCreate_lookup _ _ _ _ Himg). reflexivity.
Qed.

(** A request returns when the key is cached or the creation function
    returns; it panics when the key is not cached and the creation function
    panics, and then the cache is as it was. *)
Lemma getOrCreate_returns (cache : glyphImageCache) (key : stdFaceGlyphImageCacheKey)
    (create : unit -> Res (option ebiten_Image)) :
  is_Some (cache !! key) \/ (exists img, create tt = Ok img) ->
  exists img, (getOrCreate cache key create).1 = Ok img.
Proof.
  unfold getOrCreate. intros [[img E] | [img E]].
  - rewrite E. exists img. reflexivity.
  - destruct (cache !! key) as [img0 |]; [exists img0; reflexivity |].
    rewrite E. exists img. reflexivity.
Qed.

Lemma getOrCreate_panics (cache : glyphImageCache) (key : stdFaceGlyphImageCacheKey)
    (create : unit -> Res (option ebiten_Image)) (msg : string) :
  cache !! key = None -> create tt = Panic msg ->
  getOrCreate cache key create = (Panic msg, cache).
Proof. intros E Hc. unfold getOrCreate. rewrite E, Hc. reflexivity. Qed.

Lemma getOrCreate_sound (s : StdFace) (cache : glyphImageCache) (r : rune)
    (xoffset : Z) (sub : fixed.Point26_6) :
  cacheSound s cache ->
  let res := getOrCreate cache {| key_rune := r; key_xoffset := xoffset |}
                         (fun _ => glyphImageImpl s r sub (boundsOf s r)) in
  cacheSound s res.2 /\
  forall img, res.1 = Ok img ->
              exists sub', glyphImageImpl s r sub' (boundsOf s r) = Ok img.
Proof.
  intros Hs. unfold getOrCreate.
  destruct (cache !! _) as [img0 |] eqn:E; simpl.
  - split; [exact Hs |]. intros img [= <-]. apply (Hs _ _ E).
  - destruct (glyphImageImpl s r sub (boundsOf s r)) as [img0 | msg] eqn:Ei; simpl.
    + split; [| intros img [= <-]; exists sub; exact Ei].
      intros key img Hk.
      destruct (decide (key = {| key_rune := r; key_xoffset := xoffset |}))
        as [-> | Hne].
      * rewrite lookup_insert_eq in Hk. injection Hk as <-. exists sub. exact Ei.
      * rewrite lookup_insert_ne in Hk by congruence. apply (Hs _ _ Hk).
    + split; [exact Hs | discriminate].
Qed.

Lemma glyphImage_unfold (s : StdFace) (r : rune) (origin : fixed.Point26_6)
    (st : Store) :
  glyphImage s r origin st =
  let q := quantize s origin in
  let b := boundsOf s r in
  let ic := getOrCreate (cacheOf st (self s)) (glyphKey s r origin)
                        (fun _ => glyphImageImpl s r (subpixelOffsetOf q b) b) in
  match ic.1 with
  | Ok img =>
      (Ok (img,
           fixed.Floor (fixed.add (fixed.X q) (fixed.X (fixed.Min b))),
           fixed.Floor (fixed.add (fixed.Y q) (fixed.Y (fixed.Min b))),
           advanceOf s r),
       <[self s := ic.2]> st)
  | Panic msg => (Panic msg, st)
  end.
Proof.
  unfold glyphImage, glyphKey, boundsOf, advanceOf.
  destruct (GlyphBounds (f s) r) as [[b a] ok]. simpl.
  destruct (getOrCreate _ _ _) as [[img | msg] cache]; reflexivity.
Qed.

(** One iteration of the loop of [appendGlyphsForLine]: what it returns
    when [glyphImage] returns, and the panic that it passes on. *)
Lemma appendGlyphsForLine_body_unfold (s : StdFace) (line : gostring)
    (indexOffset : Z) (ll : lineLoop) (i : Z) (r : rune) (st : Store) :
  appendGlyphsForLine_body s line indexOffset ll (i, r) st =
  let origin := kerned s ll r in
  let b := boundsOf s r in
  let ic := getOrCreate (cacheOf st (self s)) (glyphKey s r origin)
              (fun _ => glyphImageImpl s r (subpixelOffsetOf (quantize s origin) b) b) in
  match ic.1 with
  | Ok img =>
      (Ok {| ll_glyphs :=
               match img with
               | Some _ => ll_glyphs ll ++ [glyphAt s line indexOffset i r origin img]
               | None => ll_glyphs ll
               end;
             ll_origin := {| fixed.X := fixed.add (fixed.X origin) (advanceOf s r);
                             fixed.Y := fixed.Y origin |};
             ll_prevR := r |},
       <[self s := ic.2]> st)
  | Panic msg => (Panic msg, st)
  end.
Proof.
  unfold appendGlyphsForLine_body.
  change (mbind ?k ?x) with (M_bind x k). unfold M_bind.
  rewrite glyphImage_unfold. cbv zeta.
  destruct (getOrCreate _ _ _) as [[img | msg] cache]; simpl; [| reflexivity].
  unfold glyphAt.
  destruct (utf8.DecodeRuneInString (drop (Z.to_nat i) line)) as [r0 size].
  destruct img; reflexivity.
Qed.

(** An iteration for a rune whose image can be made returns. *)
Lemma appendGlyphsForLine_body_returns (s : StdFace) (line : gostring)
    (indexOffset : Z) (ll : lineLoop) (i : Z) (r : rune) (st : Store) :
  drawable s r ->
  let origin := kerned s ll r in
  let b := boundsOf s r in
  let ic := getOrCreate (cacheOf st (self s)) (glyphKey s r origin)
              (fun _ => glyphImageImpl s r (subpixelOffsetOf (quantize s origin) b) b) in
  exists img,
    ic.1 = Ok img /\
    appendGlyphsForLine_body s line indexOffset ll (i, r) st =
    (Ok {| ll_glyphs :=
             match img with
             | Some _ => ll_glyphs ll ++ [glyphAt s line indexOffset i r origin img]
             | None => ll_glyphs ll
             end;
           ll_origin := {| fixed.X := fixed.add (fixed.X origin) (advanceOf s r);
                           fixed.Y := fixed.Y origin |};
           ll_prevR := r |},
     <[self s := ic.2]> st).
Proof.
  intros Hd origin b ic.
  destruct (getOrCreate_returns (cacheOf st (self s)) (glyphKey s r origin)
              (fun _ => glyphImageImpl s r (subpixelOffsetOf (quantize s origin) b) b))
    as [img Himg].
  { right. apply Hd. }
  exists img. split; [exact Himg |].
  rewrite appendGlyphsForLine_body_unfold. cbv zeta.
  fold origin b. rewrite Himg. reflexivity.
Qed.

End StdFace_facts.

Section StdFace_theorems.
Context `{Platform} `{Granularity}.

Lemma wrap32_idem (z : Z) : fixed.wrap32 (fixed.wrap32 z) = fixed.wrap32 z.
Proof.
  unfold fixed.wrap32.
  replace ((z + 2 ^ 31) mod 2 ^ 32 - 2 ^ 31 + 2 ^ 31) with ((z + 2 ^ 31) mod 2 ^ 32) by lia.
  rewrite Z.mod_mod by lia. reflexivity.
Qed.

Lemma Floor_frac (x y : Z) :
  let p := fixed.add x y in
  64 * fixed.Floor p + Z.land p 63 = p.
Proof.
  cbv zeta. unfold fixed.Floor.
  assert (E : fixed.add (fixed.add x y) 0 = fixed.add x y).
  { unfold fixed.add. rewrite Z.add_0_r. apply wrap32_idem. }
  rewrite E. change 63 with (Z.ones 6).
  rewrite Z.land_ones by lia. rewrite Z.shiftr_div_pow2 by lia.
  change (2 ^ 6) with 64.
  pose proof (Z.div_mod (fixed.add x y) 64). lia.
Qed.

(** [NewStdFace] returns a face that passes [copyCheck], at an address that
    was not in use, with an empty cache. *)
Lemma NewStdFace_fresh (face : font_Face) (st : Store) :
  exists s,
    NewStdFace face st = (Ok s, <[self s := ∅]> st) /\
    st !! self s = None /\
    copyCheck s = Ok tt /\
    f s = face /\
    cacheSound s (cacheOf (<[self s := ∅]> st) (self s)).
Proof.
  unfold NewStdFace.
  exists {| self := fresh (dom st); f := face; addr := fresh (dom st) |}.
  split; [reflexivity |]. simpl.
  split; [apply not_elem_of_dom, is_fresh |].
  split; [unfold copyCheck; simpl; destruct (decide _); [reflexivity | contradiction] |].
  split; [reflexivity |].
  rewrite cacheOf_insert. apply cacheSound_empty.
Qed.

(** The glyphs of a whole line. On a face that was not copied and whose
    font has only runes whose image can be made, with a cache that holds
    only images made by [glyphImageImpl], [appendGlyphsForLine] returns the
    glyphs it was given followed by glyphs of runes of the line, each with
    the byte range of its rune moved by [indexOffset], none for a rune with
    degenerate ink bounds; the cache stays as required. *)
Lemma StdFace_appendGlyphsForLine_glyphs (s : StdFace) (glyphs : list Glyph)
    (line : gostring) (indexOffset : Z) (originX originY : float64) (st : Store) :
  addr s = self s ->
  (forall r, drawable s r) ->
  cacheSound s (cacheOf st (self s)) ->
  exists new st',
    StdFace_appendGlyphsForLine s glyphs line indexOffset originX originY st
      = (Ok (glyphs ++ new), st') /\
    cacheSound s (cacheOf st' (self s)) /\
    (forall l, l <> self s -> st' !! l = st !! l) /\
    Forall (glyphOfRune s line indexOffset) new.
Proof.
  intros Haddr Hdraw Hsound.
  unfold StdFace_appendGlyphsForLine.
  change (mbind ?k ?x) with (M_bind x k). unfold M_bind at 1. unfold M_lift, copyCheck.
  destruct (decide (addr s = self s)) as [_ | Hne]; [| contradiction].
  set (ll0 := {| ll_glyphs := glyphs;
                 ll_origin := {| fixed.X := float64ToFixed26_6 originX;
                                 fixed.Y := float64ToFixed26_6 originY |};
                 ll_prevR := -1 |}).
  destruct (rangeString_M_foldl_ind line
              (fun (i : Z) (ll : lineLoop) (st' : Store) =>
                 cacheSound s (cacheOf st' (self s)) /\
                 (forall l, l <> self s -> st' !! l = st !! l) /\
                 exists new, ll_glyphs ll = glyphs ++ new /\
                             Forall (glyphOfRune s line indexOffset) new)
              (appendGlyphsForLine_body s line indexOffset) ll0 st)
    as (ll' & st' & Hloop & Hs' & Hframe & new & Hnew & Hall).
  - split; [exact Hsound |]. split; [reflexivity |].
    exists []. split; [simpl; rewrite app_nil_r; reflexivity | constructor].
  - intros i ll st1 Hb Hi (Hs1 & Hf1 & new & Hnew & Hall) d Hd1 Hd2.
    set (r := fst d).
    set (origin := kerned s ll r).
    destruct (appendGlyphsForLine_body_returns s line indexOffset ll i r st1 (Hdraw r))
      as (oimg & Eimg & ->).
    destruct (getOrCreate_sound s (cacheOf st1 (self s)) r
                (key_xoffset (glyphKey s r origin))
                (subpixelOffsetOf (quantize s origin) (boundsOf s r)) Hs1)
      as [Hs2 Himg].
    change {| key_rune := r; key_xoffset := key_xoffset (glyphKey s r origin) |}
      with (glyphKey s r origin) in Hs2, Himg.
    destruct (Himg oimg Eimg) as (sub' & Hsub').
    eexists. eexists. split; [reflexivity |].
    split; [rewrite cacheOf_insert; exact Hs2 |].
    split; [intros l Hl; rewrite lookup_insert_ne by congruence; apply Hf1; exact Hl |].
    simpl.
    destruct oimg as [img |].
    + exists (new ++ [glyphAt s line indexOffset i r origin (Some img)]).
      split; [rewrite Hnew, app_assoc; reflexivity |].
      apply Forall_app. split; [exact Hall |]. apply Forall_singleton.
      exists i. cbv zeta. fold d.
      repeat split; try assumption; try lia; try reflexivity.
      * simpl. eauto.
      * intros Hdeg. fold r in Hdeg.
        rewrite (glyphImageImpl_degenerate s r sub' _ Hdeg) in Hsub'. discriminate.
    + exists new. split; [exact Hnew | exact Hall].
  - exists new, st'.
    change (mbind ?k ?x) with (M_bind x k). unfold M_bind. rewrite Hloop. simpl.
    rewrite Hnew. repeat split; assumption.
Qed.

(** C2 (amended). For every rune and origin, [glyphImage] computes the draw
    coordinates floor(q + ink-bounds-minimum) in each axis, where q is the
    quantized origin: its x is [adjustGranularity] of the origin's x, its y
    is the origin's y with the six fractional bits cleared. The cache key is
    made from the same q, so that the coordinate and the sub-pixel offset of
    the key together are q + ink-bounds-minimum. [glyphImage] returns these
    coordinates with the image, which is then in the cache under the key,
    whenever the image is cached or [glyphImageImpl] makes it; in the one
    other case, a key that is not cached and a panic of [glyphImageImpl],
    it passes the panic on and leaves the store as it was. *)
Theorem glyphImage_quantized_coordinates (s : StdFace) (r : rune)
    (origin : fixed.Point26_6) (st : Store) :
  let q := quantize s origin in
  let b := boundsOf s r in
  let px := fixed.add (fixed.X q) (fixed.X (fixed.Min b)) in
  let py := fixed.add (fixed.Y q) (fixed.Y (fixed.Min b)) in
  let key := {| key_rune := r; key_xoffset := Z.land px 63 |} in
  let made := glyphImageImpl s r (subpixelOffsetOf q b) b in
  fixed.X q = adjustGranularity (fixed.X origin) s /\
  fixed.Y q = Z.ldiff (fixed.Y origin) 63 /\
  64 * fixed.Floor px + Z.land px 63 = px /\
  64 * fixed.Floor py + Z.land py 63 = py /\
  (forall img,
      cacheOf st (self s) !! key = Some img \/
      (cacheOf st (self s) !! key = None /\ made = Ok img) ->
      exists st',
        glyphImage s r origin st =
          (Ok (img, fixed.Floor px, fixed.Floor py, advanceOf s r), st') /\
        cacheOf st' (self s) !! key = Some img) /\
  (forall msg,
      cacheOf st (self s) !! key = None -> made = Panic msg ->
      glyphImage s r origin st = (Panic msg, st)).
Proof.
  cbv zeta. split; [reflexivity |]. split; [reflexivity |].
  split; [apply Floor_frac |]. split; [apply Floor_frac |].
  rewrite glyphImage_unfold. cbv zeta.
  change {| key_rune := r;
            key_xoffset := Z.land (fixed.add (fixed.X (quantize s origin))
                                             (fixed.X (fixed.Min (boundsOf s r)))) 63 |}
    with (glyphKey s r origin).
  split.
  - intros img Hcase.
    assert (Himg : (getOrCreate (cacheOf st (self s)) (glyphKey s r origin)
                      (fun _ => glyphImageImpl s r
                                  (subpixelOffsetOf (quantize s origin) (boundsOf s r))
                                  (boundsOf s r))).1 = Ok img).
    { unfold getOrCreate. destruct Hcase as [E | [E Hm]]; rewrite E; [reflexivity |].
      rewrite Hm. reflexivity. }
    rewrite Himg. eexists. split; [reflexivity |].
    rewrite cacheOf_insert. apply getOrCreate_lookup. exact Himg.
  - intros msg E Hm.
    rewrite (getOrCreate_panics _ _ _ msg E Hm). reflexivity.
Qed.

(** [UnsafeInternal] is guarded like [Metrics]. *)
Lemma UnsafeInternal_guard (s : StdFace) :
  addr s <> self s ->
  UnsafeInternal s = Panic "text: illegal use of non-zero StdFace copied by value".
Proof.
  intros Hcopy. unfold UnsafeInternal, copyCheck.
  destruct (decide (addr s = self s)); [contradiction | reflexivity].
Qed.

(** C3 (amended). On a StdFace that was copied by value (its [addr] is not
    its own address), [Metrics] and [appendGlyphsForLine] raise the fatal
    error before any other effect: the store is left as it was.
    [appendVectorPathForLine] and [direction] make no identity check: they
    return normally, the path unchanged and left-to-right. *)
Theorem StdFace_copyCheck_guard (s : StdFace) :
  addr s <> self s ->
  let msg := "text: illegal use of non-zero StdFace copied by value"%string in
  StdFace_Metrics s = Panic msg /\
  (forall glyphs line indexOffset originX originY st,
      StdFace_appendGlyphsForLine s glyphs line indexOffset originX originY st
      = (Panic msg, st)) /\
  (forall path line originX originY,
      StdFace_appendVectorPathForLine s path line originX originY = Ok path) /\
  StdFace_direction s = DirectionLeftToRight.
Proof.
  intros Hcopy msg.
  assert (Hc : copyCheck s = Panic msg).
  { unfold copyCheck. destruct (decide (addr s = self s)); [contradiction | reflexivity]. }
  repeat split.
  - unfold StdFace_Metrics. rewrite Hc. reflexivity.
  - intros glyphs line indexOffset originX originY st.
    unfold StdFace_appendGlyphsForLine.
    change (mbind ?k ?x) with (M_bind x k). unfold M_bind, M_lift.
    rewrite Hc. reflexivity.
Qed.

(** C8. For every rune whose ink bounds have zero width or zero height, in
    a cache that holds only images made by [glyphImageImpl]: the image is
    nil for every sub-pixel offset, the iteration of [appendGlyphsForLine]
    returns, records the nil image in the cache under the rune's key,
    appends no glyph, and moves the origin on by the advance of the rune in
    x. Every iteration in which [glyphImage] returns, for a rune with or
    without an image, moves the origin in this same way; [glyphImage]
    returns when the image is cached or [glyphImageImpl] makes it, and the
    iteration passes the panic on otherwise. *)
Theorem degenerate_rune_no_glyph (s : StdFace) (line : gostring)
    (indexOffset : Z) (ll : lineLoop) (i : Z) (r : rune) (st : Store) :
  cacheSound s (cacheOf st (self s)) ->
  degenerate (boundsOf s r) ->
  (forall sub, glyphImageImpl s r sub (boundsOf s r) = Ok None) /\
  (exists ll' st',
      appendGlyphsForLine_body s line indexOffset ll (i, r) st = (Ok ll', st') /\
      cacheOf st' (self s) !! glyphKey s r (kerned s ll r) = Some None /\
      ll_glyphs ll' = ll_glyphs ll /\
      ll_origin ll' =
        {| fixed.X := fixed.add (fixed.X (kerned s ll r)) (advanceOf s r);
           fixed.Y := fixed.Y (kerned s ll r) |}) /\
  (forall ll2 i2 r2 st2,
      let origin2 := kerned s ll2 r2 in
      let made2 := glyphImageImpl s r2 (subpixelOffsetOf (quantize s origin2) (boundsOf s r2))
                                  (boundsOf s r2) in
      (is_Some (cacheOf st2 (self s) !! glyphKey s r2 origin2) \/
       (exists img, made2 = Ok img) ->
       exists ll' st',
         appendGlyphsForLine_body s line indexOffset ll2 (i2, r2) st2 = (Ok ll', st') /\
         ll_origin ll' =
           {| fixed.X := fixed.add (fixed.X origin2) (advanceOf s r2);
              fixed.Y := fixed.Y origin2 |}) /\
      (forall msg,
          cacheOf st2 (self s) !! glyphKey s r2 origin2 = None ->
          made2 = Panic msg ->
          appendGlyphsForLine_body s line indexOffset ll2 (i2, r2) st2
          = (Panic msg, st2))).
Proof.
  intros Hsound Hdeg.
  assert (Hnil : forall sub, glyphImageImpl s r sub (boundsOf s r) = Ok None)
    by (intros sub; apply glyphImageImpl_degenerate; exact Hdeg).
  split; [exact Hnil |]. split.
  - assert (Hd : drawable s r) by (intros sub; exists None; apply Hnil).
    destruct (appendGlyphsForLine_body_returns s line indexOffset ll i r st Hd)
      as (oimg & Eimg & ->).
    destruct (getOrCreate_sound s (cacheOf st (self s)) r
                (key_xoffset (glyphKey s r (kerned s ll r)))
                (subpixelOffsetOf (quantize s (kerned s ll r)) (boundsOf s r)) Hsound)
      as [_ Himg].
    change {| key_rune := r; key_xoffset := key_xoffset (glyphKey s r (kerned s ll r)) |}
      with (glyphKey s r (kerned s ll r)) in Himg.
    destruct (Himg oimg Eimg) as (sub' & Hsub').
    rewrite Hnil in Hsub'. injection Hsub' as <-.
    eexists. eexists. split; [reflexivity |].
    rewrite cacheOf_insert, (getOrCreate_lookup _ _ _ _ Eimg). simpl.
    repeat split.
  - intros ll2 i2 r2 st2 origin2 made2. split.
    + intros Hret.
      destruct (getOrCreate_returns (cacheOf st2 (self s)) (glyphKey s r2 origin2)
                  (fun _ => made2) Hret) as [img Himg].
      rewrite appendGlyphsForLine_body_unfold. cbv zeta.
      fold origin2. fold made2. rewrite Himg.
      eexists. eexists. split; reflexivity.
    + intros msg E Hm.
      rewrite appendGlyphsForLine_body_unfold. cbv zeta.
      fold origin2. fold made2.
      rewrite (getOrCreate_panics _ _ (fun _ => made2) msg E Hm). reflexivity.
Qed.

(** C10. For every StdFace (copied or not), path, line and origin,
    [appendVectorPathForLine] returns normally and leaves the path as it
    was, also when it is called through the interface [Face]; this holds
    for lines whose runes have glyph images like for any other. *)
Theorem StdFace_appendVectorPathForLine_unchanged (s : StdFace)
    (path : vector_Path) (line : gostring) (originX originY : float64) :
  StdFace_appendVectorPathForLine s path line originX originY = Ok path /\
  appendVectorPathForLine (StdFace_Face s) path line originX originY = Ok path.
Proof. split; reflexivity. Qed.

End StdFace_theorems.

(** ** Decoding in a prefix of a string *)

Lemma at_take (s : gostring) (n k : nat) :
  (k < n)%nat -> utf8.at_ (take n s) k = utf8.at_ s k.
Proof. intros Hk. unfold utf8.at_. rewrite lookup_take_lt by exact Hk. reflexivity. Qed.

Lemma len_take (s : gostring) (n : nat) :
  len (take n s) = Z.min (Z.of_nat n) (len s).
Proof. unfold len. rewrite length_take. lia. Qed.

Lemma first_size (b : Z) :
  (utf8.as_ <=? utf8.first b) = false ->
  2 <= Z.land (utf8.first b) 7 <= 4.
Proof.
  unfold utf8.first.
  repeat match goal with
         | |- context [if ?c then _ else _] => destruct c
         end; vm_compute; intros E; try discriminate; split; discriminate.
Qed.

(** A prefix that holds the whole rune decoded at the start of [s] decodes
    to the same rune with the same width. *)
Lemma DecodeRuneInString_take (s : gostring) (n : nat) :
  snd (utf8.DecodeRuneInString s) <= Z.of_nat n ->
  utf8.DecodeRuneInString (take n s) = utf8.DecodeRuneInString s.
Proof.
  unfold utf8.DecodeRuneInString.
  destruct (len s <? 1) eqn:E0.
  { intros _. apply Z.ltb_lt in E0.
    destruct s; [| unfold len in E0; simpl in E0; lia].
    rewrite take_nil. reflexivity. }
  apply Z.ltb_ge in E0.
  destruct (utf8.as_ <=? utf8.first (utf8.at_ s 0)) eqn:E1.
  { simpl. intros Hn.
    assert (Hlt : (len (take n s) <? 1) = false)
      by (apply Z.ltb_ge; rewrite len_take; lia).
    rewrite Hlt, at_take by lia. rewrite E1. reflexivity. }
  pose proof (first_size _ E1) as Hsz.
  set (sz := Z.land (utf8.first (utf8.at_ s 0)) 7) in *.
  intros Hn.
  assert (Hn1 : 1 <= Z.of_nat n).
  { revert Hn. repeat match goal with
         | |- context [if ?c then _ else _] => destruct c
         end; simpl; lia. }
  destruct (decide (len (take n s) < sz)) as [Hshort | Hlong].
  - assert (Hlt : (len (take n s) <? 1) = false)
      by (apply Z.ltb_ge; rewrite len_take; lia).
    rewrite Hlt, at_take by lia. rewrite E1. fold sz.
    assert (Hs : (len (take n s) <? sz) = true) by (apply Z.ltb_lt; exact Hshort).
    rewrite Hs.
    rewrite len_take in Hshort.
    revert Hn.
    repeat match goal with
           | |- context [if ?c then _ else _] => destruct c eqn:?
           end; simpl; intros Hn; try reflexivity;
      repeat match goal with
             | H : (_ <? _) = false |- _ => apply Z.ltb_ge in H
             | H : (_ <=? _) = true |- _ => apply Z.leb_le in H
             | H : (_ <=? _) = false |- _ => apply Z.leb_gt in H
             end; lia.
  - assert (Hge : sz <= len (take n s)) by lia.
    rewrite len_take in Hge.
    assert (Hlt : (len (take n s) <? 1) = false)
      by (apply Z.ltb_ge; rewrite len_take; lia).
    assert (Hs : (len (take n s) <? sz) = false)
      by (apply Z.ltb_ge; rewrite len_take; lia).
    assert (Hs' : (len s <? sz) = false) by (apply Z.ltb_ge; lia).
    rewrite Hlt, at_take by lia. rewrite E1. fold sz. rewrite Hs, Hs'.
    rewrite at_take by lia.
    destruct (_ || _); [reflexivity |].
    destruct (sz <=? 2) eqn:E2; [reflexivity |]. apply Z.leb_gt in E2.
    rewrite at_take by lia.
    destruct (_ || _); [reflexivity |].
    destruct (sz <=? 3) eqn:E3; [reflexivity |]. apply Z.leb_gt in E3.
    rewrite at_take by lia. reflexivity.
Qed.

(** ** Chunks and rune boundaries *)

Lemma runeBoundary_nonneg (text : gostring) (i : Z) :
  runeBoundary text i -> 0 <= i <= len text.
Proof.
  induction 1 as [|i Hb IH Hlt].
  - unfold len. lia.
  - assert (Hne : drop (Z.to_nat i) text <> []).
    { intros E. apply drop_nil_len in E; lia. }
    pose proof (DecodeRuneInString_size _ Hne) as Hsz.
    rewrite len_drop in Hsz by lia. lia.
Qed.

Lemma runeChain_snoc (text : gostring) (a e : Z) :
  runeChain text a e -> e < len text ->
  runeChain text a (e + snd (utf8.DecodeRuneInString (drop (Z.to_nat e) text))).
Proof.
  induction 1 as [a | a e Hlt Hc IH]; intros He.
  - apply runeChain_step; [exact He | apply runeChain_here].
  - apply runeChain_step; [exact Hlt | apply IH; exact He].
Qed.

Lemma runeChain_le (text : gostring) (a e : Z) :
  runeChain text a e -> 0 <= a -> a <= e.
Proof.
  induction 1 as [a | a e Hlt Hc IH]; intros Ha; [lia |].
  assert (Hne : drop (Z.to_nat a) text <> []).
  { intros E. apply drop_nil_len in E; lia. }
  pose proof (DecodeRuneInString_size _ Hne) as Hsz. lia.
Qed.

Lemma runeChain_next (text : gostring) (a e : Z) :
  runeChain text a e -> 0 <= a -> a < e ->
  a < len text /\
  runeChain text (a + snd (utf8.DecodeRuneInString (drop (Z.to_nat a) text))) e /\
  a + snd (utf8.DecodeRuneInString (drop (Z.to_nat a) text)) <= e.
Proof.
  intros Hc Ha Hlt. destruct Hc as [a | a e Hl Hc]; [lia |].
  split; [exact Hl |]. split; [exact Hc |].
  apply (runeChain_le _ _ _ Hc).
  assert (Hne : drop (Z.to_nat a) text <> []).
  { intros E. apply drop_nil_len in E; lia. }
  pose proof (DecodeRuneInString_size _ Hne) as Hsz. lia.
Qed.

Section chunk_runes.
Context `{Platform}.

Lemma splitText_body_wholeRunes (m : MultiFace) (text : gostring)
    (cs : list textChunk) (ri : Z) (r : rune) :
  runeBoundary text ri -> ri < len text ->
  contiguous 0 cs ri ->
  Forall (wholeRunes text) cs ->
  Forall (wholeRunes text) (splitText_body m text cs (ri, r)).
Proof.
  intros Hb Hlt Hc Hall.
  assert (Hnew : runeChain text ri
            (ri + snd (utf8.DecodeRuneInString (drop (Z.to_nat ri) text))))
    by (apply runeChain_step; [exact Hlt | apply runeChain_here]).
  destruct cs as [|c cs' _] using rev_ind.
  - rewrite splitText_body_nil. apply Forall_singleton.
    simpl in Hc. subst ri. split; simpl; [constructor | exact Hnew].
  - rewrite splitText_body_snoc. cbv zeta.
    apply contiguous_snoc in Hc. destruct Hc as (_ & _ & He).
    apply Forall_app in Hall. destruct Hall as [Hall Hwc].
    rewrite Forall_singleton in Hwc. destruct Hwc as [Hbs Hch].
    destruct (faceIndex c =? firstFace m 0 r).
    + apply Forall_app. split; [exact Hall |]. apply Forall_singleton.
      split; simpl; [exact Hbs |].
      rewrite He. apply runeChain_snoc; [rewrite <- He; exact Hch | exact Hlt].
    + apply Forall_app. split; [exact Hall |].
      apply Forall_cons. split; [split; assumption |].
      apply Forall_singleton. split; simpl; rewrite He; assumption.
Qed.

Lemma splitText_wholeRunes (m : MultiFace) (text : gostring) :
  Forall (wholeRunes text) (splitText m text).
Proof.
  unfold splitText.
  apply (rangeString_fold_ind text
           (fun i cs => contiguous 0 cs i /\ Forall (wholeRunes text) cs)).
  - split; [reflexivity | constructor].
  - intros i cs Hb Hi [Hc Hall] d Hd1 Hd2. subst d. split.
    + apply splitText_body_contiguous; assumption.
    + apply splitText_body_wholeRunes; [exact Hb | lia | exact Hc | exact Hall].
Qed.

End chunk_runes.

(** ** Runes of a substring *)

Lemma slice_drop (text t : gostring) (a e j : Z) :
  slice text a e = Ok t -> 0 <= j ->
  0 <= a /\ a <= e /\ e <= len text /\ len t = e - a /\
  drop (Z.to_nat j) t = take (Z.to_nat (e - a - j)) (drop (Z.to_nat (a + j)) text).
Proof.
  unfold slice. intros Hs Hj.
  destruct (0 <=? a) eqn:E1; [| discriminate].
  destruct (a <=? e) eqn:E2; [| discriminate].
  destruct (e <=? len text) eqn:E3; [| discriminate].
  simpl in Hs. injection Hs as <-.
  apply Z.leb_le in E1, E2, E3.
  repeat split; try assumption.
  - unfold len in *. rewrite length_take, length_drop. lia.
  - rewrite take_drop_commute, drop_drop, take_drop_commute.
    replace (Z.to_nat a + Z.to_nat j)%nat with (Z.to_nat (a + j)) by lia.
    destruct (decide (j <= e - a)).
    + f_equal. f_equal. lia.
    + rewrite !drop_ge; [reflexivity | |]; rewrite length_take; lia.
Qed.

(** The rune boundaries of a substring made of whole runes are rune
    boundaries of the string, and the runes decoded there are the same. *)
Lemma substring_boundary (text t : gostring) (a e : Z) :
  slice text a e = Ok t ->
  runeBoundary text a -> runeChain text a e ->
  forall j, runeBoundary t j ->
    runeBoundary text (a + j) /\ runeChain text (a + j) e /\
    (j < len t ->
     utf8.DecodeRuneInString (drop (Z.to_nat j) t) =
     utf8.DecodeRuneInString (drop (Z.to_nat (a + j)) text)).
Proof.
  intros Hs Hba Hch.
  assert (Hdec : forall j, 0 <= j -> j < len t ->
            runeBoundary text (a + j) -> runeChain text (a + j) e ->
            utf8.DecodeRuneInString (drop (Z.to_nat j) t) =
            utf8.DecodeRuneInString (drop (Z.to_nat (a + j)) text)).
  { intros j Hj Hlt Hb Hc.
    destruct (slice_drop _ _ _ _ j Hs Hj) as (Ha & Hae & He & Hlen & Hdrop).
    destruct (runeChain_next _ _ _ Hc) as (_ & _ & Hnext); [lia | lia |].
    rewrite Hdrop. apply DecodeRuneInString_take. lia. }
  induction 1 as [|q Hbq IH Hlt].
  - split; [rewrite Z.add_0_r; exact Hba |].
    split; [rewrite Z.add_0_r; exact Hch |].
    intros Hlt. apply Hdec; [lia | exact Hlt | |]; rewrite Z.add_0_r; assumption.
  - destruct IH as (Hb & Hc & Hd).
    pose proof (runeBoundary_nonneg _ _ Hbq) as Hq.
    destruct (slice_drop _ _ _ _ q Hs (proj1 Hq)) as (Ha & Hae & He & Hlen & _).
    rewrite (Hd Hlt).
    destruct (runeChain_next _ _ _ Hc) as (Hl & Hc' & Hnext); [lia | lia |].
    rewrite Z.add_assoc.
    assert (Hb' : runeBoundary text
              (a + q + snd (utf8.DecodeRuneInString (drop (Z.to_nat (a + q)) text))))
      by (apply runeBoundary_next; assumption).
    split; [exact Hb' |]. split; [exact Hc' |].
    intros Hlt'.
    assert (Hne : drop (Z.to_nat (a + q)) text <> []).
    { intros E. apply drop_nil_len in E; lia. }
    pose proof (DecodeRuneInString_size _ Hne) as Hsz.
    rewrite <- Z.add_assoc.
    apply Hdec; [lia | exact Hlt' | |]; rewrite Z.add_assoc; assumption.
Qed.

Lemma rangeOk_substring `{Platform} (text t : gostring) (a e io : Z) (g : Glyph) :
  slice text a e = Ok t ->
  runeBoundary text a -> runeChain text a e ->
  rangeOk t (io + a) g -> rangeOk text io g.
Proof.
  intros Hs Hba Hch (j & Hb & Hj & Hjd & Hstart & Hend).
  destruct (substring_boundary _ _ _ _ Hs Hba Hch j Hb) as (Hb' & Hc' & Hd).
  destruct (slice_drop _ _ _ _ j Hs (proj1 Hj)) as (Ha & Hae & He & Hlen & _).
  specialize (Hd (proj2 Hj)).
  exists (a + j). cbv zeta. rewrite <- Hd.
  repeat split; try assumption; try lia.
Qed.

(** ** Byte-range fidelity without sentinel chunks *)

Lemma index_elem_of {A : Type} (m : list A) (i : Z) (a : A) :
  index m i = Ok a -> a ∈ m.
Proof.
  unfold index. destruct (0 <=? i); [| discriminate].
  destruct (m !! Z.to_nat i) eqn:E; [| discriminate].
  intros [= <-]. apply list_elem_of_lookup. eauto.
Qed.

Section fidelity.
Context `{Platform} `{Granularity}.

(** One iteration of the loop of [MultiFace.appendGlyphsForLine] for a
    chunk that names a face, when the calls on the face return. *)
Lemma MultiFace_body_run (m : MultiFace) (line : gostring) (cl : chunkLoop)
    (c : textChunk) (cs : list textChunk) (f : Face) (t : gostring) (glyphs : list Glyph)
    (a : float64) (st st1 : Store) :
  isSourced c ->
  index m (faceIndex c) = Ok f ->
  chunkText line c = Ok t ->
  appendGlyphsForLine f (cl_glyphs cl) t (cl_indexOffset cl)
                      (cl_originX cl) (cl_originY cl) st = (Ok glyphs, st1) ->
  advance f t = Ok a ->
  M_bind (MultiFace_appendGlyphsForLine_body m line cl c)
         (M_foldl (MultiFace_appendGlyphsForLine_body m line) cs) st =
  M_foldl (MultiFace_appendGlyphsForLine_body m line) cs
    {| cl_glyphs := glyphs;
       cl_indexOffset := cl_indexOffset cl + len t;
       cl_originX := if isHorizontal (direction f)
                     then f64_add (cl_originX cl) a else cl_originX cl;
       cl_originY := if isHorizontal (direction f)
                     then cl_originY cl else f64_add (cl_originY cl) a |} st1.
Proof.
  intros Hs Hf Ht Hrun Hadv.
  unfold MultiFace_appendGlyphsForLine_body at 1.
  destruct (faceIndex c =? -1) eqn:E; [apply Z.eqb_eq in E; contradiction |].
  cbv [mbind M_mbind M_bind M_lift mret M_mret M_ret].
  rewrite Hf, Ht, Hrun, Hadv. reflexivity.
Qed.

(** The loop of [MultiFace.appendGlyphsForLine] over chunks that all name a
    face: while [indexOffset] is the caller's offset plus the start of the
    next chunk, every glyph that is appended has byte-range fidelity for the
    whole line. *)
Lemma MultiFace_glyphs_loop (Inv : Store -> Prop) (m : MultiFace)
    (line : gostring) (io : Z) :
  Forall (faithful Inv) m ->
  forall (cs : list textChunk) (a b : Z),
    contiguous a cs b -> 0 <= a -> b <= len line ->
    Forall isSourced cs -> Forall (faceIndexOk m) cs ->
    Forall (wholeRunes line) cs ->
    forall (cl : chunkLoop) (st : Store),
      Inv st -> cl_indexOffset cl = io + a ->
      exists new cl' st',
        M_foldl (MultiFace_appendGlyphsForLine_body m line) cs cl st = (Ok cl', st') /\
        cl_glyphs cl' = cl_glyphs cl ++ new /\
        Inv st' /\
        Forall (rangeOk line io) new.
Proof.
  intros Hm. induction cs as [|c cs IH]; intros a b Hc Ha Hb Hsrc Hfi Hwr cl st Hinv Hoff.
  - exists [], cl, st. repeat split; [symmetry; apply app_nil_r | exact Hinv | constructor].
  - simpl in Hc. destruct Hc as (Hstart & Hlt & Hc).
    destruct (contiguous_lower _ _ _ Hc) as [Hle _].
    apply Forall_cons in Hsrc. destruct Hsrc as [Hs Hsrc].
    apply Forall_cons in Hfi. destruct Hfi as [[Hsent | (f & Hf)] Hfi]; [contradiction |].
    apply Forall_cons in Hwr. destruct Hwr as [[Hbs Hch] Hwr].
    assert (Ht : exists t, chunkText line c = Ok t).
    { unfold chunkText, slice.
      destruct (0 <=? textStartIndex c) eqn:E1; [| apply Z.leb_gt in E1; lia].
      destruct (textStartIndex c <=? textEndIndex c) eqn:E2; [| apply Z.leb_gt in E2; lia].
      destruct (textEndIndex c <=? len line) eqn:E3; [| apply Z.leb_gt in E3; lia].
      simpl. eauto. }
    destruct Ht as [t Ht].
    destruct (slice_drop _ _ _ _ 0 Ht) as (_ & _ & _ & Hlen & _); [lia |].
    assert (Hff : faithful Inv f).
    { rewrite Forall_forall in Hm. apply Hm. eapply index_elem_of. exact Hf. }
    destruct (Hff t) as [[adv Hadv] Happ].
    destruct (Happ (cl_glyphs cl) (cl_indexOffset cl) (cl_originX cl) (cl_originY cl)
                   st Hinv) as (new1 & st1 & Hrun & Hinv1 & Hall1).
    cbn [M_foldl].
    rewrite (MultiFace_body_run m line cl c cs f t _ adv st st1 Hs Hf Ht Hrun Hadv).
    match goal with
    | |- context [M_foldl _ cs ?cl1 st1] =>
        destruct (IH (textEndIndex c) b Hc ltac:(lia) Hb Hsrc Hfi Hwr cl1 st1 Hinv1)
          as (new2 & cl' & st' & Hloop & Hg & Hinv' & Hall2)
    end.
    { simpl. lia. }
    exists (new1 ++ new2), cl', st'.
    split; [exact Hloop |]. split; [rewrite Hg; simpl; symmetry; apply app_assoc |].
    split; [exact Hinv' |].
    apply Forall_app. split; [| exact Hall2].
    eapply Forall_impl; [exact Hall1 |]. intros g Hg1.
    rewrite Hoff, <- Hstart in Hg1.
    eapply rangeOk_substring; eassumption.
Qed.

(** A MultiFace of faces that keep the byte-range fidelity keeps it on
    every line that splits into chunks that all name a face. *)
Lemma MultiFace_faithful_sourced (Inv : Store -> Prop) (m : MultiFace)
    (glyphs : list Glyph) (line : gostring) (indexOffset : Z)
    (originX originY : float64) (st : Store) :
  Forall (faithful Inv) m ->
  Forall isSourced (splitText m line) ->
  Inv st ->
  exists new st',
    MultiFace_appendGlyphsForLine m glyphs line indexOffset originX originY st
      = (Ok (glyphs ++ new), st') /\
    Inv st' /\
    Forall (rangeOk line indexOffset) new.
Proof.
  intros Hm Hsrc Hinv.
  destruct (MultiFace_glyphs_loop Inv m line indexOffset Hm (splitText m line)
              0 (len line) (splitText_contiguous m line) ltac:(lia) ltac:(lia)
              Hsrc (splitText_faceIndexOk m line) (splitText_wholeRunes m line)
              {| cl_glyphs := glyphs; cl_indexOffset := indexOffset;
                 cl_originX := originX; cl_originY := originY |} st Hinv)
    as (new & cl' & st' & Hloop & Hg & Hinv' & Hall).
  { simpl. lia. }
  exists new, st'. split; [| split; assumption].
  unfold MultiFace_appendGlyphsForLine.
  change (mbind ?k ?x) with (M_bind x k). unfold M_bind.
  rewrite Hloop. simpl. rewrite Hg. reflexivity.
Qed.

Lemma self_inj (ss : list StdFace) (s s' : StdFace) :
  NoDup (map self ss) -> s ∈ ss -> s' ∈ ss -> self s = self s' -> s = s'.
Proof.
  induction ss as [|s0 ss IH]; intros Hnd Hs Hs' Heq.
  - inversion Hs.
  - simpl in Hnd. apply NoDup_cons in Hnd. destruct Hnd as [Hnot Hnd].
    apply elem_of_cons in Hs. apply elem_of_cons in Hs'.
    destruct Hs as [-> | Hs], Hs' as [-> | Hs'].
    + reflexivity.
    + exfalso. apply Hnot. rewrite Heq. apply list_elem_of_fmap_2. exact Hs'.
    + exfalso. apply Hnot. rewrite <- Heq. apply list_elem_of_fmap_2. exact Hs.
    + apply IH; assumption.
Qed.

(** A StdFace that was not copied, of a font with only runes whose image
    can be made, keeps the byte-range fidelity, on stores in which the
    caches of the faces [ss], at distinct addresses, hold only images made
    by [glyphImageImpl]. *)
Lemma StdFace_faithful (ss : list StdFace) (s : StdFace) :
  NoDup (map self ss) -> s ∈ ss -> addr s = self s ->
  (forall r, drawable s r) ->
  faithful (cachesSound ss) (StdFace_Face s).
Proof.
  intros Hnd Hin Haddr Hdraw t. split; [eexists; reflexivity |].
  intros glyphs io ox oy st Hinv.
  assert (Hs : cacheSound s (cacheOf st (self s))).
  { unfold cachesSound in Hinv. rewrite Forall_forall in Hinv. apply Hinv. exact Hin. }
  destruct (StdFace_appendGlyphsForLine_glyphs s glyphs t io ox oy st Haddr Hdraw Hs)
    as (new & st' & Hrun & Hs' & Hframe & Hall).
  exists new, st'. split; [exact Hrun |]. split.
  - unfold cachesSound in *. rewrite Forall_forall in *.
    intros s' Hin'. destruct (decide (self s' = self s)) as [E | E].
    + rewrite (self_inj ss s' s Hnd Hin' Hin E). exact Hs'.
    + unfold cacheOf. rewrite (Hframe _ E). apply Hinv. exact Hin'.
  - eapply Forall_impl; [exact Hall |].
    intros g (j & Hb & Hj & Hd1 & Hd2 & Hstart & Hend & _).
    exists j. cbv zeta in *. repeat split; try assumption; lia.
Qed.

(** The byte-range fidelity of a MultiFace of StdFaces that were not
    copied, of fonts with only runes whose image can be made, for a line in
    which every rune has a glyph in one of the faces: every glyph that is
    returned has, less [indexOffset], the byte range of one rune of the
    line. *)
Lemma MultiFace_StdFaces_fidelity (ss : list StdFace) (glyphs : list Glyph)
    (line : gostring) (indexOffset : Z) (originX originY : float64) (st : Store) :
  NoDup (map self ss) ->
  Forall (fun s => addr s = self s) ss ->
  Forall (fun s => forall r, drawable s r) ss ->
  cachesSound ss st ->
  Forall isSourced (splitText (map StdFace_Face ss) line) ->
  exists new st',
    MultiFace_appendGlyphsForLine (map StdFace_Face ss) glyphs line indexOffset
                                  originX originY st
      = (Ok (glyphs ++ new), st') /\
    cachesSound ss st' /\
    Forall (rangeOk line indexOffset) new.
Proof.
  intros Hnd Haddr Hdraw Hinv Hsrc.
  apply MultiFace_faithful_sourced; [| exact Hsrc | exact Hinv].
  apply Forall_fmap. rewrite Forall_forall in *.
  intros s Hs.
  apply StdFace_faithful;
    [exact Hnd | exact Hs | apply Haddr; exact Hs | apply Hdraw; exact Hs].
Qed.

End fidelity.

(** ** The path through a MultiFace of StdFaces *)

Section path_facts.
Context `{Platform} `{Granularity}.

Lemma MultiFace_path_loop (ss : list StdFace) (line : gostring)
    (cs : list textChunk) :
  Forall (faceIndexOk (map StdFace_Face ss)) cs ->
  Forall (fun c => exists t, chunkText line c = Ok t /\
                             len t = textEndIndex c - textStartIndex c) cs ->
  forall pl,
    exists pl',
      Res_foldl (MultiFace_appendVectorPathForLine_body (map StdFace_Face ss) line)
                cs pl = Ok pl' /\
      pl_path pl' = pl_path pl.
Proof.
  induction cs as [|c cs IH]; intros Hfi Hct pl.
  - exists pl. split; reflexivity.
  - apply Forall_cons in Hfi. destruct Hfi as [Hc Hfi].
    apply Forall_cons in Hct. destruct Hct as [(t & Ht & _) Hct].
    cbn [Res_foldl]. unfold MultiFace_appendVectorPathForLine_body at 1.
    destruct (faceIndex c =? -1) eqn:E.
    + simpl. apply (IH Hfi Hct).
    + destruct Hc as [Hs | (f & Hf)]; [apply Z.eqb_neq in E; contradiction |].
      pose proof (index_elem_of _ _ _ Hf) as Hin.
      apply list_elem_of_fmap in Hin. destruct Hin as (s & -> & _).
      cbv [mbind Res_mbind]. rewrite Hf, Ht. simpl.
      match goal with
      | |- context [Res_foldl _ cs ?pl1] =>
          destruct (IH Hfi Hct pl1) as (pl' & Hloop & Hp)
      end.
      exists pl'. split; [exact Hloop | exact Hp].
Qed.

(** A MultiFace of StdFaces leaves the path as it was, for every line. *)
Lemma MultiFace_StdFaces_path_unchanged (ss : list StdFace) (path : vector_Path)
    (line : gostring) (originX originY : float64) :
  MultiFace_appendVectorPathForLine (map StdFace_Face ss) path line originX originY
  = Ok path.
Proof.
  unfold MultiFace_appendVectorPathForLine.
  destruct (MultiFace_path_loop ss line _
              (splitText_faceIndexOk _ line) (splitText_chunkText _ line)
              {| pl_path := path; pl_originX := originX; pl_originY := originY |})
    as (pl' & Hloop & Hp).
  cbv [mbind Res_mbind]. rewrite Hloop. simpl. rewrite Hp. reflexivity.
Qed.

End path_facts.

(** ** The properties on the sample platform *)

Lemma Sample_order : @PlatformOrder Sample.platform.
Proof.
  split; simpl.
  - intros x. rewrite Z.gtb_ltb. apply Z.ltb_irrefl.
  - intros x y z Hxy Hyz. rewrite Z.gtb_ltb in *.
    apply Z.ltb_lt in Hxy. apply Z.ltb_lt in Hyz. apply Z.ltb_lt. lia.
  - intros x y z Hxy.
    destruct (Z.gtb x z) eqn:E; [left; reflexivity | right].
    rewrite Z.gtb_ltb in *. apply Z.ltb_lt in Hxy. apply Z.ltb_ge in E.
    apply Z.ltb_lt. lia.
Qed.

Section Sample_theorems.
#[local] Existing Instance Sample.platform.
#[local] Existing Instance Sample.granularity.

(** C1 (the code at the failing input). [MultiFace.appendGlyphsForLine] on
    the line "éA" with one face that has a glyph for 'A' and none for 'é':
    the chunks are the sentinel chunk [0,2) and the chunk [2,3) of face 0,
    and the runes are at the bytes 0 and 2; the one glyph that is returned,
    the glyph of 'A', has the byte range [0,1) and not the range [2,3) of 'A'
    in the line: it has no byte-range fidelity. *)
Theorem MultiFace_glyph_after_sentinel_chunk :
  let m := [StdFace_Face Sample.face1] in
  splitText m Sample.line =
    [ {| textStartIndex := 0; textEndIndex := 2; faceIndex := -1 |};
      {| textStartIndex := 2; textEndIndex := 3; faceIndex := 0 |} ] /\
  utf8.rangeString Sample.line = [(0, 233); (2, 65)] /\
  exists g st',
    MultiFace_appendGlyphsForLine m [] Sample.line 0 0 0 ∅ = (Ok [g], st') /\
    StartIndexInBytes g = 0 /\ EndIndexInBytes g = 1 /\
    img_rune <$> Image g = Some 65 /\
    ~ rangeOk Sample.line 0 g.
Proof.
  cbv zeta. split; [vm_compute; reflexivity |]. split; [vm_compute; reflexivity |].
  eexists. eexists. split; [vm_compute; reflexivity |].
  split; [reflexivity |]. split; [reflexivity |]. split; [reflexivity |].
  intros (j & _ & _ & _ & Hstart & Hend). simpl in Hstart, Hend.
  assert (j = 0) by lia. subst j.
  vm_compute in Hend. discriminate.
Qed.

(** The example of the chunk maximality: in "AB", with a face for 'A' and
    none for 'B'. *)
Example splitText_AB :
  splitText [StdFace_Face Sample.face1] Sample.lineAB =
    [ {| textStartIndex := 0; textEndIndex := 1; faceIndex := 0 |};
      {| textStartIndex := 1; textEndIndex := 2; faceIndex := -1 |} ].
Proof. vm_compute. reflexivity. Qed.

(** The scenario of the mixed line: four chunks with alternating faces. *)
Example splitText_mixed :
  splitText [StdFace_Face Sample.asciiFace; StdFace_Face Sample.anyFace]
            Sample.lineMixed =
    [ {| textStartIndex := 0; textEndIndex := 5; faceIndex := 0 |};
      {| textStartIndex := 5; textEndIndex := 20; faceIndex := 1 |};
      {| textStartIndex := 20; textEndIndex := 25; faceIndex := 0 |};
      {| textStartIndex := 25; textEndIndex := 31; faceIndex := 1 |} ] /\
  map snd (utf8.rangeString Sample.lineMixed) =
    [ 72; 101; 108; 108; 111; 12371; 12435; 12395; 12385; 12399;
      87; 111; 114; 108; 100; 19990; 30028 ].
Proof. split; vm_compute; reflexivity. Qed.

(** C2 (counterexample). For 'A', whose ink bounds start at (32, -608), at
    the origin (0, 32), half a pixel down: [glyphImage] returns the y
    coordinate -10, the floor of -608/64, while the floor of the origin plus
    the ink-bounds minimum, (32 - 608)/64, is -9. *)
Lemma glyphImage_not_at_true_origin :
  let origin := {| fixed.X := 0; fixed.Y := 32 |} in
  let b := boundsOf Sample.face1 65 in
  fixed.Min b = {| fixed.X := 32; fixed.Y := -608 |} /\
  exists img imgX imgY a st',
    glyphImage Sample.face1 65 origin ∅ = (Ok (img, imgX, imgY, a), st') /\
    imgY = -10 /\
    fixed.Floor (fixed.add (fixed.Y origin) (fixed.Y (fixed.Min b))) = -9 /\
    imgY <> fixed.Floor (fixed.add (fixed.Y origin) (fixed.Y (fixed.Min b))).
Proof.
  cbv zeta. split; [reflexivity |].
  eexists. eexists. eexists. eexists. eexists.
  split; [vm_compute; reflexivity |].
  split; [reflexivity |]. split; [vm_compute; reflexivity |].
  vm_compute. discriminate.
Qed.

(** C2 (the amended claim on the sample font). For 'A' at the origin
    (0, 32), with an empty cache: [glyphImage] returns the image that
    [glyphImageImpl] makes, at the coordinates (0, -10). *)
Lemma glyphImage_quantized_coordinates_witness :
  exists img st',
    glyphImage Sample.face1 65 {| fixed.X := 0; fixed.Y := 32 |} ∅
      = (Ok (Some img, 0, -10, 640), st') /\
    img_w img = 9 /\ img_h img = 11.
Proof.
  destruct (glyphImage_quantized_coordinates Sample.face1 65
              {| fixed.X := 0; fixed.Y := 32 |} ∅) as (_ & _ & _ & _ & Hret & _).
  edestruct Hret as (st' & Hrun & _).
  { right. split; reflexivity. }
  eexists. exists st'. split; [exact Hrun |]. split; reflexivity.
Defined.

(** The same in x, on the grid of whole pixels: at the origin (32, 0) the
    x coordinate is 0, and the floor of (32 + 32)/64 is 1. *)
Example glyphImage_x_on_grid :
  exists img imgY a st',
    glyphImage Sample.face1 65 {| fixed.X := 32; fixed.Y := 0 |} ∅
      = (Ok (img, 0, imgY, a), st') /\
    fixed.Floor (fixed.add 32 32) = 1.
Proof.
  eexists. eexists. eexists. eexists.
  split; vm_compute; reflexivity.
Qed.

(** C3 (counterexample). On a StdFace copied by value,
    [appendVectorPathForLine], [direction], [advance] and [hasGlyph] return
    normally. *)
Lemma StdFace_copy_unchecked :
  addr Sample.copied <> self Sample.copied /\
  StdFace_appendVectorPathForLine Sample.copied [] Sample.line 0 0 = Ok [] /\
  StdFace_direction Sample.copied = DirectionLeftToRight /\
  StdFace_advance Sample.copied Sample.line = Ok 640 /\
  StdFace_hasGlyph Sample.copied 65 = true.
Proof.
  split; [discriminate |]. repeat split.
Qed.

(** The guard on the copy of the sample face. *)
Lemma StdFace_copyCheck_guard_witness :
  addr Sample.copied <> self Sample.copied /\
  StdFace_Metrics Sample.copied =
    Panic "text: illegal use of non-zero StdFace copied by value" /\
  StdFace_appendGlyphsForLine Sample.copied [] Sample.line 0 0 0 ∅ =
    (Panic "text: illegal use of non-zero StdFace copied by value", ∅).
Proof.
  assert (Hcopy : addr Sample.copied <> self Sample.copied) by discriminate.
  destruct (StdFace_copyCheck_guard Sample.copied Hcopy) as (Hm & Ha & _).
  split; [exact Hcopy |]. split; [exact Hm | apply Ha].
Defined.

(** The metrics of the two sample faces: the maximum field by field. *)
Lemma MultiFace_Metrics_max_witness :
  Forall2 (fun f mt => Face_Metrics f = Ok mt) Sample.faces Sample.metrics /\
  Forall nonNegative Sample.metrics /\
  exists mt,
    MultiFace_Metrics Sample.faces = Ok mt /\
    forall fld, isMaxOf (map (getField fld) Sample.metrics) (getField fld mt).
Proof.
  assert (Hall : Forall2 (fun f mt => Face_Metrics f = Ok mt)
                         Sample.faces Sample.metrics)
    by (repeat constructor).
  assert (Hnn : Forall nonNegative Sample.metrics)
    by (repeat constructor; intros fld; destruct fld; reflexivity).
  destruct (MultiFace_Metrics_max (H0 := Sample_order) Sample.faces Sample.metrics)
    as [Hmax _].
  destruct (Hmax Hall) as (mt & Hmt & Hfld).
  split; [exact Hall |]. split; [exact Hnn |].
  exists mt. split; [exact Hmt |].
  intros fld. apply (Hfld fld); [discriminate | exact Hnn].
Defined.

(** The space of the sample font: no glyph, and the origin moves on by its
    advance of five pixels. *)
Lemma degenerate_rune_no_glyph_witness :
  cacheSound Sample.face1 (cacheOf ∅ (self Sample.face1)) /\
  degenerate (boundsOf Sample.face1 32) /\
  exists ll' st',
    appendGlyphsForLine_body Sample.face1 [Byte.x20] 0 Sample.start (0, 32) ∅
      = (Ok ll', st') /\
    ll_glyphs ll' = [] /\
    ll_origin ll' = {| fixed.X := 320; fixed.Y := 0 |}.
Proof.
  assert (Hs : cacheSound Sample.face1 (cacheOf ∅ (self Sample.face1)))
    by (apply cacheSound_empty).
  assert (Hd : degenerate (boundsOf Sample.face1 32)) by (left; reflexivity).
  destruct (degenerate_rune_no_glyph Sample.face1 [Byte.x20] 0 Sample.start
              0 32 ∅ Hs Hd)
    as (_ & (ll' & st' & Hbody & _ & Hg & Ho) & _).
  split; [exact Hs |]. split; [exact Hd |].
  exists ll', st'. split; [exact Hbody |]. split; [exact Hg | exact Ho].
Defined.

End Sample_theorems.

(** * Further properties *)

(** ** Rune boundaries form one chain *)

Lemma runeBoundary_chain (text : gostring) (i : Z) :
  runeBoundary text i -> runeChain text 0 i.
Proof.
  induction 1 as [|i Hb IH Hlt]; [apply runeChain_here |].
  apply runeChain_snoc; assumption.
Qed.

Lemma runeChain_total (text : gostring) (s a b : Z) :
  runeChain text s a -> runeChain text s b -> 0 <= s -> a <= b ->
  runeChain text a b.
Proof.
  induction 1 as [s | s a Hlt Hc IH]; intros Hb Hs Hab; [exact Hb |].
  assert (Hne : drop (Z.to_nat s) text <> []).
  { intros E. apply drop_nil_len in E; lia. }
  pose proof (DecodeRuneInString_size _ Hne) as Hsz.
  pose proof (runeChain_le _ _ _ Hc ltac:(lia)) as Hle.
  inversion Hb as [s' | s' b' Hlt' Hc']; subst.
  - lia.
  - apply IH; [exact Hc' | lia | exact Hab].
Qed.

(** No rune starts inside the rune decoded at a rune boundary. *)
Lemma runeBoundary_between (text : gostring) (i j : Z) :
  runeBoundary text i -> runeBoundary text j -> i < len text ->
  j < i + snd (utf8.DecodeRuneInString (drop (Z.to_nat i) text)) ->
  j <= i.
Proof.
  intros Hi Hj Hlt Hjn.
  destruct (decide (j <= i)) as [Hle | Hgt]; [exact Hle |].
  pose proof (runeBoundary_nonneg _ _ Hi) as Hi0.
  pose proof (runeChain_total _ _ _ _ (runeBoundary_chain _ _ Hi)
                (runeBoundary_chain _ _ Hj) ltac:(lia) ltac:(lia)) as Hc.
  destruct (runeChain_next _ _ _ Hc) as (_ & _ & Hnext); lia.
Qed.

(** The iterations of [for i, r := range text] are at the rune boundaries
    before the end, with the rune decoded there. *)
Lemma rangeString_boundary (text : gostring) (i : Z) (r : rune) :
  (i, r) ∈ utf8.rangeString text ->
  runeBoundary text i /\ 0 <= i < len text /\
  r = fst (utf8.DecodeRuneInString (drop (Z.to_nat i) text)).
Proof.
  revert i r.
  apply (rangeString_ind text
           (fun _ l => forall i r, (i, r) ∈ l ->
              runeBoundary text i /\ 0 <= i < len text /\
              r = fst (utf8.DecodeRuneInString (drop (Z.to_nat i) text)))).
  - intros i r Hin. inversion Hin.
  - intros i l Hb Hi d Hd1 Hd2 IH i' r' Hin.
    apply elem_of_cons in Hin. destruct Hin as [[= -> ->] | Hin].
    + repeat split; [exact Hb | lia | lia].
    + apply IH. exact Hin.
Qed.

(** ** Faces of the runes *)

Section rune_faces.
Context `{Platform}.

Lemma firstFace_from (m : MultiFace) (i : Z) (r : rune) :
  0 <= i ->
  (firstFace m i r = -1 /\ forall f, f ∈ m -> hasGlyph f r = false) \/
  exists (k : nat) (f : Face),
    firstFace m i r = i + Z.of_nat k /\ m !! k = Some f /\ hasGlyph f r = true /\
    forall (j : nat) (f' : Face),
      (j < k)%nat -> m !! j = Some f' -> hasGlyph f' r = false.
Proof.
  revert i. induction m as [|f m IH]; intros i Hi; simpl.
  - left. split; [reflexivity | intros f Hf; inversion Hf].
  - destruct (hasGlyph f r) eqn:E; simpl.
    + right. exists 0%nat, f. repeat split; [lia | exact E |].
      intros j f' Hj. lia.
    + destruct (IH (i + 1)) as [[E1 Hno] | (k & f1 & E1 & Hk & Hg & Hbefore)]; [lia | |].
      * left. split; [exact E1 |].
        intros f' Hf'. apply elem_of_cons in Hf'. destruct Hf' as [-> | Hf'];
          [exact E | apply Hno; exact Hf'].
      * right. exists (S k), f1. repeat split; [lia | exact Hk | exact Hg |].
        intros [|j] f' Hj Hf'; simpl in Hf'.
        -- injection Hf' as <-. exact E.
        -- apply (Hbefore j f'); [lia | exact Hf'].
Qed.

Lemma firstFace_firstOf (m : MultiFace) (r : rune) :
  firstOf m r (firstFace m 0 r).
Proof.
  destruct (firstFace_from m 0 r) as [[E Hno] | (k & f & E & Hk & Hg & Hbefore)]; [lia | |].
  - left. split; assumption.
  - right. rewrite E, Z.add_0_l. split; [lia |].
    exists f. rewrite Nat2Z.id. repeat split; assumption.
Qed.

Lemma splitText_body_runeChunk_old (m : MultiFace) (text : gostring) (j ri : Z)
    (r : rune) (cs : list textChunk) :
  1 <= snd (utf8.DecodeRuneInString (drop (Z.to_nat ri) text)) ->
  runeChunk m text j cs ->
  runeChunk m text j (splitText_body m text cs (ri, r)).
Proof.
  intros Hl (c & Hin & Hs & He & Hf).
  destruct cs as [|c0 cs' _] using rev_ind; [inversion Hin |].
  rewrite splitText_body_snoc. cbv zeta.
  apply elem_of_app in Hin. destruct Hin as [Hin | Hin].
  - exists c. split; [| repeat split; assumption].
    destruct (faceIndex c0 =? firstFace m 0 r); apply elem_of_app; left; exact Hin.
  - apply list_elem_of_singleton in Hin. subst c0.
    destruct (faceIndex c =? firstFace m 0 r).
    + exists (extendChunk c (snd (utf8.DecodeRuneInString (drop (Z.to_nat ri) text)))).
      split; [apply elem_of_app; right; apply list_elem_of_singleton; reflexivity |].
      simpl. repeat split; [exact Hs | lia | exact Hf].
    + exists c. split; [| repeat split; assumption].
      apply elem_of_app. right. apply elem_of_cons. left. reflexivity.
Qed.

Lemma splitText_body_runeChunk_new (m : MultiFace) (text : gostring) (ri : Z)
    (cs : list textChunk) :
  contiguous 0 cs ri ->
  runeChunk m text ri
    (splitText_body m text cs
       (ri, fst (utf8.DecodeRuneInString (drop (Z.to_nat ri) text)))).
Proof.
  intros Hc.
  set (r := fst (utf8.DecodeRuneInString (drop (Z.to_nat ri) text))).
  destruct cs as [|c0 cs' _] using rev_ind.
  - rewrite splitText_body_nil. simpl in Hc. subst ri.
    eexists. split; [apply list_elem_of_singleton; reflexivity |].
    simpl. repeat split; [lia | lia].
  - rewrite splitText_body_snoc. cbv zeta.
    apply contiguous_snoc in Hc. destruct Hc as (_ & Hlt & He).
    destruct (faceIndex c0 =? firstFace m 0 r) eqn:E.
    + apply Z.eqb_eq in E.
      eexists. split; [apply elem_of_app; right; apply list_elem_of_singleton; reflexivity |].
      simpl. repeat split; [lia | lia | exact E].
    + eexists. split.
      * apply elem_of_app. right. apply elem_of_cons. right.
        apply list_elem_of_singleton. reflexivity.
      * simpl. repeat split; lia.
Qed.

Lemma splitText_runeChunk (m : MultiFace) (text : gostring) (j : Z) :
  runeBoundary text j -> j < len text ->
  runeChunk m text j (splitText m text).
Proof.
  intros Hj Hlt.
  assert (G : contiguous 0 (splitText m text) (len text) /\
              forall j, runeBoundary text j -> j < len text ->
                        runeChunk m text j (splitText m text));
    [| apply G; assumption].
  unfold splitText.
  apply (rangeString_fold_ind text
           (fun i cs => contiguous 0 cs i /\
                        forall j, runeBoundary text j -> j < i -> runeChunk m text j cs)).
  - split; [reflexivity |]. intros j0 Hb Hj0.
    pose proof (runeBoundary_nonneg _ _ Hb). lia.
  - intros i cs Hb Hi [Hc Hold] d Hd1 Hd2. subst d. split.
    + apply splitText_body_contiguous; assumption.
    + intros j0 Hb0 Hj0.
      pose proof (runeBoundary_between _ _ _ Hb Hb0 ltac:(lia) Hj0) as Hle.
      destruct (decide (j0 = i)) as [-> | Hne].
      * apply splitText_body_runeChunk_new. exact Hc.
      * apply splitText_body_runeChunk_old; [exact Hd1 |].
        apply Hold; [exact Hb0 | lia].
Qed.

(** X1. Every rune [r] that the loop of [splitText] meets at a byte index
    [j] lies, whole, in a chunk whose face index is that of the first face
    with a glyph for [r]: the faces before it have none; the index is -1
    exactly when no face of the MultiFace has a glyph for [r]. *)
Theorem splitText_rune_face (m : MultiFace) (text : gostring) (j : Z) (r : rune) :
  (j, r) ∈ utf8.rangeString text ->
  exists c, c ∈ splitText m text /\
    textStartIndex c <= j /\
    j + snd (utf8.DecodeRuneInString (drop (Z.to_nat j) text)) <= textEndIndex c /\
    firstOf m r (faceIndex c).
Proof.
  intros Hin.
  destruct (rangeString_boundary _ _ _ Hin) as (Hj & Hlt & ->).
  destruct (splitText_runeChunk m text j Hj (proj2 Hlt)) as (c & Hc & Hs & He & Hf).
  exists c. repeat split; try assumption.
  rewrite Hf. apply firstFace_firstOf.
Qed.

End rune_faces.

Section hasGlyph_facts.
Context `{Platform}.

(** X2. [MultiFace.hasGlyph] reports a glyph exactly when one of the faces
    has one; so a MultiFace used as a face of another MultiFace answers like
    its faces put in its place. *)
Theorem MultiFace_hasGlyph_any (m : MultiFace) (r : rune) :
  (MultiFace_hasGlyph m r = true <-> exists f, f ∈ m /\ hasGlyph f r = true) /\
  (forall m1 m2 : MultiFace,
      MultiFace_hasGlyph (m1 ++ MultiFace_Face m :: m2) r =
      MultiFace_hasGlyph (m1 ++ m ++ m2) r).
Proof.
  assert (Happ : forall a b : MultiFace,
             MultiFace_hasGlyph (a ++ b) r =
             MultiFace_hasGlyph a r || MultiFace_hasGlyph b r).
  { intros a b. induction a as [|f a IH]; simpl; [reflexivity |].
    destruct (hasGlyph f r); [reflexivity | exact IH]. }
  split.
  - induction m as [|f m IH]; simpl.
    + split; [discriminate | intros (f & Hf & _); inversion Hf].
    + destruct (hasGlyph f r) eqn:E.
      * split; [intros _ | reflexivity]. exists f. split; [left | exact E].
      * rewrite IH. split.
        -- intros (f' & Hin & Hg). exists f'. split; [right; exact Hin | exact Hg].
        -- intros (f' & Hin & Hg). apply elem_of_cons in Hin.
           destruct Hin as [-> | Hin]; [congruence |]. exists f'. split; assumption.
  - intros m1 m2. rewrite !Happ. simpl.
    destruct (MultiFace_hasGlyph m r); reflexivity.
Qed.

End hasGlyph_facts.

(** ** The runes of a chunk *)

Lemma runeChain_boundary (text : gostring) (a e : Z) :
  runeChain text a e -> runeBoundary text a -> runeBoundary text e.
Proof.
  induction 1 as [a | a e Hlt Hc IH]; intros Ha; [exact Ha |].
  apply IH. apply runeBoundary_next; assumption.
Qed.

Lemma boundary_rangeString (text : gostring) (j : Z) :
  runeBoundary text j -> j < len text ->
  (j, fst (utf8.DecodeRuneInString (drop (Z.to_nat j) text))) ∈ utf8.rangeString text.
Proof.
  intros Hb Hlt. pose proof (runeBoundary_chain _ _ Hb) as Hc.
  clear Hb. revert j Hc Hlt.
  apply (rangeString_ind text
           (fun i l => forall j, runeChain text i j -> j < len text ->
              (j, fst (utf8.DecodeRuneInString (drop (Z.to_nat j) text))) ∈ l)).
  - intros j Hc Hlt. pose proof (runeChain_le _ _ _ Hc). unfold len in *. lia.
  - intros i l Hb Hi d Hd1 Hd2 IH j Hc Hlt.
    inversion Hc as [a | a e Hlt' Hc']; subst.
    + left.
    + right. apply IH; assumption.
Qed.

Section chunk_rune_theorems.
Context `{Platform}.

(** X3. A chunk of [splitText] never cuts a rune: its substring of the
    line exists, the chunk starts and ends at rune boundaries of the line,
    and iterating the substring meets the runes of the line, at the byte
    indices of the line less the start of the chunk. *)
Theorem splitText_chunks_whole_runes (m : MultiFace) (text : gostring)
    (c : textChunk) :
  c ∈ splitText m text ->
  exists t,
    chunkText text c = Ok t /\
    len t = textEndIndex c - textStartIndex c /\
    runeBoundary text (textStartIndex c) /\
    runeBoundary text (textEndIndex c) /\
    forall j r, (j, r) ∈ utf8.rangeString t ->
                (textStartIndex c + j, r) ∈ utf8.rangeString text.
Proof.
  intros Hin.
  pose proof (splitText_chunkText m text) as Hct.
  pose proof (splitText_wholeRunes m text) as Hwr.
  rewrite Forall_forall in Hct, Hwr.
  destruct (Hct c Hin) as (t & Ht & Hlen).
  destruct (Hwr c Hin) as [Hbs Hch].
  exists t. split; [exact Ht |]. split; [exact Hlen |]. split; [exact Hbs |].
  split; [apply (runeChain_boundary _ _ _ Hch Hbs) |].
  intros j r Hjr.
  destruct (rangeString_boundary _ _ _ Hjr) as (Hb & Hj & ->).
  destruct (substring_boundary _ _ _ _ Ht Hbs Hch j Hb) as (Hb' & Hc' & Hd).
  rewrite (Hd (proj2 Hj)).
  apply boundary_rangeString; [exact Hb' |].
  destruct (slice_drop _ _ _ _ j Ht (proj1 Hj)) as (_ & _ & He & Hl & _). lia.
Qed.

End chunk_rune_theorems.

(** ** The glyphs of a line of a StdFace *)

Section line_glyphs.
Context `{Platform} `{Granularity}.

Lemma ascending_snoc (lo hi hi' : Z) (gs : list Glyph) (g : Glyph) :
  ascending lo gs hi ->
  hi <= StartIndexInBytes g -> StartIndexInBytes g < EndIndexInBytes g ->
  EndIndexInBytes g <= hi' ->
  ascending lo (gs ++ [g]) hi'.
Proof.
  revert lo. induction gs as [|g0 gs IH]; intros lo; simpl.
  - intros Hlo H1 H2 H3. repeat split; lia.
  - intros (Ha & Hb & Hc) H1 H2 H3. repeat split; [exact Ha | exact Hb |].
    apply IH; assumption.
Qed.

Lemma ascending_weaken (lo hi hi' : Z) (gs : list Glyph) :
  ascending lo gs hi -> hi <= hi' -> ascending lo gs hi'.
Proof.
  revert lo. induction gs as [|g0 gs IH]; intros lo; simpl.
  - lia.
  - intros (Ha & Hb & Hc) Hle. repeat split; [exact Ha | exact Hb |].
    apply IH; assumption.
Qed.

Lemma StdFace_line_glyphs_any (s : StdFace) (glyphs : list Glyph)
    (line : gostring) (indexOffset : Z) (originX originY : float64) (st : Store) :
  addr s = self s ->
  lineDrawable s line ->
  exists new st',
    StdFace_appendGlyphsForLine s glyphs line indexOffset originX originY st
      = (Ok (glyphs ++ new), st') /\
    (forall l, l <> self s -> st' !! l = st !! l) /\
    ascending indexOffset new (indexOffset + len line) /\
    Forall (lineGlyph s line indexOffset originY) new.
Proof.
  intros Haddr Hdraw.
  unfold StdFace_appendGlyphsForLine.
  change (mbind ?k ?x) with (M_bind x k). unfold M_bind at 1. unfold M_lift, copyCheck.
  destruct (decide (addr s = self s)) as [_ | Hne]; [| contradiction].
  set (oy := float64ToFixed26_6 originY).
  set (ll0 := {| ll_glyphs := glyphs;
                 ll_origin := {| fixed.X := float64ToFixed26_6 originX;
                                 fixed.Y := oy |};
                 ll_prevR := -1 |}).
  destruct (rangeString_M_foldl_ind line
              (fun (i : Z) (ll : lineLoop) (st' : Store) =>
                 fixed.Y (ll_origin ll) = oy /\
                 (forall l, l <> self s -> st' !! l = st !! l) /\
                 exists new, ll_glyphs ll = glyphs ++ new /\
                             ascending indexOffset new (indexOffset + i) /\
                             Forall (lineGlyph s line indexOffset originY) new)
              (appendGlyphsForLine_body s line indexOffset) ll0 st)
    as (ll' & st' & Hloop & _ & Hframe & new & Hnew & Hasc & Hall).
  - split; [reflexivity |]. split; [reflexivity |].
    exists []. split; [simpl; rewrite app_nil_r; reflexivity |].
    split; [simpl; lia | constructor].
  - intros i ll st1 Hb Hi (Hy & Hf1 & new & Hnew & Hasc & Hall) d Hd1 Hd2.
    set (r := fst d).
    assert (Hr : drawable s r).
    { apply (Hdraw i). apply boundary_rangeString; [exact Hb | lia]. }
    destruct (appendGlyphsForLine_body_returns s line indexOffset ll i r st1 Hr)
      as (oimg & Eimg & ->).
    assert (Hky : fixed.Y (kerned s ll r) = oy).
    { unfold kerned. destruct (0 <=? ll_prevR ll); simpl; exact Hy. }
    eexists. eexists. split; [reflexivity |].
    split; [simpl; exact Hky |].
    split; [intros l Hl; rewrite lookup_insert_ne by congruence; apply Hf1; exact Hl |].
    simpl.
    destruct oimg as [img |].
    + exists (new ++ [glyphAt s line indexOffset i r (kerned s ll r) (Some img)]).
      split; [rewrite Hnew, app_assoc; reflexivity |].
      split.
      * eapply ascending_snoc; [exact Hasc | simpl; lia | simpl; fold d; lia
                               | simpl; fold d; lia].
      * apply Forall_app. split; [exact Hall |]. apply Forall_singleton.
        exists i, r. split; [apply boundary_rangeString; [exact Hb | lia] |].
        split; [reflexivity |]. split; [reflexivity |]. split; [simpl; eauto |].
        simpl. rewrite Hky. reflexivity.
    + exists new. split; [exact Hnew |].
      split; [eapply ascending_weaken; [exact Hasc | lia] | exact Hall].
  - exists new, st'.
    change (mbind ?k ?x) with (M_bind x k). unfold M_bind. rewrite Hloop. simpl.
    rewrite Hnew. repeat split; assumption.
Qed.

(** X4. On a StdFace that was not copied, for a line the image of whose
    runes can be made, whatever the cache holds, [appendGlyphsForLine]
    returns: the glyphs it was given come first, unchanged; the glyphs it
    adds are glyphs of runes of the line, with the byte range of their rune
    moved by [indexOffset], in increasing order without overlap, each with
    an image and with the y coordinate of the line; and no cache but that of
    the face is touched. *)
Theorem StdFace_line_glyphs (s : StdFace) (glyphs : list Glyph)
    (line : gostring) (indexOffset : Z) (originX originY : float64) (st : Store) :
  addr s = self s ->
  lineDrawable s line ->
  exists new st',
    StdFace_appendGlyphsForLine s glyphs line indexOffset originX originY st
      = (Ok (glyphs ++ new), st') /\
    (forall l, l <> self s -> st' !! l = st !! l) /\
    ascending indexOffset new (indexOffset + len line) /\
    Forall (lineGlyph s line indexOffset originY) new.
Proof.
  intros Haddr Hdraw. apply StdFace_line_glyphs_any; assumption.
Qed.

(** The image of a rune can be made, or [glyphImageImpl] panics for the
    rune at every sub-pixel offset. *)
Lemma drawable_or_panics (s : StdFace) (r : rune) :
  drawable s r \/
  exists msg, forall sub, glyphImageImpl s r sub (boundsOf s r) = Panic msg.
Proof.
  unfold drawable, glyphImageImpl. cbv zeta.
  destruct (_ || _); [left; intros sub; eexists; reflexivity |].
  cbv [mbind Res_mbind]. unfold ebiten_NewImageFromImage.
  destruct (Dx _ <=? 0); [right; eexists; intros sub; reflexivity |].
  destruct (Dy _ <=? 0); [right; eexists; intros sub; reflexivity |].
  left. intros sub. eexists. reflexivity.
Qed.

(** With a cache that holds only images made by [glyphImageImpl], the loop
    of [appendGlyphsForLine] panics when it meets a rune whose image cannot
    be made: such a rune is never in the cache. *)
Lemma line_loop_undrawable (s : StdFace) (line : gostring) (indexOffset : Z)
    (l : list (Z * rune)) (ll : lineLoop) (st : Store) :
  cacheSound s (cacheOf st (self s)) ->
  (exists j r, (j, r) ∈ l /\ ~ drawable s r) ->
  exists msg st',
    M_foldl (appendGlyphsForLine_body s line indexOffset) l ll st = (Panic msg, st') /\
    cacheSound s (cacheOf st' (self s)).
Proof.
  revert ll st. induction l as [|[i r] l IH]; intros ll st Hs (j & r' & Hin & Hbad).
  - inversion Hin.
  - cbn [M_foldl]. unfold M_bind.
    set (origin := kerned s ll r).
    destruct (drawable_or_panics s r) as [Hd | [msg Hp]].
    + destruct (appendGlyphsForLine_body_returns s line indexOffset ll i r st Hd)
        as (oimg & Eimg & ->).
      destruct (getOrCreate_sound s (cacheOf st (self s)) r
                  (key_xoffset (glyphKey s r origin))
                  (subpixelOffsetOf (quantize s origin) (boundsOf s r)) Hs)
        as [Hs2 _].
      change {| key_rune := r; key_xoffset := key_xoffset (glyphKey s r origin) |}
        with (glyphKey s r origin) in Hs2.
      apply IH.
      * rewrite cacheOf_insert. exact Hs2.
      * exists j, r'. split; [| exact Hbad].
        apply elem_of_cons in Hin. destruct Hin as [[= -> ->] | Hin]; [| exact Hin].
        contradiction.
    + rewrite appendGlyphsForLine_body_unfold. cbv zeta. fold origin.
      assert (E : cacheOf st (self s) !! glyphKey s r origin = None).
      { destruct (cacheOf st (self s) !! glyphKey s r origin) as [img |] eqn:E;
          [| reflexivity].
        destruct (Hs _ _ E) as (sub & Hsub). simpl in Hsub.
        rewrite Hp in Hsub. discriminate. }
      rewrite (getOrCreate_panics _ _ _ msg E (Hp _)). simpl.
      exists msg, st. split; [reflexivity | exact Hs].
Qed.

Lemma StdFace_line_undrawable (s : StdFace) (glyphs : list Glyph)
    (line : gostring) (indexOffset : Z) (originX originY : float64) (st : Store) :
  addr s = self s ->
  cacheSound s (cacheOf st (self s)) ->
  (exists j r, (j, r) ∈ utf8.rangeString line /\ ~ drawable s r) ->
  exists msg st',
    StdFace_appendGlyphsForLine s glyphs line indexOffset originX originY st
      = (Panic msg, st') /\
    cacheSound s (cacheOf st' (self s)).
Proof.
  intros Haddr Hsound Hbad.
  unfold StdFace_appendGlyphsForLine.
  change (mbind ?k ?x) with (M_bind x k). unfold M_bind at 1. unfold M_lift, copyCheck.
  destruct (decide (addr s = self s)) as [_ | Hne]; [| contradiction].
  match goal with
  | |- context [M_foldl ?body ?l ?ll0] =>
      destruct (line_loop_undrawable s line indexOffset l ll0 st Hsound Hbad)
        as (msg & st' & Hloop & Hs')
  end.
  exists msg, st'. split; [| exact Hs'].
  change (mbind ?k ?x) with (M_bind x k). unfold M_bind. rewrite Hloop. reflexivity.
Qed.

Lemma glyphImageImpl_inkless (s : StdFace) (r : rune) (sub : fixed.Point26_6) :
  glyphImageImpl s r sub (boundsOf s r) = Ok None <-> inkless s r = true.
Proof.
  unfold glyphImageImpl, inkless. cbv zeta.
  destruct (_ || _); split; intros E; try reflexivity; try discriminate.
  cbv [mbind Res_mbind] in E.
  destruct (ebiten_NewImageFromImage _ _ _); discriminate.
Qed.

(** X5. On a StdFace that was not copied, with a cache that holds only
    images made by [glyphImageImpl]: for a line the image of whose runes can
    be made, the glyphs that [appendGlyphsForLine] adds are, in order, one
    for every rune of the line whose ink bounds pass the test of
    [glyphImageImpl] (ceiling of the width and of the height not zero), with
    the byte range of the rune moved by [indexOffset], and none for another
    rune; for a line with a rune whose image cannot be made,
    [appendGlyphsForLine] panics. The cache stays as required in both
    cases. *)
Theorem StdFace_line_glyph_ranges (s : StdFace) (glyphs : list Glyph)
    (line : gostring) (indexOffset : Z) (originX originY : float64) (st : Store) :
  addr s = self s ->
  cacheSound s (cacheOf st (self s)) ->
  (lineDrawable s line ->
   exists new st',
     StdFace_appendGlyphsForLine s glyphs line indexOffset originX originY st
       = (Ok (glyphs ++ new), st') /\
     cacheSound s (cacheOf st' (self s)) /\
     map (fun g => (StartIndexInBytes g, EndIndexInBytes g)) new =
     map (fun ir => runeRange line indexOffset ir.1)
         (filter (fun ir => inkless s ir.2 = false) (utf8.rangeString line))) /\
  ((exists j r, (j, r) ∈ utf8.rangeString line /\ ~ drawable s r) ->
   exists msg st',
     StdFace_appendGlyphsForLine s glyphs line indexOffset originX originY st
       = (Panic msg, st') /\
     cacheSound s (cacheOf st' (self s))).
Proof.
  intros Haddr Hsound.
  split; [intros Hdraw | apply StdFace_line_undrawable; assumption].
  unfold StdFace_appendGlyphsForLine.
  change (mbind ?k ?x) with (M_bind x k). unfold M_bind at 1. unfold M_lift, copyCheck.
  destruct (decide (addr s = self s)) as [_ | Hne]; [| contradiction].
  assert (G : forall ll st0,
             cacheSound s (cacheOf st0 (self s)) ->
             exists ll' st' new,
               M_foldl (appendGlyphsForLine_body s line indexOffset)
                       (utf8.rangeString line) ll st0 = (Ok ll', st') /\
               cacheSound s (cacheOf st' (self s)) /\
               ll_glyphs ll' = ll_glyphs ll ++ new /\
               map (fun g => (StartIndexInBytes g, EndIndexInBytes g)) new =
               map (fun ir => runeRange line indexOffset ir.1)
                   (filter (fun ir => inkless s ir.2 = false) (utf8.rangeString line))).
  { apply (rangeString_ind line
             (fun _ l => forall ll st0,
                cacheSound s (cacheOf st0 (self s)) ->
                exists ll' st' new,
                  M_foldl (appendGlyphsForLine_body s line indexOffset) l ll st0
                    = (Ok ll', st') /\
                  cacheSound s (cacheOf st' (self s)) /\
                  ll_glyphs ll' = ll_glyphs ll ++ new /\
                  map (fun g => (StartIndexInBytes g, EndIndexInBytes g)) new =
                  map (fun ir => runeRange line indexOffset ir.1)
                      (filter (fun ir => inkless s ir.2 = false) l))).
    - intros ll st0 Hs. exists ll, st0, []. repeat split; [exact Hs |].
      simpl. rewrite app_nil_r. reflexivity.
    - intros i l Hb Hi d Hd1 Hd2 IH ll st0 Hs.
      cbn [M_foldl]. unfold M_bind.
      set (r := fst d).
      set (origin := kerned s ll r).
      assert (Hr : drawable s r).
      { apply (Hdraw i). apply boundary_rangeString; [exact Hb | lia]. }
      destruct (appendGlyphsForLine_body_returns s line indexOffset ll i r st0 Hr)
        as (oimg & Eimg & ->).
      destruct (getOrCreate_sound s (cacheOf st0 (self s)) r
                  (key_xoffset (glyphKey s r origin))
                  (subpixelOffsetOf (quantize s origin) (boundsOf s r)) Hs)
        as [Hs2 Himg].
      change {| key_rune := r; key_xoffset := key_xoffset (glyphKey s r origin) |}
        with (glyphKey s r origin) in Hs2, Himg.
      destruct (Himg oimg Eimg) as (sub' & Hsub').
      rewrite filter_cons. cbn [snd].
      match goal with
      | |- context [M_foldl _ l ?ll1 ?st1] =>
          destruct (IH ll1 st1) as (ll' & st' & new & Hloop & Hs' & Hg & Hmap)
      end.
      { rewrite cacheOf_insert. exact Hs2. }
      exists ll', st'.
      destruct (decide (inkless s r = false)) as [Hink | Hink].
      + destruct oimg as [img |].
        * exists (glyphAt s line indexOffset i r origin (Some img) :: new).
          split; [exact Hloop |]. split; [exact Hs' |].
          split; [rewrite Hg; simpl; rewrite <- app_assoc; reflexivity |].
          simpl. rewrite Hmap. reflexivity.
        * apply glyphImageImpl_inkless in Hsub'. congruence.
      + assert (Hnil : inkless s r = true) by (destruct (inkless s r); congruence).
        apply (glyphImageImpl_inkless s r sub') in Hnil.
        rewrite Hnil in Hsub'. injection Hsub' as <-.
        exists new. split; [exact Hloop |]. split; [exact Hs' |].
        split; [| exact Hmap].
        rewrite Hg. simpl. reflexivity. }
  set (ll0 := {| ll_glyphs := glyphs;
                 ll_origin := {| fixed.X := float64ToFixed26_6 originX;
                                 fixed.Y := float64ToFixed26_6 originY |};
                 ll_prevR := -1 |}).
  destruct (G ll0 st Hsound) as (ll' & st' & new & Hloop & Hs' & Hg & Hmap).
  exists new, st'.
  change (mbind ?k ?x) with (M_bind x k). unfold M_bind. rewrite Hloop. simpl.
  rewrite Hg. repeat split; assumption.
Qed.

End line_glyphs.

(** ** Glyph images *)

Lemma wrap32_mod64 (z : Z) : fixed.wrap32 z mod 64 = z mod 64.
Proof.
  unfold fixed.wrap32.
  pose proof (Z.div_mod (z + 2 ^ 31) (2 ^ 32) ltac:(lia)) as Hdm.
  replace ((z + 2 ^ 31) mod 2 ^ 32 - 2 ^ 31)
    with (z + (- (2 ^ 26 * ((z + 2 ^ 31) / 2 ^ 32))) * 64) by lia.
  apply Z.mod_add. lia.
Qed.

Lemma ldiff_63_mod64 (y : Z) : Z.ldiff y 63 mod 64 = 0.
Proof.
  change 63 with (Z.ones 6). rewrite Z.ldiff_ones_r by lia.
  rewrite Z.shiftl_mul_pow2 by lia. change (2 ^ 6) with 64.
  apply Z.mod_mul. lia.
Qed.

Section glyph_images.
Context `{Platform} `{Granularity}.

(** X6. For ink bounds whose width w and height h (in 64ths of a pixel)
    do not overflow: [glyphImageImpl] returns nil exactly when w or h lies
    from -63 to 0; for positive w and h it returns an image of the rune
    whose width and height in pixels are the ceilings of w/64 and h/64 plus
    one, so that the ink fits at every sub-pixel offset below one pixel. It
    panics exactly when it does not return nil and w or h lies from -127 to
    -64: the ceiling is then -1, and the image to make has no width or no
    height. *)
Theorem glyphImageImpl_size (s : StdFace) (r : rune)
    (sub : fixed.Point26_6) (b : fixed.Rectangle26_6) :
  let w := fixed.X (fixed.Max b) - fixed.X (fixed.Min b) in
  let h := fixed.Y (fixed.Max b) - fixed.Y (fixed.Min b) in
  - 2 ^ 31 <= w <= 2 ^ 31 - 64 ->
  - 2 ^ 31 <= h <= 2 ^ 31 - 64 ->
  (glyphImageImpl s r sub b = Ok None <-> (-63 <= w <= 0 \/ -63 <= h <= 0)) /\
  (0 < w -> 0 < h ->
   exists img,
     glyphImageImpl s r sub b = Ok (Some img) /\
     img_rune img = r /\
     w + 64 <= 64 * img_w img < w + 128 /\
     h + 64 <= 64 * img_h img < h + 128 /\
     (forall dx dy, 0 <= dx < 64 -> 0 <= dy < 64 ->
                    dx + w < 64 * img_w img /\ dy + h < 64 * img_h img)) /\
  ((exists msg, glyphImageImpl s r sub b = Panic msg) <->
   ~ (-63 <= w <= 0 \/ -63 <= h <= 0) /\ (-127 <= w <= -64 \/ -127 <= h <= -64)).
Proof.
  intros w h Hw Hh.
  unfold glyphImageImpl. rewrite !Ceil_sub by assumption. fold w h. cbv zeta.
  pose proof (Z.div_mod (w + 63) 64 ltac:(lia)) as Hdw.
  pose proof (Z.mod_pos_bound (w + 63) 64 ltac:(lia)) as Hmw.
  pose proof (Z.div_mod (h + 63) 64 ltac:(lia)) as Hdh.
  pose proof (Z.mod_pos_bound (h + 63) 64 ltac:(lia)) as Hmh.
  destruct (Z.eqb_spec ((w + 63) / 64) 0) as [Ew | Ew];
    destruct (Z.eqb_spec ((h + 63) / 64) 0) as [Eh | Eh]; simpl.
  - split; [split; [intros _; lia | reflexivity] |].
    split; [intros; lia |]. split; [intros [msg E]; discriminate | intros [Hn _]; lia].
  - split; [split; [intros _; lia | reflexivity] |].
    split; [intros; lia |]. split; [intros [msg E]; discriminate | intros [Hn _]; lia].
  - split; [split; [intros _; lia | reflexivity] |].
    split; [intros; lia |]. split; [intros [msg E]; discriminate | intros [Hn _]; lia].
  - cbv [mbind Res_mbind].
    match goal with
    | |- context [ebiten_NewImageFromImage ?rect ?dot r] =>
        destruct (NewImageFromImage_Rect ((w + 63) / 64 + 1) ((h + 63) / 64 + 1) dot r)
          as [Hok Hpanic]
    end.
    destruct (decide ((w + 63) / 64 + 1 = 0 \/ (h + 63) / 64 + 1 = 0)) as [Hz | Hnz].
    + destruct (Hpanic Hz) as [msg ->]. simpl.
      split; [split; [discriminate | intros [? | ?]; lia] |].
      split; [intros; lia |].
      split; [intros _; lia | intros _; exists msg; reflexivity].
    + rewrite Hok by lia. simpl.
      split; [split; [discriminate | intros [? | ?]; lia] |].
      split.
      * intros Hwp Hhp. eexists. split; [reflexivity |].
        unfold img_w, img_h, Dx, Dy, image_Rect. simpl.
        split; [reflexivity |]. split; [lia |]. split; [lia |].
        intros dx dy Hdx Hdy. lia.
      * split; [intros [msg E]; discriminate | intros [_ Hr]; lia].
Qed.

Lemma subpixelOffsetOf_Y (s : StdFace) (r : rune) (origin : fixed.Point26_6) :
  fixed.Y (subpixelOffsetOf (quantize s origin) (boundsOf s r)) =
  Z.land (fixed.Y (fixed.Min (boundsOf s r))) 63.
Proof.
  unfold subpixelOffsetOf, quantize. simpl.
  change (Z.shiftl 1 6 - 1) with (Z.ones 6).
  change 63 with (Z.ones 6).
  rewrite !Z.land_ones by lia. change (2 ^ 6) with 64.
  unfold fixed.add. rewrite wrap32_mod64.
  rewrite Z.add_mod by lia.
  change (Z.ones 6) with 63. rewrite ldiff_63_mod64.
  rewrite Z.add_0_l. apply Z.mod_mod. lia.
Qed.

Lemma subpixelOffsetOf_key (s : StdFace) (r : rune) (origin : fixed.Point26_6) :
  subpixelOffsetOf (quantize s origin) (boundsOf s r) =
  {| fixed.X := key_xoffset (glyphKey s r origin);
     fixed.Y := Z.land (fixed.Y (fixed.Min (boundsOf s r))) 63 |}.
Proof.
  rewrite <- (subpixelOffsetOf_Y s r origin). reflexivity.
Qed.

(** X7. The vertical sub-pixel offset at which [glyphImage] has a rune
    rasterized is the same at every origin: it is given by the ink bounds of
    the rune alone. So the cache key, which holds the rune and the
    horizontal offset only, fixes the image: two origins with the same key
    ask [glyphImageImpl] for the same image. *)
Theorem glyphKey_fixes_image (s : StdFace) (r : rune) :
  (forall origin,
      fixed.Y (subpixelOffsetOf (quantize s origin) (boundsOf s r)) =
      Z.land (fixed.Y (fixed.Min (boundsOf s r))) 63) /\
  (forall origin1 origin2,
      glyphKey s r origin1 = glyphKey s r origin2 ->
      glyphImageImpl s r (subpixelOffsetOf (quantize s origin1) (boundsOf s r))
                     (boundsOf s r) =
      glyphImageImpl s r (subpixelOffsetOf (quantize s origin2) (boundsOf s r))
                     (boundsOf s r)).
Proof.
  split; [apply subpixelOffsetOf_Y |].
  intros o1 o2 Hkey.
  rewrite !subpixelOffsetOf_key, Hkey. reflexivity.
Qed.

(** X8. With a cache in which every entry is the image that
    [glyphImageImpl] makes for its key, [glyphImage] does what
    [glyphImageImpl] does for the rune at the present origin, whether the
    image was cached or not: it returns the image that [glyphImageImpl]
    makes, with the draw coordinates and the advance, or passes on the panic
    of [glyphImageImpl]. The cache stays such a cache, keeps every entry it
    had, and no other cache is touched. ([getOrCreate] is taken by its
    contract: the cached image if there is one, else the created one, then
    stored.) *)
Theorem glyphImage_cache_transparent (s : StdFace) (r : rune)
    (origin : fixed.Point26_6) (st : Store) :
  cacheExact s (cacheOf st (self s)) ->
  let q := quantize s origin in
  let b := boundsOf s r in
  exists st',
    glyphImage s r origin st =
      (img ← glyphImageImpl s r (subpixelOffsetOf q b) b;
       Ok (img,
           fixed.Floor (fixed.add (fixed.X q) (fixed.X (fixed.Min b))),
           fixed.Floor (fixed.add (fixed.Y q) (fixed.Y (fixed.Min b))),
           advanceOf s r), st') /\
    cacheExact s (cacheOf st' (self s)) /\
    (forall key img, cacheOf st (self s) !! key = Some img ->
                     cacheOf st' (self s) !! key = Some img) /\
    (forall l, l <> self s -> st' !! l = st !! l).
Proof.
  intros Hex q b. rewrite glyphImage_unfold. cbv zeta. fold q b.
  unfold getOrCreate.
  destruct (cacheOf st (self s) !! glyphKey s r origin) as [img |] eqn:E; simpl.
  - exists (<[self s := cacheOf st (self s)]> st).
    split.
    + pose proof (Hex _ _ E) as Himg.
      change (glyphImageImpl s r
                {| fixed.X := key_xoffset (glyphKey s r origin);
                   fixed.Y := Z.land (fixed.Y (fixed.Min (boundsOf s r))) 63 |}
                (boundsOf s r) = Ok img) in Himg.
      unfold q, b. rewrite subpixelOffsetOf_key. rewrite Himg. reflexivity.
    + rewrite cacheOf_insert. split; [exact Hex |]. split; [tauto |].
      intros l Hl. apply lookup_insert_ne. congruence.
  - destruct (glyphImageImpl s r (subpixelOffsetOf q b) b) as [img | msg] eqn:Ei; simpl.
    + eexists. split; [reflexivity |]. rewrite cacheOf_insert.
      split; [| split].
      * intros key img' Hk.
        destruct (decide (key = glyphKey s r origin)) as [-> | Hne].
        -- rewrite lookup_insert_eq in Hk. injection Hk as <-.
           unfold q, b in Ei. rewrite subpixelOffsetOf_key in Ei. exact Ei.
        -- rewrite lookup_insert_ne in Hk by congruence. apply (Hex _ _ Hk).
      * intros key img' Hk.
        destruct (decide (key = glyphKey s r origin)) as [-> | Hne]; [congruence |].
        rewrite lookup_insert_ne by congruence. exact Hk.
      * intros l Hl. apply lookup_insert_ne. congruence.
    + exists st. split; [reflexivity |]. split; [exact Hex |]. split; [tauto |].
      reflexivity.
Qed.

End glyph_images.

(** ** Lines without glyphs *)

Section no_glyph.
Context `{Platform}.

Lemma firstFace_hasGlyph (m : MultiFace) (i : Z) (r : rune) :
  0 <= i -> (firstFace m i r = -1 <-> MultiFace_hasGlyph m r = false).
Proof.
  revert i. induction m as [|f m IH]; intros i Hi; simpl.
  - split; reflexivity.
  - destruct (hasGlyph f r); simpl.
    + split; [lia | discriminate].
    + apply IH. lia.
Qed.

Lemma splitText_all_sentinel (m : MultiFace) (line : gostring) :
  (forall j r, (j, r) ∈ utf8.rangeString line -> MultiFace_hasGlyph m r = false) ->
  splitText m line =
  if len line =? 0 then []
  else [ {| textStartIndex := 0; textEndIndex := len line; faceIndex := -1 |} ].
Proof.
  intros Hno. unfold splitText.
  apply (rangeString_fold_ind line
           (fun i cs => 0 <= i /\
              cs = if i =? 0 then []
                   else [ {| textStartIndex := 0; textEndIndex := i;
                             faceIndex := -1 |} ])).
  - split; [lia | reflexivity].
  - intros i cs Hb Hi [_ Hcs] d Hd1 Hd2.
    assert (Hfi : firstFace m 0 (fst d) = -1).
    { apply firstFace_hasGlyph; [lia |]. apply (Hno i).
      apply boundary_rangeString; [exact Hb | lia]. }
    split; [lia |].
    destruct (Z.eqb_spec (i + snd d) 0) as [E | _]; [lia |].
    destruct (Z.eqb_spec i 0) as [-> | Hi0]; subst cs.
    + rewrite splitText_body_nil. fold d. rewrite Hfi. reflexivity.
    + change [ {| textStartIndex := 0; textEndIndex := i; faceIndex := -1 |} ]
        with ([] ++ [ {| textStartIndex := 0; textEndIndex := i; faceIndex := -1 |} ]).
      rewrite splitText_body_snoc. cbv zeta. fold d. rewrite Hfi. reflexivity.
Qed.

(** X9. For a line none of whose runes has a glyph in a face of the
    MultiFace (so for every line when the MultiFace is empty, and for the
    empty line): [splitText] returns no chunk for the empty line and else
    the one sentinel chunk over the whole line; [advance] is zero;
    [appendGlyphsForLine] returns the glyphs it was given and leaves the
    store as it was; [appendVectorPathForLine] leaves the path as it was.
    None of them panics. *)
Theorem MultiFace_line_without_glyphs (m : MultiFace) (line : gostring) :
  (forall j r, (j, r) ∈ utf8.rangeString line -> MultiFace_hasGlyph m r = false) ->
  splitText m line =
    (if len line =? 0 then []
     else [ {| textStartIndex := 0; textEndIndex := len line; faceIndex := -1 |} ]) /\
  MultiFace_advance m line = Ok f64_zero /\
  (forall glyphs indexOffset originX originY st,
      MultiFace_appendGlyphsForLine m glyphs line indexOffset originX originY st
      = (Ok glyphs, st)) /\
  (forall path originX originY,
      MultiFace_appendVectorPathForLine m path line originX originY = Ok path).
Proof.
  intros Hno. pose proof (splitText_all_sentinel m line Hno) as Hsplit.
  split; [exact Hsplit |].
  unfold MultiFace_advance, MultiFace_appendGlyphsForLine,
    MultiFace_appendVectorPathForLine.
  rewrite Hsplit. destruct (len line =? 0); repeat split; reflexivity.
Qed.

End no_glyph.

(** ** Lines whose runes all have a glyph *)

Section covered_lines.
Context `{Platform} `{Granularity}.

Lemma ascending_app (lo mid hi : Z) (g1 g2 : list Glyph) :
  ascending lo g1 mid -> ascending mid g2 hi -> ascending lo (g1 ++ g2) hi.
Proof.
  revert lo. induction g1 as [|g g1 IH]; intros lo; simpl.
  - intros Hlo H2. destruct g2 as [|g g2]; simpl in *; [lia |].
    destruct H2 as (Ha & Hb & Hc). repeat split; [lia | exact Hb | exact Hc].
  - intros (Ha & Hb & Hc) H2. repeat split; [exact Ha | exact Hb |].
    apply IH; assumption.
Qed.

Lemma StdFace_orderly (s : StdFace) :
  addr s = self s -> (forall r, drawable s r) -> orderly (StdFace_Face s).
Proof.
  intros Haddr Hdraw t. split; [eexists; reflexivity |].
  intros glyphs io ox oy st.
  destruct (StdFace_line_glyphs_any s glyphs t io ox oy st Haddr)
    as (new & st' & Hrun & _ & Hasc & Hall).
  { intros j r _. apply Hdraw. }
  exists new, st'. split; [exact Hrun |]. split; [exact Hasc |].
  eapply Forall_impl; [exact Hall |].
  intros g (j & r & Hjr & Hstart & Hend & _).
  destruct (rangeString_boundary _ _ _ Hjr) as (Hb & Hj & _).
  assert (Hne : drop (Z.to_nat j) t <> []).
  { intros E. apply drop_nil_len in E; lia. }
  pose proof (DecodeRuneInString_size _ Hne) as Hsz.
  rewrite len_drop in Hsz by lia.
  exists j. cbv zeta. repeat split; try assumption; lia.
Qed.

Lemma splitText_faces_of_runes (m : MultiFace) (text : gostring) :
  Forall (fun c => exists j r, (j, r) ∈ utf8.rangeString text /\
                               faceIndex c = firstFace m 0 r)
         (splitText m text).
Proof.
  unfold splitText.
  apply (rangeString_fold_ind text
           (fun _ cs =>
              Forall (fun c => exists j r, (j, r) ∈ utf8.rangeString text /\
                                           faceIndex c = firstFace m 0 r) cs)).
  - constructor.
  - intros i cs Hb Hi Hall d Hd1 Hd2.
    assert (Hin : (i, fst d) ∈ utf8.rangeString text)
      by (apply boundary_rangeString; [exact Hb | lia]).
    destruct cs as [|c cs' _] using rev_ind.
    + rewrite splitText_body_nil. apply Forall_singleton. simpl. eauto.
    + rewrite splitText_body_snoc. cbv zeta.
      apply Forall_app in Hall. destruct Hall as [Hall Hc].
      rewrite Forall_singleton in Hc.
      destruct (faceIndex c =? firstFace m 0 (fst d)).
      * apply Forall_app. split; [exact Hall |]. apply Forall_singleton. exact Hc.
      * apply Forall_app. split; [exact Hall |].
        apply Forall_cons. split; [exact Hc |]. apply Forall_singleton. simpl. eauto.
Qed.

Lemma splitText_all_sourced (m : MultiFace) (line : gostring) :
  (forall j r, (j, r) ∈ utf8.rangeString line -> MultiFace_hasGlyph m r = true) ->
  Forall isSourced (splitText m line).
Proof.
  intros Hall. eapply Forall_impl; [apply splitText_faces_of_runes |].
  intros c (j & r & Hjr & Hfi) Hsent. unfold isSourced in *.
  rewrite Hfi in Hsent. apply firstFace_hasGlyph in Hsent; [| lia].
  rewrite (Hall j r Hjr) in Hsent. discriminate.
Qed.

Lemma MultiFace_orderly_loop (m : MultiFace) (line : gostring) (io : Z) :
  Forall orderly m ->
  forall (cs : list textChunk) (a b : Z),
    contiguous a cs b -> 0 <= a -> b <= len line ->
    Forall isSourced cs -> Forall (faceIndexOk m) cs ->
    Forall (wholeRunes line) cs ->
    forall (cl : chunkLoop) (st : Store),
      cl_indexOffset cl = io + a ->
      exists new cl' st',
        M_foldl (MultiFace_appendGlyphsForLine_body m line) cs cl st = (Ok cl', st') /\
        cl_glyphs cl' = cl_glyphs cl ++ new /\
        ascending (io + a) new (io + b) /\
        Forall (rangeOk line io) new.
Proof.
  intros Hm. induction cs as [|c cs IH]; intros a b Hc Ha Hb Hsrc Hfi Hwr cl st Hoff.
  - simpl in Hc. subst b. exists [], cl, st.
    repeat split; [symmetry; apply app_nil_r | simpl; lia | constructor].
  - simpl in Hc. destruct Hc as (Hstart & Hlt & Hc).
    destruct (contiguous_lower _ _ _ Hc) as [Hle _].
    apply Forall_cons in Hsrc. destruct Hsrc as [Hs Hsrc].
    apply Forall_cons in Hfi. destruct Hfi as [[Hsent | (f & Hf)] Hfi]; [contradiction |].
    apply Forall_cons in Hwr. destruct Hwr as [[Hbs Hch] Hwr].
    assert (Ht : exists t, chunkText line c = Ok t).
    { unfold chunkText, slice.
      destruct (0 <=? textStartIndex c) eqn:E1; [| apply Z.leb_gt in E1; lia].
      destruct (textStartIndex c <=? textEndIndex c) eqn:E2; [| apply Z.leb_gt in E2; lia].
      destruct (textEndIndex c <=? len line) eqn:E3; [| apply Z.leb_gt in E3; lia].
      simpl. eauto. }
    destruct Ht as [t Ht].
    destruct (slice_drop _ _ _ _ 0 Ht) as (_ & _ & _ & Hlen & _); [lia |].
    assert (Hff : orderly f).
    { rewrite Forall_forall in Hm. apply Hm. eapply index_elem_of. exact Hf. }
    destruct (Hff t) as [[adv Hadv] Happ].
    destruct (Happ (cl_glyphs cl) (cl_indexOffset cl) (cl_originX cl) (cl_originY cl) st)
      as (new1 & st1 & Hrun & Hasc1 & Hall1).
    cbn [M_foldl].
    rewrite (MultiFace_body_run m line cl c cs f t _ adv st st1 Hs Hf Ht Hrun Hadv).
    match goal with
    | |- context [M_foldl _ cs ?cl1 st1] =>
        destruct (IH (textEndIndex c) b Hc ltac:(lia) Hb Hsrc Hfi Hwr cl1 st1)
          as (new2 & cl' & st' & Hloop & Hg & Hasc2 & Hall2)
    end.
    { simpl. lia. }
    exists (new1 ++ new2), cl', st'.
    split; [exact Hloop |]. split; [rewrite Hg; simpl; symmetry; apply app_assoc |].
    split.
    + apply (ascending_app _ (io + textEndIndex c)); [| exact Hasc2].
      rewrite Hoff, Hlen in Hasc1.
      replace (io + a + (textEndIndex c - textStartIndex c))
        with (io + textEndIndex c) in Hasc1 by lia.
      exact Hasc1.
    + apply Forall_app. split; [| exact Hall2].
      eapply Forall_impl; [exact Hall1 |]. intros g Hg1.
      rewrite Hoff, <- Hstart in Hg1.
      eapply rangeOk_substring; eassumption.
Qed.

(** X10. For a MultiFace of faces whose glyphs are in order and keep the
    byte-range fidelity, as is every StdFace that was not copied and whose
    font has only runes whose image can be made, and a line every rune of
    which has a glyph in one of the faces: [appendGlyphsForLine] returns the
    glyphs it was given followed by glyphs whose byte ranges, less
    [indexOffset], are ranges of single runes of the whole line, in
    increasing order without overlap. *)
Theorem MultiFace_covered_line_glyphs (m : MultiFace) (glyphs : list Glyph)
    (line : gostring) (indexOffset : Z) (originX originY : float64) (st : Store) :
  (forall s, addr s = self s -> (forall r, drawable s r) ->
             orderly (StdFace_Face s)) /\
  (Forall orderly m ->
   (forall j r, (j, r) ∈ utf8.rangeString line -> MultiFace_hasGlyph m r = true) ->
   exists new st',
     MultiFace_appendGlyphsForLine m glyphs line indexOffset originX originY st
       = (Ok (glyphs ++ new), st') /\
     ascending indexOffset new (indexOffset + len line) /\
     Forall (rangeOk line indexOffset) new).
Proof.
  split; [apply StdFace_orderly |].
  intros Hm Hcov.
  destruct (MultiFace_orderly_loop m line indexOffset Hm (splitText m line)
              0 (len line) (splitText_contiguous m line) ltac:(lia) ltac:(lia)
              (splitText_all_sourced m line Hcov)
              (splitText_faceIndexOk m line) (splitText_wholeRunes m line)
              {| cl_glyphs := glyphs; cl_indexOffset := indexOffset;
                 cl_originX := originX; cl_originY := originY |} st)
    as (new & cl' & st' & Hloop & Hg & Hasc & Hall).
  { simpl. lia. }
  exists new, st'. split; [| split; [| exact Hall]].
  - unfold MultiFace_appendGlyphsForLine.
    change (mbind ?k ?x) with (M_bind x k). unfold M_bind.
    rewrite Hloop. simpl. rewrite Hg. reflexivity.
  - rewrite Z.add_0_r in Hasc. exact Hasc.
Qed.

End covered_lines.

(** ** Paths *)

Section paths.
Context `{Platform} `{Granularity}.

Lemma sumAdvances_returns (parts : list (Face * gostring)) :
  Forall (fun ft => exists a, advance ft.1 ft.2 = Ok a) parts ->
  forall a, exists a',
    Res_foldl (fun a ft => x ← advance (fst ft) (snd ft); Ok (f64_add a x)) parts a
    = Ok a'.
Proof.
  induction parts as [|[f t] parts IH]; intros Hall a.
  - exists a. reflexivity.
  - apply Forall_cons in Hall. destruct Hall as [[x Hx] Hall].
    cbn [Res_foldl]. simpl in Hx. cbv [mbind Res_mbind]. simpl. rewrite Hx. simpl.
    apply (IH Hall).
Qed.

Lemma MultiFace_advance_returns (m : MultiFace) (text : gostring) :
  Forall pathInert m -> exists a, MultiFace_advance m text = Ok a.
Proof.
  intros Hm.
  destruct (MultiFace_advance_loop m text (splitText m text)
              (splitText_faceIndexOk m text) (splitText_chunkText m text))
    as (parts & Hparts & Hloop).
  unfold MultiFace_advance. rewrite Hloop.
  apply sumAdvances_returns.
  clear Hloop. induction Hparts as [|c [f t] cs parts [Hf Ht] _ IH]; constructor.
  - simpl in *. rewrite Forall_forall in Hm.
    destruct (Hm f (index_elem_of _ _ _ Hf) t) as [Ha _].
    exact Ha.
  - exact IH.
Qed.

Lemma MultiFace_inert_loop (m : MultiFace) (line : gostring) (cs : list textChunk) :
  Forall pathInert m ->
  Forall (faceIndexOk m) cs ->
  Forall (fun c => exists t, chunkText line c = Ok t /\
                             len t = textEndIndex c - textStartIndex c) cs ->
  forall pl,
    exists pl',
      Res_foldl (MultiFace_appendVectorPathForLine_body m line) cs pl = Ok pl' /\
      pl_path pl' = pl_path pl.
Proof.
  intros Hm. induction cs as [|c cs IH]; intros Hfi Hct pl.
  - exists pl. split; reflexivity.
  - apply Forall_cons in Hfi. destruct Hfi as [Hc Hfi].
    apply Forall_cons in Hct. destruct Hct as [(t & Ht & _) Hct].
    cbn [Res_foldl]. unfold MultiFace_appendVectorPathForLine_body at 1.
    destruct (faceIndex c =? -1) eqn:E.
    + simpl. apply (IH Hfi Hct).
    + destruct Hc as [Hs | (f & Hf)]; [apply Z.eqb_neq in E; contradiction |].
      rewrite Forall_forall in Hm.
      destruct (Hm f (index_elem_of _ _ _ Hf) t) as [[a Ha] Hpath].
      cbv [mbind Res_mbind]. rewrite Hf, Ht. simpl. rewrite Hpath. simpl.
      rewrite Ha. simpl.
      match goal with
      | |- context [Res_foldl _ cs ?pl1] =>
          destruct (IH Hfi Hct pl1) as (pl' & Hloop & Hp)
      end.
      exists pl'. split; [exact Hloop | exact Hp].
Qed.

(** X11. A StdFace adds nothing to a path and its advance returns; and a
    MultiFace of faces that add nothing to a path and whose advance returns
    is such a face itself: [appendVectorPathForLine] returns with the path
    as it was, for every line, and [advance] returns. So a MultiFace of
    StdFaces, nested to any depth, never adds to a path and never panics
    there. *)
Theorem MultiFace_path_inert :
  (forall s : StdFace, pathInert (StdFace_Face s)) /\
  (forall m : MultiFace, Forall pathInert m -> pathInert (MultiFace_Face m)).
Proof.
  split.
  - intros s t. split; [eexists; reflexivity | reflexivity].
  - intros m Hm t. split; [apply MultiFace_advance_returns; exact Hm |].
    intros path ox oy. simpl. unfold MultiFace_appendVectorPathForLine.
    destruct (MultiFace_inert_loop m t (splitText m t) Hm
                (splitText_faceIndexOk m t) (splitText_chunkText m t)
                {| pl_path := path; pl_originX := ox; pl_originY := oy |})
      as (pl' & Hloop & Hp).
    cbv [mbind Res_mbind]. rewrite Hloop. simpl. rewrite Hp. reflexivity.
Qed.

(** X12. [NewStdFace] returns a face at an address that was not in use,
    with an empty cache, and leaves the caches of the other faces as they
    were. The face passes the identity check: [UnsafeInternal] gives back
    the font it was made from, [Metrics] returns the height, ascent and
    descent of the font, converted, and zero in the other fields, and
    [appendGlyphsForLine] returns for every line the image of whose runes
    can be made, and panics for a line with a rune whose image cannot be
    made. *)
Theorem NewStdFace_usable (face : font_Face) (st : Store) :
  exists s st1,
    NewStdFace face st = (Ok s, st1) /\
    st !! self s = None /\
    cacheOf st1 (self s) = ∅ /\
    (forall l, l <> self s -> st1 !! l = st !! l) /\
    UnsafeInternal s = Ok face /\
    StdFace_Metrics s =
      Ok {| Height := fixed26_6ToFloat64 (fm_Height (font_Face_Metrics face));
            HAscent := fixed26_6ToFloat64 (fm_Ascent (font_Face_Metrics face));
            HDescent := fixed26_6ToFloat64 (fm_Descent (font_Face_Metrics face));
            Width := f64_zero; VAscent := f64_zero; VDescent := f64_zero |} /\
    forall glyphs line indexOffset originX originY,
      (lineDrawable s line ->
       exists new st2,
         StdFace_appendGlyphsForLine s glyphs line indexOffset originX originY st1
         = (Ok (glyphs ++ new), st2)) /\
      ((exists j r, (j, r) ∈ utf8.rangeString line /\ ~ drawable s r) ->
       exists msg st2,
         StdFace_appendGlyphsForLine s glyphs line indexOffset originX originY st1
         = (Panic msg, st2)).
Proof.
  set (l := fresh (dom st)).
  exists {| self := l; f := face; addr := l |}, (<[l := ∅]> st).
  assert (Hc : copyCheck {| self := l; f := face; addr := l |} = Ok tt).
  { unfold copyCheck. simpl. destruct (decide (l = l)); [reflexivity | contradiction]. }
  split; [reflexivity |]. simpl.
  split; [apply not_elem_of_dom, is_fresh |].
  split; [apply cacheOf_insert |].
  split; [intros l' Hl'; apply lookup_insert_ne; congruence |].
  split; [unfold UnsafeInternal; rewrite Hc; reflexivity |].
  split; [unfold StdFace_Metrics; rewrite Hc; reflexivity |].
  intros glyphs line io ox oy. split.
  - intros Hdraw.
    destruct (StdFace_line_glyphs_any {| self := l; f := face; addr := l |}
                glyphs line io ox oy (<[l := ∅]> st) eq_refl Hdraw)
      as (new & st2 & Hrun & _).
    exists new, st2. exact Hrun.
  - intros Hbad.
    destruct (StdFace_line_undrawable {| self := l; f := face; addr := l |}
                glyphs line io ox oy (<[l := ∅]> st) eq_refl) as (msg & st2 & Hrun & _).
    + simpl. rewrite cacheOf_insert. apply cacheSound_empty.
    + exact Hbad.
    + exists msg, st2. exact Hrun.
Qed.

End paths.

(** ** Metrics of nested MultiFaces *)

Lemma Res_foldl_app {A B : Type} (body : A -> B -> Res A) (l1 l2 : list B) (a : A) :
  Res_foldl body (l1 ++ l2) a = Res_bind (Res_foldl body l1 a) (Res_foldl body l2).
Proof.
  revert a. induction l1 as [|b l1 IH]; intros a; simpl; [reflexivity |].
  destruct (body a b) as [a' | msg]; simpl; [apply IH | reflexivity].
Qed.

Lemma Metrics_ext `{Platform} (mt mt' : Metrics) :
  (forall fld, getField fld mt = getField fld mt') -> mt = mt'.
Proof.
  intros Hf. destruct mt, mt'.
  pose proof (Hf FHeight). pose proof (Hf FHAscent). pose proof (Hf FHDescent).
  pose proof (Hf FWidth). pose proof (Hf FVAscent). pose proof (Hf FVDescent).
  simpl in *. congruence.
Qed.

Section nested_metrics.
Context `{PlatformOrder}.

Lemma raise_gt (x y : float64) : f64_gt x y = true -> raise x y = x.
Proof. intros E. unfold raise. rewrite E. reflexivity. Qed.

Lemma raise_ngt (x y : float64) : f64_gt x y = false -> raise x y = y.
Proof. intros E. unfold raise. rewrite E. reflexivity. Qed.

Lemma raise_fold_from (vs : list float64) (z a : float64) :
  f64_gt z a = false ->
  raise (fold_left (fun acc v => raise v acc) vs z) a =
  fold_left (fun acc v => raise v acc) vs a.
Proof.
  revert z a. induction vs as [|v vs IH]; intros z a Hza; cbn [fold_left].
  - apply raise_ngt. exact Hza.
  - destruct (f64_gt v a) eqn:Eva.
    + assert (Evz : f64_gt v z = true).
      { destruct (f64_gt_cotrans v a z Eva) as [E | E]; [exact E | congruence]. }
      rewrite (raise_gt v z Evz), (raise_gt v a Eva).
      destruct (raise_fold_upper vs v) as [Hv _]. cbv zeta in Hv.
      apply raise_gt.
      destruct (f64_gt_cotrans v a (fold_left (fun acc v0 => raise v0 acc) vs v) Eva)
        as [E | E]; [congruence | exact E].
    + rewrite (raise_ngt v a Eva). apply IH.
      unfold raise. destruct (f64_gt v z); assumption.
Qed.

Lemma Metrics_all_or_panic (m : MultiFace) :
  (exists mts, Forall2 (fun f mt => Face_Metrics f = Ok mt) m mts) \/
  (exists msg, forall acc, Res_foldl MultiFace_Metrics_body m acc = Panic msg).
Proof.
  induction m as [|f m IH].
  - left. exists []. constructor.
  - destruct (Face_Metrics f) as [mt | msg] eqn:E.
    + destruct IH as [[mts Hall] | [msg Hp]].
      * left. exists (mt :: mts). constructor; assumption.
      * right. exists msg. intros acc. simpl.
        unfold MultiFace_Metrics_body at 1. rewrite E. simpl. apply Hp.
    + right. exists msg. intros acc. simpl.
      unfold MultiFace_Metrics_body at 1. rewrite E. reflexivity.
Qed.

Lemma Metrics_nested_step (m : MultiFace) (acc : Metrics) :
  (forall fld, f64_gt f64_zero (getField fld acc) = false) ->
  MultiFace_Metrics_body acc (MultiFace_Face m) =
  Res_foldl MultiFace_Metrics_body m acc.
Proof.
  intros Hacc. unfold MultiFace_Metrics_body at 1. simpl.
  unfold MultiFace_Metrics.
  destruct (Metrics_all_or_panic m) as [[mts Hall] | [msg Hp]].
  - destruct (MultiFace_Metrics_loop m mts zeroMetrics Hall) as (mt1 & H1 & Hf1).
    destruct (MultiFace_Metrics_loop m mts acc Hall) as (mtA & HA & HfA).
    rewrite H1, HA. simpl. f_equal. apply Metrics_ext.
    intros fld. rewrite HfA.
    replace (getField fld zeroMetrics) with f64_zero in Hf1
      by (destruct fld; reflexivity).
    rewrite <- (raise_fold_from _ f64_zero _ (Hacc fld)).
    destruct fld; simpl; rewrite <- Hf1; reflexivity.
  - rewrite !Hp. reflexivity.
Qed.

(** X13. A MultiFace used as a face of another MultiFace counts in
    [Metrics] like its faces put in its place: the metrics, and the panic
    if the [Metrics] of a face panics, are those of the flattened list. *)
Theorem MultiFace_Metrics_nested (m1 m m2 : MultiFace) :
  MultiFace_Metrics (m1 ++ MultiFace_Face m :: m2) =
  MultiFace_Metrics (m1 ++ m ++ m2).
Proof.
  unfold MultiFace_Metrics. rewrite !Res_foldl_app.
  destruct (Metrics_all_or_panic m1) as [[mts Hall] | [msg Hp]].
  - destruct (MultiFace_Metrics_loop m1 mts zeroMetrics Hall) as (acc & Hacc & Hf).
    rewrite Hacc. simpl.
    rewrite Res_foldl_app.
    rewrite Metrics_nested_step; [reflexivity |].
    intros fld. rewrite Hf.
    replace (f64_zero) with (getField fld zeroMetrics) at 1
      by (destruct fld; reflexivity).
    exact (proj1 (raise_fold_upper (map (getField fld) mts) (getField fld zeroMetrics))).
  - rewrite !Hp. reflexivity.
Qed.

End nested_metrics.

(** ** The cache does not show in the glyphs *)

Section cache_free.
Context `{Platform} `{Granularity}.

Lemma getOrCreate_exact (s : StdFace) (cache : glyphImageCache) (r : rune)
    (origin : fixed.Point26_6) :
  cacheExact s cache ->
  let b := boundsOf s r in
  let made := glyphImageImpl s r (subpixelOffsetOf (quantize s origin) b) b in
  let ic := getOrCreate cache (glyphKey s r origin) (fun _ => made) in
  ic.1 = made /\ cacheExact s ic.2.
Proof.
  intros Hex b made ic. subst ic. unfold getOrCreate.
  destruct (cache !! glyphKey s r origin) as [img0 |] eqn:E; simpl.
  - split; [| exact Hex].
    pose proof (Hex _ _ E) as Himg.
    change (glyphImageImpl s r
              {| fixed.X := key_xoffset (glyphKey s r origin);
                 fixed.Y := Z.land (fixed.Y (fixed.Min (boundsOf s r))) 63 |}
              (boundsOf s r) = Ok img0) in Himg.
    subst made b. rewrite subpixelOffsetOf_key. symmetry. exact Himg.
  - destruct made as [img | msg] eqn:Em; simpl; [| split; [reflexivity | exact Hex]].
    split; [reflexivity |].
    intros key img1 Hk.
    destruct (decide (key = glyphKey s r origin)) as [-> | Hne].
    + rewrite lookup_insert_eq in Hk. injection Hk as <-.
      subst made b. rewrite subpixelOffsetOf_key in Em. exact Em.
    + rewrite lookup_insert_ne in Hk by congruence. apply (Hex _ _ Hk).
Qed.

Lemma appendGlyphsForLine_body_exact (s : StdFace) (line : gostring)
    (indexOffset : Z) (ll : lineLoop) (ir : Z * rune) (st : Store) :
  cacheExact s (cacheOf st (self s)) ->
  exists st',
    appendGlyphsForLine_body s line indexOffset ll ir st
      = (lineStep s line indexOffset ll ir, st') /\
    cacheExact s (cacheOf st' (self s)).
Proof.
  intros Hex. destruct ir as [i r].
  rewrite appendGlyphsForLine_body_unfold. cbv zeta.
  destruct (getOrCreate_exact s (cacheOf st (self s)) r (kerned s ll r) Hex)
    as [Himg Hex'].
  cbv zeta in Himg, Hex'.
  unfold lineStep. cbv zeta. cbn [fst snd].
  rewrite Himg.
  destruct (glyphImageImpl s r _ (boundsOf s r)) as [img | msg]; simpl.
  - eexists. split; [reflexivity |]. rewrite cacheOf_insert. exact Hex'.
  - exists st. split; [reflexivity | exact Hex].
Qed.

Lemma line_loop_exact (s : StdFace) (line : gostring) (indexOffset : Z)
    (l : list (Z * rune)) (ll : lineLoop) (st : Store) :
  cacheExact s (cacheOf st (self s)) ->
  exists st',
    M_foldl (appendGlyphsForLine_body s line indexOffset) l ll st
      = (Res_foldl (lineStep s line indexOffset) l ll, st') /\
    cacheExact s (cacheOf st' (self s)).
Proof.
  revert ll st. induction l as [|ir l IH]; intros ll st Hex.
  - exists st. split; [reflexivity | exact Hex].
  - destruct (appendGlyphsForLine_body_exact s line indexOffset ll ir st Hex)
      as (st1 & Hbody & Hex1).
    cbn [M_foldl Res_foldl]. unfold M_bind. rewrite Hbody.
    destruct (lineStep s line indexOffset ll ir) as [ll1 | msg]; simpl.
    + apply IH. exact Hex1.
    + exists st1. split; [reflexivity | exact Hex1].
Qed.

(** X14. On a StdFace that was not copied, with a cache in which every
    entry is the image that [glyphImageImpl] makes for its key,
    [appendGlyphsForLine] does what the computation without a cache does, in
    which every image is made by [glyphImageImpl] at the moment: it returns
    the same glyphs, or panics with the same message; the cache stays such a
    cache. So the outcome for a line does not depend on what was drawn
    before: two such caches give the same glyphs or the same panic.
    ([getOrCreate] is taken by its contract.) *)
Theorem StdFace_glyphs_cache_free (s : StdFace) (glyphs : list Glyph)
    (line : gostring) (indexOffset : Z) (originX originY : float64) (st : Store) :
  addr s = self s ->
  cacheExact s (cacheOf st (self s)) ->
  (exists st',
      StdFace_appendGlyphsForLine s glyphs line indexOffset originX originY st
        = (layout s glyphs line indexOffset originX originY, st') /\
      cacheExact s (cacheOf st' (self s))) /\
  (forall st2,
      cacheExact s (cacheOf st2 (self s)) ->
      (StdFace_appendGlyphsForLine s glyphs line indexOffset originX originY st2).1 =
      (StdFace_appendGlyphsForLine s glyphs line indexOffset originX originY st).1).
Proof.
  intros Haddr Hex.
  assert (G : forall st0,
             cacheExact s (cacheOf st0 (self s)) ->
             exists st',
               StdFace_appendGlyphsForLine s glyphs line indexOffset originX originY st0
                 = (layout s glyphs line indexOffset originX originY, st') /\
               cacheExact s (cacheOf st' (self s))).
  { intros st0 Hex0. unfold StdFace_appendGlyphsForLine.
    cbv [mbind M_mbind M_bind M_lift mret M_mret M_ret]. unfold copyCheck.
    destruct (decide (addr s = self s)) as [_ | Hne]; [| contradiction].
    match goal with
    | |- context [M_foldl ?body ?l ?ll0] =>
        destruct (line_loop_exact s line indexOffset l ll0 st0 Hex0)
          as (st' & Hloop & Hex')
    end.
    exists st'. split; [| exact Hex'].
    rewrite Hloop. unfold layout. cbv [mbind Res_mbind].
    destruct (Res_foldl _ _ _) as [ll | msg]; reflexivity. }
  split; [apply G; exact Hex |].
  intros st2 Hex2.
  destruct (G st Hex) as (st' & -> & _).
  destruct (G st2 Hex2) as (st2' & -> & _). reflexivity.
Qed.

End cache_free.

(** ** Lines that the first face covers *)

Section first_face.
Context `{Platform}.

Lemma splitText_first_face (f : Face) (m' : MultiFace) (text : gostring) :
  (forall j r, (j, r) ∈ utf8.rangeString text -> hasGlyph f r = true) ->
  splitText (f :: m') text =
  if len text =? 0 then []
  else [ {| textStartIndex := 0; textEndIndex := len text; faceIndex := 0 |} ].
Proof.
  intros Hall. unfold splitText.
  apply (rangeString_fold_ind text
           (fun i cs => 0 <= i /\
              cs = if i =? 0 then []
                   else [ {| textStartIndex := 0; textEndIndex := i;
                             faceIndex := 0 |} ])).
  - split; [lia | reflexivity].
  - intros i cs Hb Hi [_ Hcs] d Hd1 Hd2.
    assert (Hfi : firstFace (f :: m') 0 (fst d) = 0).
    { simpl. rewrite (Hall i); [reflexivity |].
      apply boundary_rangeString; [exact Hb | lia]. }
    split; [lia |].
    destruct (Z.eqb_spec (i + snd d) 0) as [E | _]; [lia |].
    destruct (Z.eqb_spec i 0) as [-> | Hi0]; subst cs.
    + rewrite splitText_body_nil. fold d. rewrite Hfi. reflexivity.
    + change [ {| textStartIndex := 0; textEndIndex := i; faceIndex := 0 |} ]
        with ([] ++ [ {| textStartIndex := 0; textEndIndex := i; faceIndex := 0 |} ]).
      rewrite splitText_body_snoc. cbv zeta. fold d. rewrite Hfi. reflexivity.
Qed.

Lemma chunkText_whole (text : gostring) :
  chunkText text {| textStartIndex := 0; textEndIndex := len text; faceIndex := 0 |}
  = Ok text.
Proof.
  unfold chunkText, slice. simpl.
  assert (E : (0 <=? len text) && (len text <=? len text) = true).
  { apply andb_true_intro. split; apply Z.leb_le; unfold len; lia. }
  rewrite E. f_equal. rewrite drop_0. apply take_ge. unfold len. lia.
Qed.

(** X15. On a non-empty line every rune of which has a glyph in the first
    face, a MultiFace does what its first face does: [splitText] returns the
    one chunk of face 0 over the whole line; [advance] is zero plus the
    advance of the first face; [appendGlyphsForLine] and
    [appendVectorPathForLine] are those of the first face on the whole line
    with the same offset and origin, followed by a call of its [advance],
    whose panic, if any, is passed on. The other faces are not called. *)
Theorem MultiFace_first_face_line (f : Face) (m' : MultiFace) (text : gostring) :
  text <> [] ->
  (forall j r, (j, r) ∈ utf8.rangeString text -> hasGlyph f r = true) ->
  splitText (f :: m') text =
    [ {| textStartIndex := 0; textEndIndex := len text; faceIndex := 0 |} ] /\
  MultiFace_advance (f :: m') text =
    (x ← advance f text; Ok (f64_add f64_zero x)) /\
  (forall glyphs indexOffset originX originY st,
      MultiFace_appendGlyphsForLine (f :: m') glyphs text indexOffset originX originY st =
      (glyphs' ← appendGlyphsForLine f glyphs text indexOffset originX originY;
       _ ← M_lift (advance f text);
       mret glyphs') st) /\
  (forall path originX originY,
      MultiFace_appendVectorPathForLine (f :: m') path text originX originY =
      (path' ← appendVectorPathForLine f path text originX originY;
       _ ← advance f text;
       Ok path')).
Proof.
  intros Hne Hall.
  assert (Hsplit : splitText (f :: m') text =
            [ {| textStartIndex := 0; textEndIndex := len text; faceIndex := 0 |} ]).
  { rewrite (splitText_first_face f m' text Hall).
    destruct (Z.eqb_spec (len text) 0) as [E | _]; [| reflexivity].
    destruct text; [congruence | unfold len in E; simpl in E; lia]. }
  split; [exact Hsplit |].
  unfold MultiFace_advance, MultiFace_appendGlyphsForLine,
    MultiFace_appendVectorPathForLine.
  rewrite Hsplit. split; [| split].
  - cbn [Res_foldl]. unfold MultiFace_advance_body. simpl faceIndex.
    change (0 =? -1) with false. cbv iota.
    change (index (f :: m') 0) with (Ok f).
    rewrite chunkText_whole. cbv [mbind Res_mbind Res_bind].
    destruct (advance f text); reflexivity.
  - intros glyphs io ox oy st.
    cbn [M_foldl]. unfold MultiFace_appendGlyphsForLine_body. simpl faceIndex.
    change (0 =? -1) with false. cbv iota.
    change (index (f :: m') 0) with (Ok f).
    rewrite chunkText_whole.
    cbv [mbind M_mbind M_bind M_lift mret M_mret M_ret].
    cbn [cl_glyphs cl_indexOffset cl_originX cl_originY].
    destruct (appendGlyphsForLine f glyphs text io ox oy st) as [[g | msg] st1];
      [| reflexivity].
    destruct (advance f text); reflexivity.
  - intros path ox oy.
    cbn [Res_foldl]. unfold MultiFace_appendVectorPathForLine_body. simpl faceIndex.
    change (0 =? -1) with false. cbv iota.
    change (index (f :: m') 0) with (Ok f).
    rewrite chunkText_whole. cbv [mbind Res_mbind Res_bind].
    cbn [pl_path pl_originX pl_originY].
    destruct (appendVectorPathForLine f path text ox oy); [| reflexivity].
    destruct (advance f text); reflexivity.
Qed.

End first_face.

(** ** The further properties on the sample platform *)

Section Sample_further.
#[local] Existing Instance Sample.platform.
#[local] Existing Instance Sample.granularity.

(** The image of every rune of the sample fonts can be made: their ink
    bounds are well-formed. *)
Lemma Sample_face1_drawable (r : rune) : drawable Sample.face1 r.
Proof.
  apply wellFormed_drawable. unfold wellFormed, boundsOf. simpl.
  destruct (r =? 65); [simpl; lia |]. destruct (r =? 32); simpl; lia.
Qed.

Lemma Sample_fontOf_drawable (l : loc) (has : rune -> bool) (r : rune) :
  drawable {| self := l; f := Sample.fontOf has; addr := l |} r.
Proof.
  apply wellFormed_drawable. unfold wellFormed, boundsOf. simpl.
  destruct (has r); simpl; lia.
Qed.

(** The first hiragana of the mixed line, at byte 5: in a chunk of face 1,
    the first face with a glyph for it. *)
Lemma splitText_rune_face_witness :
  (5, 12371) ∈ utf8.rangeString Sample.lineMixed /\
  exists c,
    c ∈ splitText [StdFace_Face Sample.asciiFace; StdFace_Face Sample.anyFace]
                  Sample.lineMixed /\
    textStartIndex c <= 5 /\
    5 + snd (utf8.DecodeRuneInString (drop (Z.to_nat 5) Sample.lineMixed))
      <= textEndIndex c /\
    firstOf [StdFace_Face Sample.asciiFace; StdFace_Face Sample.anyFace]
            12371 (faceIndex c).
Proof.
  assert (Hin : (5, 12371) ∈ utf8.rangeString Sample.lineMixed).
  { apply list_elem_of_In. vm_compute.
    repeat (first [left; reflexivity | right]). }
  split; [exact Hin |].
  apply (splitText_rune_face
           [StdFace_Face Sample.asciiFace; StdFace_Face Sample.anyFace]
           Sample.lineMixed 5 12371 Hin).
Defined.

(** The chunk of the hiragana of the mixed line, bytes 5 to 20. *)
Lemma splitText_chunks_whole_runes_witness :
  let c := {| textStartIndex := 5; textEndIndex := 20; faceIndex := 1 |} in
  c ∈ splitText [StdFace_Face Sample.asciiFace; StdFace_Face Sample.anyFace]
                Sample.lineMixed /\
  exists t,
    chunkText Sample.lineMixed c = Ok t /\
    len t = 15 /\
    runeBoundary Sample.lineMixed 5 /\
    runeBoundary Sample.lineMixed 20.
Proof.
  cbv zeta.
  assert (Hin : {| textStartIndex := 5; textEndIndex := 20; faceIndex := 1 |}
                ∈ splitText [StdFace_Face Sample.asciiFace; StdFace_Face Sample.anyFace]
                            Sample.lineMixed).
  { apply list_elem_of_In. vm_compute.
    repeat (first [left; reflexivity | right]). }
  split; [exact Hin |].
  destruct (splitText_chunks_whole_runes _ _ _ Hin) as (t & Ht & Hlen & Hs & He & _).
  exists t. repeat split; assumption.
Defined.

(** The line "A A" on the first sample face. *)
Lemma StdFace_line_glyphs_witness :
  addr Sample.face1 = self Sample.face1 /\
  lineDrawable Sample.face1 [Byte.x41; Byte.x20; Byte.x41] /\
  exists new st',
    StdFace_appendGlyphsForLine Sample.face1 [] [Byte.x41; Byte.x20; Byte.x41] 0 0 0 ∅
      = (Ok ([] ++ new), st') /\
    ascending 0 new (0 + 3) /\
    Forall (lineGlyph Sample.face1 [Byte.x41; Byte.x20; Byte.x41] 0 0) new.
Proof.
  assert (Hd : lineDrawable Sample.face1 [Byte.x41; Byte.x20; Byte.x41])
    by (intros j r _; apply Sample_face1_drawable).
  split; [reflexivity |]. split; [exact Hd |].
  destruct (StdFace_line_glyphs (H := Sample.platform) Sample.face1 []
              [Byte.x41; Byte.x20; Byte.x41] 0 0 0 ∅ eq_refl Hd)
    as (new & st' & Hrun & _ & Hasc & Hall).
  exists new, st'. repeat split; assumption.
Defined.

(** The same line: 'A' has a glyph, the space has none. *)
Lemma StdFace_line_glyph_ranges_witness :
  addr Sample.face1 = self Sample.face1 /\
  lineDrawable Sample.face1 [Byte.x41; Byte.x20; Byte.x41] /\
  cacheSound Sample.face1 (cacheOf ∅ (self Sample.face1)) /\
  exists new st',
    StdFace_appendGlyphsForLine Sample.face1 [] [Byte.x41; Byte.x20; Byte.x41] 0 0 0 ∅
      = (Ok ([] ++ new), st') /\
    map (fun g => (StartIndexInBytes g, EndIndexInBytes g)) new = [(0, 1); (2, 3)].
Proof.
  assert (Hs : cacheSound Sample.face1 (cacheOf ∅ (self Sample.face1)))
    by apply cacheSound_empty.
  assert (Hd : lineDrawable Sample.face1 [Byte.x41; Byte.x20; Byte.x41])
    by (intros j r _; apply Sample_face1_drawable).
  split; [reflexivity |]. split; [exact Hd |]. split; [exact Hs |].
  destruct (StdFace_line_glyph_ranges (H := Sample.platform) Sample.face1 []
              [Byte.x41; Byte.x20; Byte.x41] 0 0 0 ∅ eq_refl Hs)
    as [Hret _].
  destruct (Hret Hd) as (new & st' & Hrun & _ & Hmap).
  exists new, st'. split; [exact Hrun |]. rewrite Hmap. vm_compute. reflexivity.
Defined.

(** The 'A' of the sample font: 512 by 608 64ths, an image of 9 by 11
    pixels. *)
Lemma glyphImageImpl_size_witness :
  let b := boundsOf Sample.face1 65 in
  fixed.X (fixed.Max b) - fixed.X (fixed.Min b) = 512 /\
  fixed.Y (fixed.Max b) - fixed.Y (fixed.Min b) = 608 /\
  exists img,
    glyphImageImpl Sample.face1 65 {| fixed.X := 0; fixed.Y := 0 |} b = Ok (Some img) /\
    512 + 64 <= 64 * img_w img < 512 + 128 /\
    608 + 64 <= 64 * img_h img < 608 + 128.
Proof.
  cbv zeta. split; [reflexivity |]. split; [reflexivity |].
  destruct (glyphImageImpl_size Sample.face1 65 {| fixed.X := 0; fixed.Y := 0 |}
              (boundsOf Sample.face1 65)) as [_ [Hpos _]].
  - vm_compute. split; discriminate.
  - vm_compute. split; discriminate.
  - destruct Hpos as (img & Himg & _ & Hw & Hh & _); [reflexivity | reflexivity |].
    exists img. split; [exact Himg |]. split; [exact Hw | exact Hh].
Defined.

(** The 'A' of the sample font at the origin (32, 32), with an empty
    cache. *)
Lemma glyphImage_cache_transparent_witness :
  cacheExact Sample.face1 (cacheOf ∅ (self Sample.face1)) /\
  exists st',
    glyphImage Sample.face1 65 {| fixed.X := 32; fixed.Y := 32 |} ∅ =
      (img ← glyphImageImpl Sample.face1 65
               (subpixelOffsetOf (quantize Sample.face1 {| fixed.X := 32; fixed.Y := 32 |})
                                 (boundsOf Sample.face1 65))
               (boundsOf Sample.face1 65);
       Ok (img, 0, -10, 640), st').
Proof.
  assert (Hex : cacheExact Sample.face1 (cacheOf ∅ (self Sample.face1))).
  { intros key img Hk. unfold cacheOf in Hk. rewrite lookup_empty in Hk. simpl in Hk.
    rewrite lookup_empty in Hk. discriminate. }
  split; [exact Hex |].
  destruct (glyphImage_cache_transparent Sample.face1 65
              {| fixed.X := 32; fixed.Y := 32 |} ∅ Hex) as (st' & Hrun & _).
  exists st'. exact Hrun.
Defined.

(** The line "é" on a MultiFace whose face has no glyph for it. *)
Lemma MultiFace_line_without_glyphs_witness :
  (forall j r, (j, r) ∈ utf8.rangeString [Byte.xc3; Byte.xa9] ->
               MultiFace_hasGlyph [StdFace_Face Sample.face1] r = false) /\
  splitText [StdFace_Face Sample.face1] [Byte.xc3; Byte.xa9] =
    [ {| textStartIndex := 0; textEndIndex := 2; faceIndex := -1 |} ] /\
  MultiFace_advance [StdFace_Face Sample.face1] [Byte.xc3; Byte.xa9] = Ok 0.
Proof.
  assert (Hno : forall j r, (j, r) ∈ utf8.rangeString [Byte.xc3; Byte.xa9] ->
                  MultiFace_hasGlyph [StdFace_Face Sample.face1] r = false).
  { intros j r Hin. apply list_elem_of_In in Hin. vm_compute in Hin.
    destruct Hin as [Hin | []]. injection Hin as <- <-. reflexivity. }
  split; [exact Hno |].
  destruct (MultiFace_line_without_glyphs [StdFace_Face Sample.face1]
              [Byte.xc3; Byte.xa9] Hno) as (Hsplit & Hadv & _).
  split; [exact Hsplit | exact Hadv].
Defined.

(** The mixed line on the two sample faces that cover it. *)
Lemma MultiFace_covered_line_glyphs_witness :
  let m := [StdFace_Face Sample.asciiFace; StdFace_Face Sample.anyFace] in
  Forall orderly m /\
  (forall j r, (j, r) ∈ utf8.rangeString Sample.lineMixed ->
               MultiFace_hasGlyph m r = true) /\
  exists new st',
    MultiFace_appendGlyphsForLine m [] Sample.lineMixed 0 0 0 ∅
      = (Ok ([] ++ new), st') /\
    ascending 0 new (0 + len Sample.lineMixed) /\
    Forall (rangeOk Sample.lineMixed 0) new.
Proof.
  cbv zeta.
  destruct (MultiFace_covered_line_glyphs (H := Sample.platform)
              [StdFace_Face Sample.asciiFace; StdFace_Face Sample.anyFace]
              [] Sample.lineMixed 0 0 0 ∅) as [Hstd Hmain].
  assert (Hm : Forall orderly
                 [StdFace_Face Sample.asciiFace; StdFace_Face Sample.anyFace])
    by (repeat apply Forall_cons_2; [| | apply Forall_nil_2];
        (apply Hstd; [reflexivity | apply Sample_fontOf_drawable])).
  assert (Hcov : forall j r, (j, r) ∈ utf8.rangeString Sample.lineMixed ->
                   MultiFace_hasGlyph
                     [StdFace_Face Sample.asciiFace; StdFace_Face Sample.anyFace] r
                   = true).
  { intros j r _. simpl. unfold StdFace_hasGlyph. simpl.
    destruct (r <? 128); reflexivity. }
  split; [exact Hm |]. split; [exact Hcov |].
  apply Hmain; assumption.
Defined.

(** The second sample face nested after the first. *)
Lemma MultiFace_Metrics_nested_witness :
  MultiFace_Metrics
    ([StdFace_Face Sample.face1] ++
       MultiFace_Face [StdFace_Face Sample.face2] :: []) =
  MultiFace_Metrics ([StdFace_Face Sample.face1] ++ [StdFace_Face Sample.face2] ++ []).
Proof.
  apply (MultiFace_Metrics_nested (H0 := Sample_order)).
Defined.

Lemma StdFace_glyphs_cache_free_witness :
  addr Sample.face1 = self Sample.face1 /\
  cacheExact Sample.face1 (cacheOf ∅ (self Sample.face1)) /\
  exists st',
    StdFace_appendGlyphsForLine Sample.face1 [] Sample.lineAB 0 0 0 ∅
      = (layout Sample.face1 [] Sample.lineAB 0 0 0, st').
Proof.
  assert (Hex : cacheExact Sample.face1 (cacheOf ∅ (self Sample.face1))).
  { intros key img Hk. unfold cacheOf in Hk. rewrite lookup_empty in Hk. simpl in Hk.
    rewrite lookup_empty in Hk. discriminate. }
  split; [reflexivity |]. split; [exact Hex |].
  destruct (StdFace_glyphs_cache_free (H := Sample.platform) Sample.face1 [] Sample.lineAB 0 0 0 ∅ eq_refl Hex)
    as [(st' & Hrun & _) _].
  exists st'. exact Hrun.
Defined.

(** The line "A" on the first sample face, first of two. *)
Lemma MultiFace_first_face_line_witness :
  [Byte.x41] <> [] /\
  (forall j r, (j, r) ∈ utf8.rangeString [Byte.x41] ->
               hasGlyph (StdFace_Face Sample.face1) r = true) /\
  splitText [StdFace_Face Sample.face1; StdFace_Face Sample.face2] [Byte.x41] =
    [ {| textStartIndex := 0; textEndIndex := 1; faceIndex := 0 |} ] /\
  MultiFace_advance [StdFace_Face Sample.face1; StdFace_Face Sample.face2] [Byte.x41]
    = Ok 640.
Proof.
  assert (Hne : [Byte.x41] <> []) by discriminate.
  assert (Hall : forall j r, (j, r) ∈ utf8.rangeString [Byte.x41] ->
                   hasGlyph (StdFace_Face Sample.face1) r = true).
  { intros j r Hin. apply list_elem_of_In in Hin. vm_compute in Hin.
    destruct Hin as [Hin | []]. injection Hin as <- <-. reflexivity. }
  split; [exact Hne |]. split; [exact Hall |].
  destruct (MultiFace_first_face_line (StdFace_Face Sample.face1)
              [StdFace_Face Sample.face2] [Byte.x41] Hne Hall) as (Hsplit & Hadv & _).
  split; [exact Hsplit |]. rewrite Hadv. reflexivity.
Defined.

(** A font with ink bounds that are not well-formed: for a width of -64
    the ceiling is -1, the test for zero is passed, the increment gives the
    width 0, and [glyphImageImpl] panics where [ebiten.NewImageFromImage]
    does; so do [glyphImage] and [appendGlyphsForLine] on a new face. *)
Example StdFace_inverted_bounds_panic :
  let msg := "ebiten: width at NewImage must be positive"%string in
  fixed.Ceil (fixed.sub 0 64) = -1 /\
  ~ drawable Sample.invertedFace 65 /\
  glyphImageImpl Sample.invertedFace 65 {| fixed.X := 0; fixed.Y := 0 |}
                 (boundsOf Sample.invertedFace 65) = Panic msg /\
  glyphImage Sample.invertedFace 65 {| fixed.X := 0; fixed.Y := 0 |} ∅
    = (Panic msg, ∅) /\
  StdFace_appendGlyphsForLine Sample.invertedFace [] [Byte.x41] 0 0 0 ∅
    = (Panic msg, ∅).
Proof.
  cbv zeta. split; [reflexivity |]. split.
  - intros Hd. destruct (Hd {| fixed.X := 0; fixed.Y := 0 |}) as [img Himg].
    vm_compute in Himg. discriminate.
  - repeat split; vm_compute; reflexivity.
Qed.

End Sample_further.
